(** * Virtual Drummer: the pattern generator, embedded and verified

    A shallow embedding of [src/generator/PatternGenerator.ts],
    [src/generator/humanize.ts] and the five style templates
    ([templates/rock.ts], [jazz.ts], [electronic.ts], [latin.ts], [lofi.ts]),
    and of what the rest of the program computes from a pattern: the
    notes of the MIDI export, the transport positions of the audio
    engine, the grid of the pattern display and the samples of the WAV
    export.

    Modelling conventions.
    - A JavaScript [number] is an exact rational ([Q]); comparisons are the
      boolean tests below, so every definition evaluates.  Rounding error,
      NaN and the infinities of IEEE doubles are outside the model.
    - [Math.random()] reads the next value of an oracle [rnd : nat -> Q];
      the number of values consumed so far is the state of the shared
      random source.  "Every outcome of the random source" is a
      quantification over [rnd] (with values in [0, 1) where that matters).
    - The [hits] array that the templates push to is the buffer of the
      template state; [hits.push] appends at its end.
    - [kitStyle] and [timeSignature] are kept as the strings the running
      program sees, so that values outside the declared unions exist. *)

From Stdlib Require Import QArith Qround Qabs Qminmax Lqa Lia ZArith List String Ascii Bool.
From Stdlib Require Import DecimalString DecimalZ DecimalPos Permutation Sorted.
Import ListNotations.

Open Scope string_scope.
Open Scope list_scope.
Open Scope Q_scope.

(** ** Numbers *)

Module Num.

(** [a < b], [a > b], [a >= b], [a === b] on numbers. *)
Definition ltb (a b : Q) : bool := negb (Qle_bool b a).
Definition gtb (a b : Q) : bool := ltb b a.
Definition geb (a b : Q) : bool := Qle_bool b a.
Definition eqb (a b : Q) : bool := Qeq_bool a b.

(** [Math.max], [Math.min], [Math.abs]. *)
Definition max (a b : Q) : Q := if ltb a b then b else a.
Definition min (a b : Q) : Q := if ltb b a then b else a.
Definition abs (a : Q) : Q := if ltb a 0 then - a else a.

(** [Math.round]: the nearest integer, halves towards plus infinity. *)
Definition round (x : Q) : Z := Qfloor (x + (1 # 2)).

(** Truncation towards zero and the remainder operator [x % y], whose
    result takes the sign of [x]. *)
Definition trunc (x : Q) : Z := if ltb x 0 then Qceiling x else Qfloor x.
Definition rem (x y : Q) : Q := x - y * inject_Z (trunc (x / y)).

(** The decimal rendering of an integer inside a template string. *)
Definition toString (z : Z) : string := NilZero.string_of_int (Z.to_int z).

End Num.

Infix "<?" := Num.ltb (at level 70, no associativity) : Q_scope.
Infix ">?" := Num.gtb (at level 70, no associativity) : Q_scope.
Infix ">=?" := Num.geb (at level 70, no associativity) : Q_scope.
Infix "=?" := Num.eqb (at level 70, no associativity) : Q_scope.
Infix "%%" := Num.rem (at level 40, left associativity) : Q_scope.

(** ** Data model ([types/index.ts]) *)

Inductive DrumType : Set :=
| kick | snare | hihat_closed | hihat_open
| tom_high | tom_mid | tom_low | crash | ride.

Definition drumName (d : DrumType) : string :=
  match d with
  | kick => "kick"
  | snare => "snare"
  | hihat_closed => "hihat-closed"
  | hihat_open => "hihat-open"
  | tom_high => "tom-high"
  | tom_mid => "tom-mid"
  | tom_low => "tom-low"
  | crash => "crash"
  | ride => "ride"
  end.

Definition drum_eqb (a b : DrumType) : bool :=
  match a, b with
  | kick, kick | snare, snare | hihat_closed, hihat_closed
  | hihat_open, hihat_open | tom_high, tom_high | tom_mid, tom_mid
  | tom_low, tom_low | crash, crash | ride, ride => true
  | _, _ => false
  end.

Record DrumHit : Set := mkHit {
  drum : DrumType;
  time : Q;
  velocity : Q;
  duration : Q
}.

Record Pattern : Set := mkPattern {
  hits : list DrumHit;
  lengthInBeats : Q;
  timeSignature : string;
  bpm : Q
}.

Record GeneratorSettings : Set := mkSettings {
  kitStyle : string;
  s_timeSignature : string;
  s_bpm : Q;
  bars : Q;
  complexity : Q;
  dynamics : Q
}.

(** [{ ...hit, time: t }] and [{ ...hit, time: t, velocity: v }]. *)
Definition withTime (h : DrumHit) (t : Q) : DrumHit :=
  mkHit (drum h) t (velocity h) (duration h).
Definition withTimeVelocity (h : DrumHit) (t v : Q) : DrumHit :=
  mkHit (drum h) t v (duration h).

(** ** The state of a run *)

(** A computation over a state [S]. *)
Definition State (S A : Type) : Type := S -> A * S.

Definition ret {S A : Type} (a : A) : State S A := fun s => (a, s).
Definition bind {S A B : Type} (m : State S A) (k : A -> State S B) : State S B :=
  fun s => let (a, s') := m s in k a s'.

Declare Scope state_scope.
Delimit Scope state_scope with state.
Notation "x <- m ;; k" := (bind m (fun x => k))
  (at level 61, m at next level, right associativity) : state_scope.
Notation "m ;; k" := (bind m (fun _ => k))
  (at level 61, right associativity) : state_scope.
Open Scope state_scope.

(** The random source: how many values have been drawn. *)
Definition Rand (A : Type) : Type := State nat A.

(** A template run: the [hits] array under construction and the random
    source. *)
Record TemplateState : Set := mkTS { buf : list DrumHit; draws : nat }.
Definition Tmpl (A : Type) : Type := State TemplateState A.

Definition push (h : DrumHit) : Tmpl unit :=
  fun s => (tt, mkTS (buf s ++ [h]) (draws s)).

(** [if (c) { m }] without an else branch. *)
Definition when {S : Type} (c : bool) (m : State S unit) : State S unit :=
  if c then m else ret tt.

(** [for (let i = start; ...; i++)] unrolled [n] times. *)
Fixpoint forRange {S : Type} (start : Z) (n : nat) (body : Z -> State S unit)
  : State S unit :=
  match n with
  | O => ret tt
  | S k => body start ;; forRange (start + 1) k body
  end.

(** [for (let i = 0; i < bound; i++)]: the integers [0 <= i < bound], of
    which there are [ceil bound] when [bound] is positive and none
    otherwise. *)
Definition forLt {S : Type} (bound : Q) (body : Z -> State S unit) : State S unit :=
  forRange 0 (Z.to_nat (Qceiling bound)) body.

(** [for (const x of xs)]. *)
Fixpoint forOf {S A : Type} (xs : list A) (body : A -> State S unit) : State S unit :=
  match xs with
  | [] => ret tt
  | x :: r => body x ;; forOf r body
  end.

(** [getBeatsPerBar], repeated verbatim in [PatternGenerator.ts] and in
    every template. *)
Definition getBeatsPerBar (ts : string) : Q :=
  if String.eqb ts "3/4" then 3
  else if String.eqb ts "4/4" then 4
  else if String.eqb ts "5/4" then 5
  else if String.eqb ts "6/8" then 6
  else if String.eqb ts "7/8" then 3.5
  else 4.

(** ** The five style templates *)

Section Generator.

(** The outcomes of [Math.random()], in the order they are drawn. *)
Variable rnd : nat -> Q.

Definition Math_random : Rand Q := fun n => (rnd n, S n).

Definition liftRand {A : Type} (m : Rand A) : Tmpl A :=
  fun s => let (a, n) := m (draws s) in (a, mkTS (buf s) n).

(** [Math.random() < p]. *)
Definition chance (p : Q) : Tmpl bool :=
  r <- liftRand Math_random ;; ret (r <? p).

(** [c && m], which evaluates [m] only when [c] holds. *)
Definition andAlso (c : bool) (m : Tmpl bool) : Tmpl bool :=
  if c then m else ret false.

(** A template starts from an empty array and returns it. *)
Definition runTemplate (m : Tmpl unit) : Rand (list DrumHit) :=
  fun n => let (_, s) := m (mkTS [] n) in (buf s, draws s).

(** *** [templates/rock.ts] *)

Definition addKickPattern (barOffset beatsPerBar complexity velocity : Q)
  : Tmpl unit :=
  push (mkHit kick barOffset velocity 0.25) ;;
  when (beatsPerBar >=? 4) (
    push (mkHit kick (barOffset + 2) (velocity * 0.95) 0.25) ;;
    when (complexity >? 0.5)
      (push (mkHit kick (barOffset + 1.5) (velocity * 0.8) 0.25)) ;;
    when (complexity >? 0.7)
      (push (mkHit kick (barOffset + 3.5) (velocity * 0.75) 0.25))).

Definition addSnarePattern (barOffset beatsPerBar complexity velocity : Q)
    (isFillBar : bool) : Tmpl unit :=
  if beatsPerBar >=? 4 then
    push (mkHit snare (barOffset + 1) velocity 0.25) ;;
    when (negb isFillBar)
      (push (mkHit snare (barOffset + 3) velocity 0.25)) ;;
    when (complexity >? 0.6) (
      push (mkHit snare (barOffset + 0.5) (velocity * 0.3) 0.125) ;;
      push (mkHit snare (barOffset + 2.5) (velocity * 0.3) 0.125))
  else
    when (beatsPerBar =? 3)
      (push (mkHit snare (barOffset + 1) velocity 0.25)).

Definition addHihatPattern (barOffset beatsPerBar complexity dynamics velocity : Q)
  : Tmpl unit :=
  let subdivision :=
    if complexity <? 0.3 then 1 else if complexity <? 0.6 then 0.5 else 0.25 in
  let steps := beatsPerBar / subdivision in
  forLt steps (fun i =>
    let time := barOffset + inject_Z i * subdivision in
    let isOnBeat := (time %% 1) =? 0 in
    let isOffBeat := (((time * 2) %% 1) =? 0) && negb isOnBeat in
    isOpen <- andAlso ((dynamics >? 0.7) && isOffBeat) (chance 0.3) ;;
    push (mkHit (if isOpen then hihat_open else hihat_closed)
                time
                (velocity * (if isOnBeat then 1 else 0.7))
                (if isOpen then 0.25 else 0.125))).

Definition addRidePattern (barOffset beatsPerBar velocity : Q) : Tmpl unit :=
  forLt beatsPerBar (fun beat =>
    push (mkHit ride (barOffset + inject_Z beat) velocity 0.5)).

Definition rockFillNotes : list (DrumType * Q) :=
  [ (snare, 0); (tom_high, 0.25); (tom_mid, 0.5); (tom_low, 0.75) ].

Definition addRockFill (barOffset beatsPerBar complexity velocity : Q)
  : Tmpl unit :=
  let fillStart := barOffset + beatsPerBar - 1 in
  when (complexity >? 0.8) (
    push (mkHit snare (fillStart - 1) velocity 0.25) ;;
    push (mkHit snare (fillStart - 0.75) (velocity * 0.9) 0.25) ;;
    push (mkHit tom_high (fillStart - 0.5) velocity 0.25) ;;
    push (mkHit tom_high (fillStart - 0.25) (velocity * 0.9) 0.25)) ;;
  forOf rockFillNotes (fun note =>
    push (mkHit (fst note) (fillStart + snd note)
                (velocity * (1 - snd note * 0.1)) 0.25)).

Definition rockBar (beatsPerBar complexity dynamics baseVelocity : Q) (bar : Z)
  : Tmpl unit :=
  let barOffset := inject_Z bar * beatsPerBar in
  let isFillBar := (complexity >? 0.6) && (Z.rem (bar + 1) 4 =? 0)%Z in
  addKickPattern barOffset beatsPerBar complexity baseVelocity ;;
  addSnarePattern barOffset beatsPerBar complexity baseVelocity isFillBar ;;
  when (negb isFillBar)
    (addHihatPattern barOffset beatsPerBar complexity dynamics baseVelocity) ;;
  when ((bar =? 0)%Z || ((bar >? 0)%Z && (complexity >? 0.5) && (Z.rem bar 4 =? 0)%Z))
    (push (mkHit crash barOffset (baseVelocity * 0.9) 0.5)) ;;
  when isFillBar
    (addRockFill barOffset beatsPerBar complexity baseVelocity) ;;
  when ((dynamics <? 0.3) && (complexity >? 0.4))
    (addRidePattern barOffset beatsPerBar (baseVelocity * 0.7)).

Definition generateRockPattern (bars : Q) (timeSignature : string)
    (complexity dynamics : Q) : Rand (list DrumHit) :=
  let beatsPerBar := getBeatsPerBar timeSignature in
  let baseVelocity := 0.5 + dynamics * 0.4 in
  runTemplate (forLt bars (rockBar beatsPerBar complexity dynamics baseVelocity)).

(** *** [templates/jazz.ts] *)

Definition addSwingRidePattern (barOffset beatsPerBar complexity velocity : Q)
  : Tmpl unit :=
  forLt beatsPerBar (fun beat =>
    push (mkHit ride (barOffset + inject_Z beat) velocity 0.3) ;;
    when ((complexity >? 0.2) || (Z.rem beat 2 =? 0)%Z)
      (push (mkHit ride (barOffset + inject_Z beat + 0.67) (velocity * 0.75) 0.2)) ;;
    bell <- andAlso (beat =? 0)%Z (chance (complexity * 0.3)) ;;
    when bell
      (push (mkHit ride (barOffset + inject_Z beat) (velocity * 1.1) 0.3))).

Definition addJazzHihatPattern (barOffset beatsPerBar velocity : Q) : Tmpl unit :=
  if beatsPerBar >=? 4 then
    push (mkHit hihat_closed (barOffset + 1) (velocity * 0.6) 0.1) ;;
    push (mkHit hihat_closed (barOffset + 3) (velocity * 0.6) 0.1)
  else
    when (beatsPerBar =? 3)
      (push (mkHit hihat_closed (barOffset + 1) (velocity * 0.6) 0.1)).

Definition addFeatheredKick (barOffset beatsPerBar complexity dynamics velocity : Q)
  : Tmpl unit :=
  let featherVelocity := velocity * 0.3 in
  forLt beatsPerBar (fun beat =>
    when (dynamics >? 0.3)
      (push (mkHit kick (barOffset + inject_Z beat) featherVelocity 0.2))) ;;
  when (complexity >? 0.5) (
    first <- chance 0.5 ;;
    let accentBeat := if first then 0 else 2 in
    when (accentBeat <? beatsPerBar)
      (push (mkHit kick (barOffset + accentBeat) (velocity * 0.6) 0.25))).

Definition compingPositions : list (Q * Q) :=
  [ (0.67, 0.2); (1.67, 0.3); (2, 0.15); (2.67, 0.25); (3.5, 0.2) ].

Definition addJazzSnareComping (barOffset beatsPerBar complexity velocity : Q)
  : Tmpl unit :=
  if complexity <? 0.3 then ret tt
  else
    forOf compingPositions (fun pos =>
      let beat := fst pos in
      let prob := snd pos in
      play <- andAlso (beat <? beatsPerBar) (chance (prob * complexity)) ;;
      when play (
        r <- liftRand Math_random ;;
        push (mkHit snare (barOffset + beat) (velocity * (0.4 + r * 0.3)) 0.15))).

Definition addJazzFill (barOffset beatsPerBar complexity velocity : Q)
  : Tmpl unit :=
  let fillStart := barOffset + beatsPerBar - 1 in
  (if complexity >? 0.7 then
     push (mkHit snare fillStart (velocity * 0.7) 0.15) ;;
     push (mkHit snare (fillStart + 0.33) (velocity * 0.8) 0.15) ;;
     push (mkHit snare (fillStart + 0.67) (velocity * 0.9) 0.15)
   else
     push (mkHit snare (fillStart + 0.5) (velocity * 0.8) 0.2)) ;;
  push (mkHit crash (barOffset + beatsPerBar) (velocity * 0.7) 0.5).

Definition jazzBar (beatsPerBar complexity dynamics baseVelocity : Q) (bar : Z)
  : Tmpl unit :=
  let barOffset := inject_Z bar * beatsPerBar in
  let isFourBarPhrase := (Z.rem (bar + 1) 4 =? 0)%Z in
  addSwingRidePattern barOffset beatsPerBar complexity baseVelocity ;;
  addJazzHihatPattern barOffset beatsPerBar baseVelocity ;;
  addFeatheredKick barOffset beatsPerBar complexity dynamics baseVelocity ;;
  addJazzSnareComping barOffset beatsPerBar complexity baseVelocity ;;
  when (isFourBarPhrase && (complexity >? 0.5))
    (addJazzFill barOffset beatsPerBar complexity baseVelocity).

Definition generateJazzPattern (bars : Q) (timeSignature : string)
    (complexity dynamics : Q) : Rand (list DrumHit) :=
  let beatsPerBar := getBeatsPerBar timeSignature in
  let baseVelocity := 0.4 + dynamics * 0.4 in
  runTemplate (forLt bars (jazzBar beatsPerBar complexity dynamics baseVelocity)).

(** *** [templates/electronic.ts] *)

Definition addFourOnFloorKick (barOffset beatsPerBar complexity velocity : Q)
    (isBreakdown : bool) : Tmpl unit :=
  if isBreakdown then ret tt
  else
    forLt beatsPerBar (fun beat =>
      push (mkHit kick (barOffset + inject_Z beat) velocity 0.2)) ;;
    when (complexity >? 0.6)
      (push (mkHit kick (barOffset + 0.75) (velocity * 0.85) 0.15)) ;;
    when (complexity >? 0.8) (
      push (mkHit kick (barOffset + 2.5) (velocity * 0.8) 0.15) ;;
      push (mkHit kick (barOffset + 3.75) (velocity * 0.85) 0.15)).

Definition addElectronicSnare (barOffset beatsPerBar complexity velocity : Q)
    (isBreakdown : bool) : Tmpl unit :=
  if isBreakdown then ret tt
  else
    when (beatsPerBar >=? 4) (
      push (mkHit snare (barOffset + 1) velocity 0.2) ;;
      push (mkHit snare (barOffset + 3) velocity 0.2) ;;
      when (complexity >? 0.7)
        (push (mkHit snare (barOffset + 1.5) (velocity * 0.5) 0.1))).

Definition addElectronicHihats (barOffset beatsPerBar complexity dynamics velocity : Q)
  : Tmpl unit :=
  let subdivision := 0.25 in
  let steps := beatsPerBar / subdivision in
  forLt steps (fun i =>
    let time := barOffset + inject_Z i * subdivision in
    let isOnBeat := (Z.rem i 4 =? 0)%Z in
    let isOffBeat := (Z.rem i 2 =? 1)%Z in
    let isEighthOffbeat := (Z.rem i 4 =? 2)%Z in
    isOpen <- andAlso ((dynamics >? 0.5) && isEighthOffbeat) (chance 0.4) ;;
    if (complexity <? 0.5) && negb isOnBeat && negb isEighthOffbeat then ret tt
    else if (complexity <? 0.3) && negb isOnBeat then ret tt
    else
      let hitVelocity :=
        if isOnBeat then velocity * 0.9
        else if isEighthOffbeat then velocity * 0.8
        else if isOffBeat then velocity * 0.5
        else velocity * 0.7 in
      push (mkHit (if isOpen then hihat_open else hihat_closed)
                  time hitVelocity (if isOpen then 0.2 else 0.1))).

Definition addElectronicPercussion (barOffset beatsPerBar complexity velocity : Q)
  : Tmpl unit :=
  forOf [0.5; 1.5; 2.5; 3.5] (fun pos =>
    play <- andAlso (pos <? beatsPerBar) (chance (complexity * 0.4)) ;;
    when play
      (push (mkHit ride (barOffset + pos) (velocity * 0.5) 0.15))).

Definition addElectronicFill (barOffset beatsPerBar velocity : Q) : Tmpl unit :=
  let fillStart := barOffset + beatsPerBar - 2 in
  forLt 16 (fun i =>
    let time := fillStart + inject_Z i * 0.125 in
    let buildVelocity := velocity * (0.3 + (inject_Z i / 16) * 0.7) in
    push (mkHit snare time buildVelocity 0.1)) ;;
  push (mkHit crash (barOffset + beatsPerBar) velocity 0.5).

Definition electronicBar (beatsPerBar complexity dynamics baseVelocity : Q) (bar : Z)
  : Tmpl unit :=
  let barOffset := inject_Z bar * beatsPerBar in
  let isBreakdownBar := (complexity >? 0.6) && (Z.rem (bar + 1) 8 =? 0)%Z in
  addFourOnFloorKick barOffset beatsPerBar complexity baseVelocity isBreakdownBar ;;
  addElectronicSnare barOffset beatsPerBar complexity baseVelocity isBreakdownBar ;;
  addElectronicHihats barOffset beatsPerBar complexity dynamics baseVelocity ;;
  when (complexity >? 0.5)
    (addElectronicPercussion barOffset beatsPerBar complexity baseVelocity) ;;
  when isBreakdownBar
    (addElectronicFill barOffset beatsPerBar baseVelocity).

Definition generateElectronicPattern (bars : Q) (timeSignature : string)
    (complexity dynamics : Q) : Rand (list DrumHit) :=
  let beatsPerBar := getBeatsPerBar timeSignature in
  let baseVelocity := 0.6 + dynamics * 0.35 in
  runTemplate
    (forLt bars (electronicBar beatsPerBar complexity dynamics baseVelocity)).

(** *** [templates/latin.ts] *)

Definition addLatinKick (barOffset beatsPerBar : Q) (claveBar : Z)
    (complexity velocity : Q) : Tmpl unit :=
  if beatsPerBar >=? 4 then
    if (claveBar =? 0)%Z then
      push (mkHit kick (barOffset + 0) velocity 0.2) ;;
      push (mkHit kick (barOffset + 2.5) (velocity * 0.9) 0.2) ;;
      when (complexity >? 0.5)
        (push (mkHit kick (barOffset + 3.5) (velocity * 0.85) 0.2))
    else
      push (mkHit kick (barOffset + 0.5) (velocity * 0.9) 0.2) ;;
      push (mkHit kick (barOffset + 2) velocity 0.2) ;;
      when (complexity >? 0.5)
        (push (mkHit kick (barOffset + 3) (velocity * 0.85) 0.2))
  else
    when (beatsPerBar =? 3) (
      push (mkHit kick barOffset velocity 0.2) ;;
      push (mkHit kick (barOffset + 1.5) (velocity * 0.85) 0.2)).

Definition addLatinSnare (barOffset beatsPerBar : Q) (claveBar : Z)
    (complexity velocity : Q) : Tmpl unit :=
  let crossVelocity := velocity * 0.7 in
  when (beatsPerBar >=? 4) (
    (if (claveBar =? 0)%Z then
       push (mkHit snare (barOffset + 1) crossVelocity 0.15) ;;
       push (mkHit snare (barOffset + 2) (crossVelocity * 0.9) 0.15) ;;
       push (mkHit snare (barOffset + 3) crossVelocity 0.15)
     else
       push (mkHit snare (barOffset + 1) crossVelocity 0.15) ;;
       push (mkHit snare (barOffset + 3) crossVelocity 0.15)) ;;
    when (complexity >? 0.6) (
      push (mkHit snare (barOffset + 0.5) (velocity * 0.3) 0.1) ;;
      push (mkHit snare (barOffset + 2.5) (velocity * 0.3) 0.1))).

Definition addLatinCymbal (barOffset beatsPerBar _complexity dynamics velocity : Q)
  : Tmpl unit :=
  let useRide := dynamics >? 0.5 in
  let drum := if useRide then ride else hihat_closed in
  forLt (beatsPerBar * 2) (fun i =>
    let time := barOffset + inject_Z i * 0.5 in
    let isOnBeat := (Z.rem i 2 =? 0)%Z in
    push (mkHit drum time (velocity * (if isOnBeat then 0.8 else 0.6)) 0.2)) ;;
  when ((dynamics >? 0.6) && negb useRide) (
    push (mkHit hihat_open (barOffset + 1.5) (velocity * 0.7) 0.25) ;;
    push (mkHit hihat_open (barOffset + 3.5) (velocity * 0.7) 0.25)).

Definition addCascaraPattern (barOffset beatsPerBar : Q) (claveBar : Z)
    (_complexity velocity : Q) : Tmpl unit :=
  let tomVelocity := velocity * 0.6 in
  when (beatsPerBar >=? 4) (
    let pattern :=
      if (claveBar =? 0)%Z
      then [0; 0.5; 1; 1.5; 2.5; 3; 3.5]
      else [0; 0.5; 1.5; 2; 2.5; 3.5] in
    forOf pattern (fun pos =>
      let useTomHigh := (pos %% 1) =? 0 in
      push (mkHit (if useTomHigh then tom_high else tom_mid)
                  (barOffset + pos) tomVelocity 0.15))).

Definition addBellPattern (barOffset beatsPerBar complexity velocity : Q)
  : Tmpl unit :=
  let bellPositions := [0; 1.5; 2; 3.5] in
  let bellVelocity := velocity * 0.5 in
  forOf bellPositions (fun pos =>
    play <- andAlso (pos <? beatsPerBar) (chance (0.5 + complexity * 0.3)) ;;
    when play
      (push (mkHit crash (barOffset + pos) bellVelocity 0.2))).

Definition latinBar (beatsPerBar complexity dynamics baseVelocity : Q) (bar : Z)
  : Tmpl unit :=
  let barOffset := inject_Z bar * beatsPerBar in
  let claveBar := Z.rem bar 2 in
  addLatinKick barOffset beatsPerBar claveBar complexity baseVelocity ;;
  addLatinSnare barOffset beatsPerBar claveBar complexity baseVelocity ;;
  addLatinCymbal barOffset beatsPerBar complexity dynamics baseVelocity ;;
  when (complexity >? 0.4)
    (addCascaraPattern barOffset beatsPerBar claveBar complexity baseVelocity) ;;
  when (complexity >? 0.3)
    (addBellPattern barOffset beatsPerBar complexity baseVelocity).

Definition generateLatinPattern (bars : Q) (timeSignature : string)
    (complexity dynamics : Q) : Rand (list DrumHit) :=
  let beatsPerBar := getBeatsPerBar timeSignature in
  let baseVelocity := 0.55 + dynamics * 0.35 in
  runTemplate (forLt bars (latinBar beatsPerBar complexity dynamics baseVelocity)).

(** *** [templates/lofi.ts] *)

Definition addLofiRide (barOffset beatsPerBar complexity velocity : Q)
  : Tmpl unit :=
  let rideVel := velocity * 0.6 in
  forLt beatsPerBar (fun beat =>
    r <- liftRand Math_random ;;
    push (mkHit ride (barOffset + inject_Z beat) (rideVel * (0.85 + r * 0.15)) 0.3) ;;
    when ((complexity >? 0.2) || (Z.rem beat 2 =? 0)%Z) (
      play <- chance 0.85 ;;
      when play
        (push (mkHit ride (barOffset + inject_Z beat + 0.67) (rideVel * 0.65) 0.2)))).

Definition addLofiKick (barOffset beatsPerBar complexity velocity : Q)
  : Tmpl unit :=
  let kickVel := velocity * 0.7 in
  if beatsPerBar >=? 4 then
    push (mkHit kick barOffset (kickVel * 0.8) 0.25) ;;
    if complexity <? 0.4 then
      play <- chance 0.6 ;;
      when play
        (push (mkHit kick (barOffset + 2) (kickVel * 0.5) 0.2))
    else if complexity <? 0.7 then
      push (mkHit kick (barOffset + 1.67) (kickVel * 0.6) 0.2)
    else
      push (mkHit kick (barOffset + 1.67) (kickVel * 0.55) 0.2) ;;
      play <- chance 0.5 ;;
      when play
        (push (mkHit kick (barOffset + 3.33) (kickVel * 0.5) 0.2))
  else
    when (beatsPerBar =? 3)
      (push (mkHit kick barOffset (kickVel * 0.7) 0.25)).

(** The ghost-note table: position, probability, velocity factor. *)
Definition ghostPositions : list (Q * Q * Q) :=
  [ (0.67, 0.4, 0.25); (1.67, 0.5, 0.3); (2.33, 0.35, 0.22);
    (2.67, 0.45, 0.28); (3.67, 0.4, 0.25) ].

Definition addLofiSnare (barOffset beatsPerBar complexity velocity : Q)
  : Tmpl unit :=
  let snareVel := velocity * 0.75 in
  if beatsPerBar >=? 4 then
    push (mkHit snare (barOffset + 1) (snareVel * 0.7) 0.15) ;;
    push (mkHit snare (barOffset + 3) (snareVel * 0.75) 0.15) ;;
    forOf ghostPositions (fun ghost =>
      let '(gtime, gprob, gvel) := ghost in
      play <- andAlso (gtime <? beatsPerBar)
                      (chance (gprob * (0.5 + complexity * 0.8))) ;;
      when play
        (push (mkHit snare (barOffset + gtime) (snareVel * gvel) 0.08)))
  else
    when (beatsPerBar =? 3) (
      push (mkHit snare (barOffset + 1) (snareVel * 0.7) 0.15) ;;
      play <- chance 0.4 ;;
      when play
        (push (mkHit snare (barOffset + 0.67) (snareVel * 0.25) 0.08))).

Definition addLofiHihat (barOffset beatsPerBar complexity velocity : Q)
  : Tmpl unit :=
  let hihatVel := velocity * 0.5 in
  when (beatsPerBar >=? 4) (
    push (mkHit hihat_closed (barOffset + 1) (hihatVel * 0.5) 0.08) ;;
    push (mkHit hihat_closed (barOffset + 3) (hihatVel * 0.5) 0.08) ;;
    texture <- andAlso (complexity >? 0.5) (chance 0.25) ;;
    when texture (
      late <- chance 0.5 ;;
      let openPos := if late then 3.67 else 1.67 in
      push (mkHit hihat_open (barOffset + openPos) (hihatVel * 0.4) 0.12))).

Definition lofiBar (beatsPerBar complexity baseVelocity : Q) (bar : Z)
  : Tmpl unit :=
  let barOffset := inject_Z bar * beatsPerBar in
  addLofiRide barOffset beatsPerBar complexity baseVelocity ;;
  addLofiKick barOffset beatsPerBar complexity baseVelocity ;;
  addLofiSnare barOffset beatsPerBar complexity baseVelocity ;;
  addLofiHihat barOffset beatsPerBar complexity baseVelocity.

Definition generateLofiPattern (bars : Q) (timeSignature : string)
    (complexity dynamics : Q) : Rand (list DrumHit) :=
  let beatsPerBar := getBeatsPerBar timeSignature in
  let baseVelocity := 0.45 + dynamics * 0.3 in
  runTemplate (forLt bars (lofiBar beatsPerBar complexity baseVelocity)).

(** *** [humanize.ts] *)

Record HumanizeOptions : Set := mkOptions {
  timingVariation : Q;
  velocityVariation : Q;
  enabled : bool
}.

(** [Partial<HumanizeOptions>]: every field may be absent. *)
Record PartialHumanizeOptions : Set := mkPartial {
  timingVariation_opt : option Q;
  velocityVariation_opt : option Q;
  enabled_opt : option bool
}.

Definition DEFAULT_OPTIONS : HumanizeOptions := mkOptions 0.5 0.5 true.

Definition orDefault {A : Type} (o : option A) (d : A) : A :=
  match o with Some a => a | None => d end.

(** [{ ...DEFAULT_OPTIONS, ...options }]. *)
Definition mergeOptions (d : HumanizeOptions) (o : PartialHumanizeOptions)
  : HumanizeOptions :=
  mkOptions (orDefault (timingVariation_opt o) (timingVariation d))
            (orDefault (velocityVariation_opt o) (velocityVariation d))
            (orDefault (enabled_opt o) (enabled d)).

Definition humanizeHit (hit : DrumHit) (options : HumanizeOptions) : Rand DrumHit :=
  let maxTimingOffset := 0.03 * timingVariation options in
  r1 <- Math_random ;;
  let timingOffset := (r1 - 0.5) * 2 * maxTimingOffset in
  let maxVelocityOffset := 0.15 * velocityVariation options in
  r2 <- Math_random ;;
  let velocityOffset := (r2 - 0.5) * 2 * maxVelocityOffset in
  let newTime := Num.max 0 (time hit + timingOffset) in
  let newVelocity := Num.max 0.1 (Num.min 1 (velocity hit + velocityOffset)) in
  ret (withTimeVelocity hit newTime newVelocity).

(** [hits.map(f)] for a callback that draws random values. *)
Fixpoint mapRand {A B : Type} (f : A -> Rand B) (l : list A) : Rand (list B) :=
  match l with
  | [] => ret []
  | a :: r => b <- f a ;; bs <- mapRand f r ;; ret (b :: bs)
  end.

Definition humanizePattern (hits : list DrumHit) (options : PartialHumanizeOptions)
  : Rand (list DrumHit) :=
  let opts := mergeOptions DEFAULT_OPTIONS options in
  if negb (enabled opts) then ret hits
  else mapRand (fun hit => humanizeHit hit opts) hits.

Definition swingHit (swingAmount : Q) (hit : DrumHit) : DrumHit :=
  let beatPosition := time hit %% 1 in
  if Num.abs (beatPosition - 0.5) <? 0.1 then
    let swingOffset := 0.17 * swingAmount in
    withTime hit (time hit + swingOffset)
  else hit.

Definition swingPattern (hits : list DrumHit) (swingAmount : Q) : list DrumHit :=
  map (swingHit swingAmount) hits.

(** *** [PatternGenerator.ts] *)

(** [hits.sort((a, b) => a.time - b.time)].  The sort of an array is
    stable, and a stable sort has one possible result; it is computed
    here by insertion, an element going in front of the first one that
    is not earlier than it. *)
Fixpoint insertByTime (h : DrumHit) (l : list DrumHit) : list DrumHit :=
  match l with
  | [] => [h]
  | x :: r =>
      if Qle_bool (time h) (time x) then h :: x :: r
      else x :: insertByTime h r
  end.

Fixpoint sortByTime (l : list DrumHit) : list DrumHit :=
  match l with
  | [] => []
  | h :: t => insertByTime h (sortByTime t)
  end.

(** A [Map<string, DrumHit>]: the entries in insertion order.  Setting a
    key that is present replaces its value where it stands. *)
Definition JsMap : Set := list (string * DrumHit).

Fixpoint map_get (k : string) (m : JsMap) : option DrumHit :=
  match m with
  | [] => None
  | (k', v) :: r => if String.eqb k k' then Some v else map_get k r
  end.

Fixpoint map_set (k : string) (v : DrumHit) (m : JsMap) : JsMap :=
  match m with
  | [] => [(k, v)]
  | (k', v') :: r =>
      if String.eqb k k' then (k', v) :: r else (k', v') :: map_set k v r
  end.

Definition map_values (m : JsMap) : list DrumHit := List.map snd m.

Definition timeKey (hit : DrumHit) : Z := Num.round (time hit * 1000).

(** The key [`${hit.drum}-${timeKey}`]. *)
Definition hitKey (hit : DrumHit) : string :=
  (drumName (drum hit) ++ "-" ++ Num.toString (timeKey hit))%string.

Definition dedupStep (seen : JsMap) (hit : DrumHit) : JsMap :=
  let key := hitKey hit in
  match map_get key seen with
  | None => map_set key hit seen
  | Some existing =>
      if velocity hit >? velocity existing then map_set key hit seen else seen
  end.

Definition deduplicateHits (hits : list DrumHit) : list DrumHit :=
  let seen := fold_left dedupStep hits [] in
  sortByTime (map_values seen).

Definition generateBasePattern (settings : GeneratorSettings)
  : Rand (list DrumHit) :=
  let style := kitStyle settings in
  let bars := bars settings in
  let timeSignature := s_timeSignature settings in
  let complexity := complexity settings in
  let dynamics := dynamics settings in
  if String.eqb style "rock" then
    generateRockPattern bars timeSignature complexity dynamics
  else if String.eqb style "jazz" then
    generateJazzPattern bars timeSignature complexity dynamics
  else if String.eqb style "electronic" then
    generateElectronicPattern bars timeSignature complexity dynamics
  else if String.eqb style "latin" then
    generateLatinPattern bars timeSignature complexity dynamics
  else if String.eqb style "lofi" then
    generateLofiPattern bars timeSignature complexity dynamics
  else
    generateRockPattern bars timeSignature complexity dynamics.

(** The options [generatePattern] passes to [humanizePattern]. *)
Definition generatorHumanize : PartialHumanizeOptions :=
  mkPartial (Some 0.4) (Some 0.3) (Some true).

(** The swing step of [generatePattern]. *)
Definition applySwing (style : string) (hits : list DrumHit) : list DrumHit :=
  if String.eqb style "jazz" then swingPattern hits 0.6
  else if String.eqb style "lofi" then swingPattern hits 0.5
  else hits.

(** The array as it stands when [generatePattern] calls
    [deduplicateHits]: template, swing, humanization and the sort. *)
Definition sortedHits (settings : GeneratorSettings) : Rand (list DrumHit) :=
  hits <- generateBasePattern settings ;;
  let hits := applySwing (kitStyle settings) hits in
  hits <- humanizePattern hits generatorHumanize ;;
  ret (sortByTime hits).

Definition generatePattern (settings : GeneratorSettings) : Rand Pattern :=
  let beatsPerBar := getBeatsPerBar (s_timeSignature settings) in
  let lengthInBeats := bars settings * beatsPerBar in
  hits <- sortedHits settings ;;
  let hits := deduplicateHits hits in
  ret (mkPattern hits lengthInBeats (s_timeSignature settings) (s_bpm settings)).

End Generator.

(** The assembler of the specification: the sort followed by
    [deduplicateHits], the last two steps of [generatePattern]. *)
Definition assemble (hits : list DrumHit) : list DrumHit :=
  deduplicateHits (sortByTime hits).

(** ** Further functions of the generator and its consumers *)

(** *** [humanize.ts], [quantizePattern] *)

Definition quantizeHit (gridSize : Q) (hit : DrumHit) : DrumHit :=
  withTime hit (inject_Z (Num.round (time hit / gridSize)) * gridSize).

(** The grid size is optional and defaults to a sixteenth note. *)
Definition quantizePattern (hits : list DrumHit) (gridSize : option Q)
  : list DrumHit :=
  let gridSize := orDefault gridSize 0.25 in
  map (quantizeHit gridSize) hits.

(** *** [PatternGenerator.ts], [getPatternInfo] *)

(** A plain object, or a [Map], with string keys: the entries in the
    order they were created. *)
Definition Dict (V : Type) : Type := list (string * V).

Fixpoint dict_get {V : Type} (k : string) (o : Dict V) : option V :=
  match o with
  | [] => None
  | (k', v) :: r => if String.eqb k k' then Some v else dict_get k r
  end.

Fixpoint dict_set {V : Type} (k : string) (v : V) (o : Dict V) : Dict V :=
  match o with
  | [] => [(k, v)]
  | (k', v') :: r =>
      if String.eqb k k' then (k', v) :: r else (k', v') :: dict_set k v r
  end.

Definition Counters : Type := Dict nat.

(** [hitCounts[hit.drum] = (hitCounts[hit.drum] || 0) + 1]. *)
Definition countHit (hitCounts : Counters) (hit : DrumHit) : Counters :=
  let key := drumName (drum hit) in
  dict_set key (orDefault (dict_get key hitCounts) 0 + 1)%nat hitCounts.

Record PatternInfo : Type := mkInfo {
  durationSeconds : Q;
  totalHits : nat;
  hitCounts : Counters;
  info_bars : Q
}.

Definition getPatternInfo (pattern : Pattern) : PatternInfo :=
  let durationSeconds := (lengthInBeats pattern / bpm pattern) * 60 in
  let hitCounts := fold_left countHit (hits pattern) [] in
  mkInfo durationSeconds
         (List.length (hits pattern))
         hitCounts
         (lengthInBeats pattern / getBeatsPerBar (timeSignature pattern)).

(** *** The types module ([MIDI_DRUM_MAP]) and the MIDI exporter ([exportToMidi]) *)

Definition MIDI_DRUM_MAP (d : DrumType) : Z :=
  match d with
  | kick => 36
  | snare => 38
  | hihat_closed => 42
  | hihat_open => 46
  | tom_high => 50
  | tom_mid => 47
  | tom_low => 45
  | crash => 49
  | ride => 51
  end.

Definition parseTimeSignature (ts : string) : Z * Z :=
  if String.eqb ts "3/4" then (3, 4)%Z
  else if String.eqb ts "4/4" then (4, 4)%Z
  else if String.eqb ts "5/4" then (5, 4)%Z
  else if String.eqb ts "6/8" then (6, 8)%Z
  else if String.eqb ts "7/8" then (7, 8)%Z
  else (4, 4)%Z.

(** The argument of [track.addNote]. *)
Record MidiNote : Set := mkNote {
  midi : Z;
  noteTime : Q;
  noteDuration : Q;
  noteVelocity : Q
}.

(** What [exportToMidi] hands to the MIDI library before [midi.toArray()]:
    the tempo, the time signature, the channel of the track and its notes
    in the order they are added.  The byte encoding is the library's. *)
Record MidiTrack : Set := mkTrack {
  tempo : Q;
  headerTimeSignature : Z * Z;
  channel : Z;
  notes : list MidiNote
}.

Definition midiNoteOf (secondsPerBeat : Q) (hit : DrumHit) : MidiNote :=
  let midiNote := MIDI_DRUM_MAP (drum hit) in
  let timeInSeconds := time hit * secondsPerBeat in
  let durationInSeconds := duration hit * secondsPerBeat in
  let velocity := Num.round (velocity hit * 127) in
  mkNote midiNote timeInSeconds durationInSeconds (inject_Z velocity / 127).

Definition exportToMidi (pattern : Pattern) : MidiTrack :=
  let secondsPerBeat := 60 / bpm pattern in
  mkTrack (bpm pattern)
          (parseTimeSignature (timeSignature pattern))
          9
          (map (midiNoteOf secondsPerBeat) (hits pattern)).

(** *** [audio/SampleDrums.ts], class [AudioEngine]: [schedulePattern] and the
    loop end of [play] *)

(** The three numbers of a transport position [`${bars}:${beats}:${sixteenths}`]. *)
Record TransportPosition : Set := mkPosition {
  pos_bars : Q;
  pos_beats : Q;
  pos_sixteenths : Q
}.

Definition hitPosition (beatsPerBar : Q) (hit : DrumHit) : TransportPosition :=
  let bars := inject_Z (Qfloor (time hit / beatsPerBar)) in
  let beats := inject_Z (Qfloor (time hit %% beatsPerBar)) in
  let sixteenths := (time hit %% 1) * 4 in
  mkPosition bars beats sixteenths.


Definition loopEnd (pattern : Pattern) : TransportPosition :=
  let beatsPerBar := getBeatsPerBar (timeSignature pattern) in
  let bars := inject_Z (Qfloor (lengthInBeats pattern / beatsPerBar)) in
  let remainingBeats := lengthInBeats pattern %% beatsPerBar in
  mkPosition bars remainingBeats 0.

(** *** [audio/SampleDrums.ts], [SampleDrumKit.trigger] *)



(** *** The pattern display component ([PatternDisplay]), its grid *)

Definition gridResolution : Q := 0.25.


Definition gridStepOf (hit : DrumHit) : Z := Num.round (time hit / gridResolution).

(** The key [`${drum}-${step}`]. *)
Definition gridKey (d : DrumType) (step : Z) : string :=
  (drumName d ++ "-" ++ Num.toString step)%string.

(** One turn of the loop that builds the grid, a [Map] from keys to
    velocities. *)
Definition addToGrid (grid : Dict Q) (hit : DrumHit) : Dict Q :=
  let step := gridStepOf hit in
  let key := gridKey (drum hit) step in
  match dict_get key grid with
  | None => dict_set key (velocity hit) grid
  | Some existing =>
      if velocity hit >? existing then dict_set key (velocity hit) grid else grid
  end.

Definition buildGrid (pattern : Pattern) : Dict Q :=
  fold_left addToGrid (hits pattern) [].


Definition cell (pattern : Pattern) (d : DrumType) (i : Z) : option Q :=
  dict_get (gridKey d i) (buildGrid pattern).

(** *** The WAV exporter, the 16-bit samples of [audioBufferToWav] *)

(** [DataView.setInt16] stores the integer part of its argument modulo
    [2^16], read as a signed number. *)
Definition toInt16 (x : Q) : Z :=
  let int := Num.trunc x in
  let int16bit := (int mod 65536)%Z in
  if (int16bit >=? 32768)%Z then (int16bit - 65536)%Z else int16bit.

(** The number written for one sample of a channel. *)
Definition pcmSample (value : Q) : Z :=
  let sample := Num.max (-1) (Num.min 1 value) in
  let intSample := if sample <? 0 then sample * 32768 else sample * 32767 in
  toInt16 intSample.

(** ** Vocabulary of the specification *)

(** The values the counter of [for (let i = 0; i < bound; i++)] takes. *)
Definition loopIndices (bound : Q) : list Z :=
  map Z.of_nat (seq 0 (Z.to_nat (Qceiling bound))).

(** "Sorted non-decreasing by time". *)
Definition timeLe (a b : DrumHit) : Prop := time a <= time b.
Definition sortedByTime (l : list DrumHit) : Prop := StronglySorted timeLe l.

(** The pair the specification calls the duplicate key of a hit: its drum
    and [round(time * 1000)]. *)
Definition slot (h : DrumHit) : DrumType * Z := (drum h, timeKey h).

(** A map built by [deduplicateHits]: no key twice, and every value filed
    under its own key. *)
Definition wfMap (m : JsMap) : Prop :=
  NoDup (map fst m) /\ Forall (fun e => fst e = hitKey (snd e)) m.

(** The map holds, under the key of [h], a hit at least as loud as [h]. *)
Definition represents (m : JsMap) (h : DrumHit) : Prop :=
  exists v, map_get (hitKey h) m = Some v /\ velocity h <= velocity v.

(** Outcomes of [Math.random()] lie in [0, 1). *)
Definition unitDraws (rnd : nat -> Q) : Prop :=
  forall n, 0 <= rnd n /\ rnd n < 1.

(** The stages of one call of [generatePattern], started when [n] random
    values have been drawn: the array returned by the template, the array
    after the swing step, the array after humanization, and the pattern. *)
Definition templateHits (rnd : nat -> Q) (s : GeneratorSettings) (n : nat)
  : list DrumHit :=
  fst (generateBasePattern rnd s n).

Definition swungHits (rnd : nat -> Q) (s : GeneratorSettings) (n : nat)
  : list DrumHit :=
  applySwing (kitStyle s) (templateHits rnd s n).

Definition humanizedHits (rnd : nat -> Q) (s : GeneratorSettings) (n : nat)
  : list DrumHit :=
  fst (humanizePattern rnd (swungHits rnd s n) generatorHumanize
         (snd (generateBasePattern rnd s n))).

Definition patternOf (rnd : nat -> Q) (s : GeneratorSettings) (n : nat) : Pattern :=
  fst (generatePattern rnd s n).

(** [clamp x lo hi] and the fractional part [t mod 1] of a non-negative
    time, as the specification uses them. *)
Definition clamp (x lo hi : Q) : Q := Qmax lo (Qmin hi x).
Definition mod1 (t : Q) : Q := t - inject_Z (Qfloor t).

(** "Within 0.1 of the straight-eighth offbeat". *)
Definition nearOffbeat (t : Q) : Prop := Qabs (mod1 t - 0.5) < 0.1.

(** The offsets [humanizeHit] computes from its two draws [r1], [r2]. *)
Definition timingOffsetOf (tv r1 : Q) : Q := (r1 - 0.5) * 2 * (0.03 * tv).
Definition velocityOffsetOf (vv r2 : Q) : Q := (r2 - 0.5) * 2 * (0.15 * vv).

(** [h'] is [h] humanized with timing offset [delta] and velocity offset
    [eps]: the drum and the duration are kept. *)
Definition humanizedBy (delta eps : Q) (h h' : DrumHit) : Prop :=
  drum h' = drum h /\ duration h' = duration h /\
  time h' == Qmax 0 (time h + delta) /\
  velocity h' == clamp (velocity h + eps) 0.1 1.

(** The bounds of the specification on every hit of a pattern. *)
Definition inBounds (h : DrumHit) : Prop :=
  0 <= time h /\ 0.1 <= velocity h /\ velocity h <= 1 /\ 0 < duration h.

(** A template computation only appends to the array, and every hit it
    appends satisfies [P]. *)
Definition emits {A : Type} (P : DrumHit -> Prop) (m : Tmpl A) : Prop :=
  forall s, exists new, buf (snd (m s)) = buf s ++ new /\ Forall P new.

Definition positiveDuration (h : DrumHit) : Prop := 0 < duration h.

(** The declared values of [KitStyle] and [TimeSignature]. *)
Definition knownStyle (k : string) : Prop :=
  k = "rock" \/ k = "jazz" \/ k = "electronic" \/ k = "latin" \/ k = "lofi".

Definition knownTimeSignature (ts : string) : Prop :=
  ts = "3/4" \/ ts = "4/4" \/ ts = "5/4" \/ ts = "6/8" \/ ts = "7/8".

(** The settings with another style, or another time signature. *)
Definition withStyle (s : GeneratorSettings) (k : string) : GeneratorSettings :=
  mkSettings k (s_timeSignature s) (s_bpm s) (bars s) (complexity s) (dynamics s).

Definition withTimeSignature (s : GeneratorSettings) (ts : string)
  : GeneratorSettings :=
  mkSettings (kitStyle s) ts (s_bpm s) (bars s) (complexity s) (dynamics s).

(** The invariants the data model asks of the hits of a pattern. *)
Definition validHits (l : list DrumHit) : Prop :=
  sortedByTime l /\ NoDup (map slot l) /\ Forall inBounds l.

(** The hits of one drum. *)
Definition isDrum (d : DrumType) (h : DrumHit) : bool := drum_eqb (drum h) d.

(** A test on hits that depends on the duplicate key only. *)
Definition respectsSlot (p : DrumHit -> bool) : Prop :=
  forall a b, slot a = slot b -> p a = p b.

(** The entries of a map whose value passes a test. *)
Definition filterEntries (p : DrumHit -> bool) (m : JsMap) : JsMap :=
  filter (fun e => p (snd e)) m.

(** Two hits with the same drum and numerically equal fields. *)
Definition hitEq (a b : DrumHit) : Prop :=
  drum a = drum b /\ time a == time b /\ velocity a == velocity b /\
  duration a == duration b.

(** The largest offsets humanization applies inside [generatePattern],
    where [timingVariation = 0.4] and [velocityVariation = 0.3]: 0.012
    beats and 0.045 of velocity. *)
Definition timeJitter : Q := 0.03 * 0.4.
Definition velocityJitter : Q := 0.15 * 0.3.

(** [b] is [a] after the humanization of [generatePattern]. *)
Definition jittered (a b : DrumHit) : Prop :=
  drum b = drum a /\ duration b == duration a /\
  exists delta eps,
    Qabs delta <= timeJitter /\ Qabs eps <= velocityJitter /\
    time b == Qmax 0 (time a + delta) /\
    velocity b == clamp (velocity a + eps) 0.1 1.

(** [b] comes at least a thousandth of a beat after [a]. *)
Definition gapBefore (a b : DrumHit) : Prop := time a + 0.001 <= time b.

(** A hit of drum [d] within [dt] of time [t] and [dv] of velocity [v]. *)
Definition hitNear (dt dv : Q) (d : DrumType) (t v : Q) (h : DrumHit) : Prop :=
  drum h = d /\ Qabs (time h - t) <= dt /\ Qabs (velocity h - v) <= dv.

(** Settings with a style and a time signature outside the declared
    unions. *)
Definition unknownSettings : GeneratorSettings :=
  mkSettings "metal" "9/8" 120 2 0.5 0.5.

(** Nominal times far enough apart for the jitter on both sides. *)
Definition wideGap (a b : DrumHit) : Prop := time a + 0.025 <= time b.

(** The settings of the rock example of the specification. *)
Definition rockExample (bpm : Q) : GeneratorSettings :=
  mkSettings "rock" "4/4" bpm 1 0 0.

(** The reading of the example under which the result has one snare
    only, the one near time 1. *)
Definition singleSnareNearOne (l : list DrumHit) : Prop :=
  exists s1, filter (isDrum snare) l = [s1] /\ Qabs (time s1 - 1) <= 0.03.

(** A template computation only appends to the array, and the hits it
    appends that pass the test [p] are, in order and up to numeric
    equality, those of [E]. *)
Definition appendsUpTo {A : Type} (p : DrumHit -> bool) (m : Tmpl A)
    (E : list DrumHit) : Prop :=
  forall s, exists new,
    filter p (buf (snd (m s))) = filter p (buf s) ++ new /\ Forall2 hitEq new E.

(** The settings of the electronic example of the specification, with
    its nominal hits: per regular bar the kicks and the two backbeats, in
    the last bar the sixteen hits of the roll, and the crash that ends it. *)
Definition electronicExample (bpm dyn : Q) : GeneratorSettings :=
  mkSettings "electronic" "4/4" bpm 8 0.7 dyn.

Definition rollTime (i : Z) : Q := 30 + inject_Z i * 0.125.
Definition rollVelocity (v : Q) (i : Z) : Q := v * (0.3 + inject_Z i / 16 * 0.7).
Definition rollNominal (v : Q) (i : Z) : DrumHit :=
  mkHit snare (rollTime i) (rollVelocity v i) 0.1.
Definition rollSteps : list Z := [0; 1; 2; 3; 4; 5; 6; 7; 8; 9; 10; 11; 12; 13; 14; 15]%Z.
Definition backbeatsOfBar (v : Q) (bar : Z) : list DrumHit :=
  [ mkHit snare (inject_Z bar * 4 + 1) v 0.2; mkHit snare (inject_Z bar * 4 + 3) v 0.2 ].
Definition kicksOfBar (v : Q) (bar : Z) : list DrumHit :=
  [ mkHit kick (inject_Z bar * 4 + 0) v 0.2; mkHit kick (inject_Z bar * 4 + 1) v 0.2;
    mkHit kick (inject_Z bar * 4 + 2) v 0.2; mkHit kick (inject_Z bar * 4 + 3) v 0.2;
    mkHit kick (inject_Z bar * 4 + 0.75) (v * 0.85) 0.15 ].
Definition regularBars : list Z := [0; 1; 2; 3; 4; 5; 6]%Z.
Definition electronicBackbeats (v : Q) := flat_map (backbeatsOfBar v) regularBars.
Definition electronicRoll (v : Q) := map (rollNominal v) rollSteps.
Definition electronicKicks (v : Q) := flat_map (kicksOfBar v) regularBars.
Definition electronicCrash (v : Q) := [mkHit crash 32 v 0.5].

(** A random source that alternates high and low values on its odd
    draws, and "the hits of drum [d] from time [t0] on never get
    quieter", with its boolean test. *)
Definition zigzag : nat -> Q :=
  fun k => if Nat.even k then 0.5 else if Nat.even (Nat.div2 k) then 0.9 else 0.1.

Definition ascendingFrom (t0 : Q) (d : DrumType) (l : list DrumHit) : Prop :=
  forall a b, In a l -> In b l -> drum a = d -> drum b = d ->
    t0 <= time a -> time a < time b -> velocity a <= velocity b.

Definition ascendingFromb (t0 : Q) (d : DrumType) (l : list DrumHit) : bool :=
  forallb (fun a => forallb (fun b =>
    implb (isDrum d a && isDrum d b && Qle_bool t0 (time a) && (time a <? time b))
          (Qle_bool (velocity a) (velocity b))) l) l.

(** Whatever the state it starts from, the computation leaves [h] in the
    array. *)
Definition pushes {A : Type} (h : DrumHit) (m : Tmpl A) : Prop :=
  forall s, In h (buf (snd (m s))).

(** A random source that always yields three quarters: humanization then
    moves every hit 0.006 beats later. *)
Definition alwaysThreeQuarters : nat -> Q := fun _ => 0.75.

(** Sample inputs: two hits, a random source that always yields one
    half (under which humanization moves nothing) and one that always
    yields a quarter. *)
Definition offbeatRide : DrumHit := mkHit ride 2.5 0.5 0.3.
Definition downbeatKick : DrumHit := mkHit kick 1 0.6 0.25.
Definition alwaysHalf : nat -> Q := fun _ => 0.5.
Definition alwaysQuarter : nat -> Q := fun _ => 0.25.

(** A sample pattern, and its hits at positions 0 and 1. *)
Definition samplePattern : Pattern := patternOf alwaysQuarter (rockExample 120) 0.
Definition sampleFirst : DrumHit := nth 0 (hits samplePattern) downbeatKick.
Definition sampleSecond : DrumHit := nth 1 (hits samplePattern) downbeatKick.

(** [generatePattern] as it would read with [swing] in the place of its
    swing step: the template, [swing], humanization with the options of
    the generator, the sort, the deduplication and the record. *)
Definition generateWith (swing : list DrumHit -> list DrumHit)
    (rnd : nat -> Q) (s : GeneratorSettings) : Rand Pattern :=
  fun n =>
    let (template, n1) := generateBasePattern rnd s n in
    let (humanized, n2) :=
      humanizePattern rnd (swing template) generatorHumanize n1 in
    (mkPattern (deduplicateHits (sortByTime humanized))
               (bars s * getBeatsPerBar (s_timeSignature s))
               (s_timeSignature s) (s_bpm s),
     n2).

(** Every hit of the returned pattern is, up to the jitter of
    humanization, the image under [f] of a hit of the template. *)
Definition tracesBack (f : DrumHit -> DrumHit)
    (rnd : nat -> Q) (s : GeneratorSettings) (n : nat) : Prop :=
  forall h, In h (hits (patternOf rnd s n)) ->
    exists h0, In h0 (fst (generateBasePattern rnd s n)) /\ jittered (f h0) h.

(** Settings under which the template puts a hit on an offbeat: the
    single snare that closes a jazz fill at complexity 0.6, at time 15.5,
    and the ride that opens the second bar of a lofi pattern in 7/8, at
    time 3.5. *)
Definition jazzFillExample : GeneratorSettings :=
  mkSettings "jazz" "4/4" 120 4 0.6 0.5.
Definition lofiOddBarExample : GeneratorSettings :=
  mkSettings "lofi" "7/8" 80 2 0.5 0.5.

(** The hits at exactly the time [t]. *)
Definition atTime (t : Q) (h : DrumHit) : bool := Qeq_bool (time h) t.

(** A time on the grid of step [g]: a whole, non-negative number of steps. *)
Definition onGrid (g : Q) (h : DrumHit) : Prop :=
  exists k : Z, (0 <= k)%Z /\ time h == inject_Z k * g.

(** Same drum, velocity and duration. *)
Definition sameButTime (a b : DrumHit) : Prop :=
  drum b = drum a /\ velocity b = velocity a /\ duration b = duration a.

(** How many hits of the array are struck on drum [d]. *)
Definition countDrum (d : DrumType) (l : list DrumHit) : nat :=
  List.length (filter (isDrum d) l).

(** The value of a counter, an absent one counting as zero, and the sum
    of all counters. *)
Definition counterOr0 (k : string) (o : Counters) : nat :=
  orDefault (dict_get k o) 0%nat.
Definition counterSum (o : Counters) : nat := fold_right Nat.add 0%nat (map snd o).

(** The beats, counted with [beatsPerBar] beats to the bar, that a
    transport position stands for. *)
Definition positionBeats (beatsPerBar : Q) (p : TransportPosition) : Q :=
  pos_bars p * beatsPerBar + pos_beats p + pos_sixteenths p / 4.

(** The velocity byte of a MIDI note. *)
Definition velocityByte (m : MidiNote) (k : Z) : Prop :=
  noteVelocity m = inject_Z k / 127.

Definition noteTimeLe (a b : MidiNote) : Prop := noteTime a <= noteTime b.

(** The drums a style can be heard to play. *)
Definition palette (style : string) : list DrumType :=
  if String.eqb style "jazz" then
    [ride; hihat_closed; kick; snare; crash]
  else if String.eqb style "electronic" then
    [kick; snare; hihat_closed; hihat_open; ride; crash]
  else if String.eqb style "latin" then
    [kick; snare; ride; hihat_closed; tom_high; tom_mid; crash]
  else if String.eqb style "lofi" then
    [ride; kick; snare; hihat_closed; hihat_open]
  else
    [kick; snare; hihat_closed; hihat_open; tom_high; tom_mid; tom_low; crash; ride].

Definition playsOnly (drums : list DrumType) (h : DrumHit) : Prop :=
  In (drum h) drums.

(** Two template computations, each with its own random source, that
    draw nothing and do the same to the array. *)
Definition drawFree {A : Type} (m m' : Tmpl A) : Prop :=
  forall b n n', exists a b',
    m (mkTS b n) = (a, mkTS b' n) /\ m' (mkTS b n') = (a, mkTS b' n').

(** Further sample inputs: a hit in the second bar of a 7/8 pattern,
    humanizer options with both variations at zero, and settings without
    bars and for a latin pattern in 7/8. *)
Definition oddBarRide : DrumHit := mkHit ride 4.5 0.333 0.3.
Definition noVariation : PartialHumanizeOptions :=
  mkPartial (Some 0) (Some 0) None.
Definition noBarsExample : GeneratorSettings :=
  mkSettings "jazz" "4/4" 120 0 0.5 0.5.
Definition latinOddMeterExample : GeneratorSettings :=
  mkSettings "latin" "7/8" 100 2 0.5 0.5.

(** ** Numbers: the boolean tests decide the order *)

Lemma ltb_true (a b : Q) : (a <? b) = true <-> a < b.
Proof.
  unfold Num.ltb. rewrite negb_true_iff.
  split; intros H.
  - apply Qnot_le_lt. intro L. apply Qle_bool_iff in L. congruence.
  - destruct (Qle_bool b a) eqn:E; [|reflexivity].
    apply Qle_bool_iff in E. lra.
Qed.

Lemma ltb_false (a b : Q) : (a <? b) = false <-> b <= a.
Proof.
  unfold Num.ltb. rewrite negb_false_iff. apply Qle_bool_iff.
Qed.

Lemma gtb_true (a b : Q) : (a >? b) = true <-> b < a.
Proof. apply ltb_true. Qed.

Lemma gtb_false (a b : Q) : (a >? b) = false <-> a <= b.
Proof. apply ltb_false. Qed.

Lemma Qle_bool_false (a b : Q) : Qle_bool a b = false <-> b < a.
Proof.
  split; intros H.
  - apply Qnot_le_lt. intro L. apply Qle_bool_iff in L. congruence.
  - destruct (Qle_bool a b) eqn:E; [|reflexivity].
    apply Qle_bool_iff in E. lra.
Qed.

Lemma max_spec (a b : Q) : a <= Num.max a b /\ b <= Num.max a b /\
  (Num.max a b = a \/ Num.max a b = b).
Proof.
  unfold Num.max. destruct (a <? b) eqn:E.
  - apply ltb_true in E. repeat split; auto; lra.
  - apply ltb_false in E. repeat split; auto; lra.
Qed.

Lemma min_spec (a b : Q) : Num.min a b <= a /\ Num.min a b <= b /\
  (Num.min a b = a \/ Num.min a b = b).
Proof.
  unfold Num.min. destruct (b <? a) eqn:E.
  - apply ltb_true in E. repeat split; auto; lra.
  - apply ltb_false in E. repeat split; auto; lra.
Qed.

(** ** The model on small inputs *)

Example round_samples :
  Num.round 2.5 = 3%Z /\ Num.round (-2.5) = (-2)%Z /\
  Num.round 0.4995 = 0%Z /\ Num.round (1.5 * 1000) = 1500%Z.
Proof. repeat split; reflexivity. Qed.

Example rem_samples :
  2.75 %% 1 == 0.75 /\ (-0.5) %% 1 == -0.5 /\ 7 %% 1 == 0 /\ 3.5 %% 1 == 0.5.
Proof. repeat split; reflexivity. Qed.

Example hitKey_samples :
  hitKey (mkHit hihat_closed 1.5 0.5 0.1) = "hihat-closed-1500" /\
  hitKey (mkHit kick 0 0.5 0.25) = "kick-0" /\
  hitKey (mkHit tom_low 3.75 0.5 0.25) = "tom-low-3750".
Proof. repeat split; reflexivity. Qed.

(** Two rides of one key and a kick: the louder ride is kept, at the place
    the key was first seen, and the final sort puts the kick first. *)
Example deduplicateHits_sample :
  deduplicateHits [ mkHit ride 1 0.4 0.3; mkHit kick 0.5 0.5 0.25;
                    mkHit ride 1.0004 0.44 0.3 ]
  = [ mkHit kick 0.5 0.5 0.25; mkHit ride 1.0004 0.44 0.3 ].
Proof. reflexivity. Qed.

(** The sort is stable: hits of equal time keep their order. *)
Example sortByTime_sample :
  sortByTime [ mkHit snare 1 0.5 0.25; mkHit kick 0 0.5 0.25;
               mkHit hihat_closed 1 0.5 0.125; mkHit crash 0 0.45 0.5 ]
  = [ mkHit kick 0 0.5 0.25; mkHit crash 0 0.45 0.5;
      mkHit snare 1 0.5 0.25; mkHit hihat_closed 1 0.5 0.125 ].
Proof. reflexivity. Qed.

(** The rock template for one 4/4 bar at complexity 0 and dynamics 0, in
    the order of its pushes: kicks, snares, quarter-note hi-hats, crash. *)
Example rock_template_sample :
  map (fun h => (drum h, Qred (time h), Qred (velocity h)))
      (templateHits alwaysHalf (rockExample 120) 0)
  = [ (kick, 0, 1 # 2); (kick, 2, 19 # 40); (snare, 1, 1 # 2);
      (snare, 3, 1 # 2); (hihat_closed, 0, 1 # 2); (hihat_closed, 1, 1 # 2);
      (hihat_closed, 2, 1 # 2); (hihat_closed, 3, 1 # 2); (crash, 0, 9 # 20) ].
Proof. vm_compute. reflexivity. Qed.

(** In 7/8 a bar has 3.5 beats and the beat loops run four times. *)
Example loopIndices_sample :
  loopIndices (getBeatsPerBar "7/8") = [0; 1; 2; 3]%Z /\
  loopIndices (getBeatsPerBar "4/4" / 0.25) = map Z.of_nat (seq 0 16) /\
  loopIndices (-2) = [].
Proof. repeat split; reflexivity. Qed.

(** ** The counting loop *)

Lemma forRange_forOf {St : Type} (body : Z -> State St unit) (n : nat) (start : nat) :
  forRange (Z.of_nat start) n body = forOf (map Z.of_nat (seq start n)) body.
Proof.
  revert start. induction n as [|n IH]; intros start; [reflexivity|].
  cbn [forRange seq map forOf]. f_equal.
  replace (Z.of_nat start + 1)%Z with (Z.of_nat (S start)) by lia.
  now rewrite IH.
Qed.

(** [forLt bound] runs its body on the integers [i] with [0 <= i < bound],
    in increasing order, and on nothing else. *)
Lemma forLt_indices {S : Type} (bound : Q) (body : Z -> State S unit) :
  forLt bound body = forOf (loopIndices bound) body /\
  forall i, In i (loopIndices bound) <-> (0 <= i)%Z /\ inject_Z i < bound.
Proof.
  split; [apply (forRange_forOf body _ 0)|].
  intros i. unfold loopIndices. rewrite in_map_iff. split.
  - intros (k & <- & I). apply in_seq in I. split; [lia|].
    assert (L : (Z.of_nat k < Qceiling bound)%Z) by lia.
    unfold Qceiling in L.
    assert (L' : (Qfloor (- bound) < - Z.of_nat k)%Z) by lia.
    apply Z.lt_le_pred in L'.
    pose proof (Qlt_floor (- bound)) as F.
    rewrite Zle_Qle in L'. rewrite inject_Z_plus in F.
    unfold Z.pred in L'. rewrite inject_Z_plus, inject_Z_opp in L'.
    change (inject_Z 1) with 1 in F. change (inject_Z (-1)) with (-1) in L'.
    lra.
  - intros (N & B). exists (Z.to_nat i). split; [lia|].
    apply in_seq. split; [lia|]. simpl.
    assert (L : (i < Qceiling bound)%Z).
    { rewrite Zlt_Qlt. pose proof (Qle_ceiling bound). lra. }
    lia.
Qed.

(** ** The keys of [deduplicateHits] *)

Lemma toString_inj (z1 z2 : Z) : Num.toString z1 = Num.toString z2 -> z1 = z2.
Proof.
  unfold Num.toString. intros H. apply to_int_inj.
  assert (back : forall z,
    NilZero.int_of_string (NilZero.string_of_int (Z.to_int z)) = Some (Z.to_int z)).
  { intros z. apply NilZero.isi; destruct z; simpl; try discriminate;
      intro E; injection E; apply DecimalPos.Unsigned.to_uint_nonnil. }
  pose proof (back z1) as B1. rewrite H, back in B1. congruence.
Qed.

(** Two hits have the same key string exactly when they have the same
    drum and the same rounded time. *)
Lemma hitKey_slot (a b : DrumHit) : hitKey a = hitKey b <-> slot a = slot b.
Proof.
  unfold slot. split.
  - unfold hitKey. destruct (drum a), (drum b); simpl; intros H;
      try discriminate H; injection H as H; apply toString_inj in H;
      now rewrite H.
  - intros H. injection H as Hd Ht. unfold hitKey. now rewrite Hd, Ht.
Qed.

(** ** The sort *)

Lemma insertByTime_perm (h : DrumHit) (l : list DrumHit) :
  Permutation (insertByTime h l) (h :: l).
Proof.
  induction l as [|x r IH]; simpl; [reflexivity|].
  destruct (Qle_bool (time h) (time x)); [reflexivity|].
  rewrite IH. apply perm_swap.
Qed.

Lemma sortByTime_perm (l : list DrumHit) : Permutation (sortByTime l) l.
Proof.
  induction l as [|h t IH]; simpl; [reflexivity|].
  rewrite insertByTime_perm. now constructor.
Qed.

Lemma insertByTime_sorted (h : DrumHit) (l : list DrumHit) :
  sortedByTime l -> sortedByTime (insertByTime h l).
Proof.
  unfold sortedByTime. induction 1 as [|x r Hr IH Hx]; simpl.
  - repeat constructor.
  - destruct (Qle_bool (time h) (time x)) eqn:E.
    + apply Qle_bool_iff in E. constructor; [now constructor|].
      constructor; [exact E|].
      eapply Forall_impl; [|exact Hx]. unfold timeLe. intros; lra.
    + apply Qle_bool_false in E. constructor; [exact IH|].
      eapply Permutation_Forall; [symmetry; apply insertByTime_perm|].
      constructor; [unfold timeLe; lra | exact Hx].
Qed.

Lemma sortByTime_sorted (l : list DrumHit) : sortedByTime (sortByTime l).
Proof.
  induction l as [|h t IH]; simpl; [constructor|].
  now apply insertByTime_sorted.
Qed.

(** Sorting a sorted array leaves it as it is. *)
Lemma sortByTime_fixed (l : list DrumHit) : sortedByTime l -> sortByTime l = l.
Proof.
  unfold sortedByTime. induction 1 as [|x r Hr IH Hx]; simpl; [reflexivity|].
  rewrite IH. destruct r as [|y r']; simpl; [reflexivity|].
  inversion Hx as [|? ? Hxy _]; subst.
  unfold timeLe in Hxy. apply Qle_bool_iff in Hxy. now rewrite Hxy.
Qed.

(** ** The map of [deduplicateHits] *)

Lemma map_get_none (k : string) (m : JsMap) :
  map_get k m = None <-> ~ In k (map fst m).
Proof.
  induction m as [|[k' v] r IH]; simpl; [tauto|].
  destruct (String.eqb_spec k k') as [->|N].
  - split; [discriminate | intros H; exfalso; apply H; now left].
  - rewrite IH. split; intros H; [intros [E|I]; [congruence|tauto] | tauto].
Qed.

Lemma map_get_In (k : string) (v : DrumHit) (m : JsMap) :
  map_get k m = Some v -> In (k, v) m.
Proof.
  induction m as [|[k' v'] r IH]; simpl; [discriminate|].
  destruct (String.eqb_spec k k') as [->|N].
  - intros [= ->]. now left.
  - intros H. right. now apply IH.
Qed.

Lemma In_map_get (k : string) (v : DrumHit) (m : JsMap) :
  NoDup (map fst m) -> In (k, v) m -> map_get k m = Some v.
Proof.
  induction m as [|[k' v'] r IH]; simpl; [tauto|].
  intros ND [E|I].
  - injection E as -> ->. now rewrite String.eqb_refl.
  - inversion ND as [|? ? Hk Hr]; subst.
    destruct (String.eqb_spec k k') as [->|N].
    + exfalso. apply Hk. now apply (in_map fst) in I.
    + now apply IH.
Qed.

Lemma map_set_fresh (k : string) (v : DrumHit) (m : JsMap) :
  ~ In k (map fst m) -> map_set k v m = m ++ [(k, v)].
Proof.
  induction m as [|[k' v'] r IH]; simpl; [reflexivity|].
  intros H. destruct (String.eqb_spec k k') as [->|N]; [tauto|].
  rewrite IH; tauto.
Qed.

Lemma map_set_keys (k : string) (v : DrumHit) (m : JsMap) :
  In k (map fst m) -> map fst (map_set k v m) = map fst m.
Proof.
  induction m as [|[k' v'] r IH]; simpl; [tauto|].
  intros H. destruct (String.eqb_spec k k') as [->|N]; simpl; [reflexivity|].
  rewrite IH; [reflexivity|]. destruct H; congruence.
Qed.

Lemma map_get_set (k k' : string) (v : DrumHit) (m : JsMap) :
  map_get k' (map_set k v m) = if String.eqb k' k then Some v else map_get k' m.
Proof.
  induction m as [|[k0 v0] r IH]; simpl.
  - reflexivity.
  - destruct (String.eqb_spec k k0) as [->|N]; simpl.
    + destruct (String.eqb_spec k' k0); reflexivity.
    + rewrite IH. destruct (String.eqb_spec k' k0) as [->|N'];
        [|reflexivity].
      destruct (String.eqb_spec k0 k); [congruence|reflexivity].
Qed.

Lemma map_set_In (k : string) (v : DrumHit) (m : JsMap) (e : string * DrumHit) :
  In e (map_set k v m) -> In e m \/ snd e = v /\ fst e = k.
Proof.
  induction m as [|[k0 v0] r IH]; simpl.
  - intros [<-|[]]. now right.
  - destruct (String.eqb_spec k k0) as [->|N]; simpl.
    + intros [<-|I]; [now right | now left; right].
    + intros [<-|I]; [now left; left|].
      destruct (IH I); [left; now right | now right].
Qed.

Lemma dedupStep_wf (m : JsMap) (h : DrumHit) : wfMap m -> wfMap (dedupStep m h).
Proof.
  intros [ND KV]. unfold dedupStep.
  destruct (map_get (hitKey h) m) as [existing|] eqn:G.
  - destruct (velocity h >? velocity existing); [|now split].
    split.
    + rewrite map_set_keys; [exact ND|].
      apply map_get_In in G. now apply (in_map fst) in G.
    + apply Forall_forall. intros e I. apply map_set_In in I.
      destruct I as [I|[-> ->]]; [|reflexivity].
      now apply (proj1 (Forall_forall _ _) KV).
  - apply map_get_none in G. rewrite (map_set_fresh _ _ _ G). split.
    + rewrite map_app. simpl. apply NoDup_app; [exact ND | repeat constructor; simpl; tauto |].
      intros k Ik [<-|[]]. tauto.
    + apply Forall_app. split; [exact KV | now repeat constructor].
Qed.

Lemma fold_dedup_wf (l : list DrumHit) (m : JsMap) :
  wfMap m -> wfMap (fold_left dedupStep l m).
Proof.
  revert m. induction l as [|h t IH]; simpl; intros m W; [exact W|].
  apply IH. now apply dedupStep_wf.
Qed.

Lemma wfMap_nil : wfMap [].
Proof. split; constructor. Qed.

(** The keys of the values of a well-formed map are its keys. *)
Lemma wfMap_keys (m : JsMap) : wfMap m -> map hitKey (map_values m) = map fst m.
Proof.
  intros [_ KV]. unfold map_values. rewrite map_map.
  apply map_ext_in. intros e I. symmetry.
  now apply (proj1 (Forall_forall _ _) KV).
Qed.

(** A step never lowers the velocity held under a key. *)
Lemma dedupStep_keeps (m : JsMap) (h : DrumHit) (k : string) (v : DrumHit) :
  map_get k m = Some v ->
  exists v', map_get k (dedupStep m h) = Some v' /\ velocity v <= velocity v'.
Proof.
  intros G. unfold dedupStep.
  destruct (map_get (hitKey h) m) as [existing|] eqn:G'.
  - destruct (velocity h >? velocity existing) eqn:C.
    + rewrite map_get_set. destruct (String.eqb_spec k (hitKey h)) as [->|N].
      * exists h. split; [reflexivity|].
        apply gtb_true in C. rewrite G in G'. injection G' as ->. lra.
      * exists v. split; [exact G | lra].
    + exists v. split; [exact G | lra].
  - rewrite map_get_set. destruct (String.eqb_spec k (hitKey h)) as [->|N].
    + congruence.
    + exists v. split; [exact G | lra].
Qed.

Lemma dedupStep_self (m : JsMap) (h : DrumHit) : represents (dedupStep m h) h.
Proof.
  unfold represents, dedupStep.
  destruct (map_get (hitKey h) m) as [existing|] eqn:G.
  - destruct (velocity h >? velocity existing) eqn:C.
    + exists h. rewrite map_get_set, String.eqb_refl. split; [reflexivity | lra].
    + exists existing. split; [exact G | now apply gtb_false in C].
  - exists h. rewrite map_get_set, String.eqb_refl. split; [reflexivity | lra].
Qed.

Lemma fold_dedup_keeps (l : list DrumHit) (m : JsMap) (k : string) (v : DrumHit) :
  map_get k m = Some v ->
  exists v', map_get k (fold_left dedupStep l m) = Some v' /\ velocity v <= velocity v'.
Proof.
  revert m v. induction l as [|h t IH]; simpl; intros m v G.
  - exists v. split; [exact G | lra].
  - destruct (dedupStep_keeps m h k v G) as (v1 & G1 & L1).
    destruct (IH _ _ G1) as (v2 & G2 & L2).
    exists v2. split; [exact G2 | lra].
Qed.

Lemma fold_dedup_represents (l : list DrumHit) (m : JsMap) (h : DrumHit) :
  In h l -> represents (fold_left dedupStep l m) h.
Proof.
  revert m. induction l as [|x t IH]; simpl; intros m I; [contradiction|].
  destruct I as [E|I].
  - subst x. destruct (dedupStep_self m h) as (v & G & L).
    destruct (fold_dedup_keeps t _ _ _ G) as (v' & G' & L').
    exists v'. split; [exact G' | lra].
  - now apply IH.
Qed.

Lemma fold_dedup_In (l : list DrumHit) (m : JsMap) (e : string * DrumHit) :
  In e (fold_left dedupStep l m) -> In e m \/ In (snd e) l.
Proof.
  revert m. induction l as [|h t IH]; simpl; intros m I; [now left|].
  destruct (IH _ I) as [I'|I']; [|now right; right].
  unfold dedupStep in I'.
  destruct (map_get (hitKey h) m) as [existing|].
  - destruct (velocity h >? velocity existing); [|now left].
    apply map_set_In in I'. destruct I' as [I'|[E _]]; [now left | right; now left].
  - apply map_set_In in I'. destruct I' as [I'|[E _]]; [now left | right; now left].
Qed.

(** When no two hits of the array share a key, every hit opens an entry of
    its own. *)
Lemma fold_dedup_fresh (l : list DrumHit) (m : JsMap) :
  NoDup (map fst m ++ map hitKey l) ->
  fold_left dedupStep l m = m ++ map (fun h => (hitKey h, h)) l.
Proof.
  revert m. induction l as [|h t IH]; simpl; intros m ND.
  - now rewrite app_nil_r.
  - assert (F : ~ In (hitKey h) (map fst m)).
    { intros I. apply NoDup_remove_2 in ND. apply ND. apply in_or_app. now left. }
    unfold dedupStep at 2. rewrite (proj2 (map_get_none _ _) F).
    rewrite (map_set_fresh _ _ _ F), IH.
    + now rewrite <- app_assoc.
    + rewrite map_app. simpl. now rewrite <- app_assoc.
Qed.

(** ** [deduplicateHits] *)

Lemma deduplicateHits_sorted (l : list DrumHit) : sortedByTime (deduplicateHits l).
Proof. apply sortByTime_sorted. Qed.

Lemma deduplicateHits_keys (l : list DrumHit) :
  NoDup (map hitKey (deduplicateHits l)).
Proof.
  unfold deduplicateHits.
  pose proof (fold_dedup_wf l [] wfMap_nil) as W.
  eapply Permutation_NoDup.
  - symmetry. apply Permutation_map. apply sortByTime_perm.
  - rewrite (wfMap_keys _ W). apply W.
Qed.

Lemma NoDup_keys_slots (l : list DrumHit) :
  NoDup (map hitKey l) <-> NoDup (map slot l).
Proof.
  induction l as [|h t IH]; simpl; [split; constructor|].
  split; intros ND; inversion ND as [|? ? Hn Ht]; subst;
    (constructor; [|now apply IH]);
    intros I; apply Hn; apply in_map_iff in I; destruct I as (x & E & I);
    apply in_map_iff; exists x; (split; [|exact I]).
  - now apply hitKey_slot.
  - now apply hitKey_slot.
Qed.

Lemma deduplicateHits_slots (l : list DrumHit) :
  NoDup (map slot (deduplicateHits l)).
Proof. apply NoDup_keys_slots, deduplicateHits_keys. Qed.

Lemma deduplicateHits_entry (l : list DrumHit) (h : DrumHit) :
  In h (deduplicateHits l) -> In (hitKey h, h) (fold_left dedupStep l []).
Proof.
  unfold deduplicateHits. intros I.
  apply (Permutation_in _ (sortByTime_perm _)) in I.
  unfold map_values in I. apply in_map_iff in I. destruct I as ([k v] & E & I).
  simpl in E. subst v.
  pose proof (fold_dedup_wf l [] wfMap_nil) as [_ KV].
  rewrite Forall_forall in KV. specialize (KV _ I). simpl in KV. now subst k.
Qed.

Lemma deduplicateHits_In (l : list DrumHit) (h : DrumHit) :
  In h (deduplicateHits l) -> In h l.
Proof.
  intros I. apply deduplicateHits_entry in I.
  apply fold_dedup_In in I. destruct I as [[]|I]. exact I.
Qed.

Lemma deduplicateHits_loudest (l : list DrumHit) (h h' : DrumHit) :
  In h (deduplicateHits l) -> In h' l -> slot h' = slot h ->
  velocity h' <= velocity h.
Proof.
  intros I I' E. apply deduplicateHits_entry in I.
  pose proof (fold_dedup_wf l [] wfMap_nil) as [ND _].
  apply (In_map_get _ _ _ ND) in I.
  destruct (fold_dedup_represents l [] h' I') as (v & G & L).
  apply hitKey_slot in E. rewrite E, I in G. injection G as ->. exact L.
Qed.

Lemma deduplicateHits_covers (l : list DrumHit) (h' : DrumHit) :
  In h' l ->
  exists h, In h (deduplicateHits l) /\ slot h = slot h' /\
            velocity h' <= velocity h.
Proof.
  intros I'. destruct (fold_dedup_represents l [] h' I') as (v & G & L).
  apply map_get_In in G.
  pose proof (fold_dedup_wf l [] wfMap_nil) as [_ KV].
  rewrite Forall_forall in KV. pose proof (KV _ G) as K. simpl in K.
  exists v. repeat split.
  - unfold deduplicateHits.
    apply (Permutation_in _ (Permutation_sym (sortByTime_perm _))).
    unfold map_values. apply in_map_iff. now exists (hitKey h', v).
  - apply hitKey_slot. now symmetry.
  - exact L.
Qed.

(** On an array without two hits of one key, [deduplicateHits] is the
    final sort alone. *)
Lemma deduplicateHits_unique (l : list DrumHit) :
  NoDup (map hitKey l) -> deduplicateHits l = sortByTime l.
Proof.
  intros ND. unfold deduplicateHits.
  rewrite (fold_dedup_fresh l []); [|exact ND].
  simpl. unfold map_values. rewrite map_map. simpl. now rewrite map_id.
Qed.

Lemma assemble_sorted (l : list DrumHit) : sortedByTime (assemble l).
Proof. apply deduplicateHits_sorted. Qed.

(** ** What [generatePattern] returns *)

Lemma generatePattern_hits (rnd : nat -> Q) (s : GeneratorSettings) (n : nat) :
  hits (patternOf rnd s n) = assemble (humanizedHits rnd s n).
Proof.
  unfold patternOf, generatePattern, sortedHits, humanizedHits, swungHits,
    templateHits, assemble, bind, ret.
  destruct (generateBasePattern rnd s n) as [base n1]. simpl.
  destruct (humanizePattern rnd _ generatorHumanize n1) as [hum n2]. reflexivity.
Qed.

Lemma sortedHits_eq (rnd : nat -> Q) (s : GeneratorSettings) (n : nat) :
  fst (sortedHits rnd s n) = sortByTime (humanizedHits rnd s n).
Proof.
  unfold sortedHits, humanizedHits, swungHits, templateHits, bind, ret.
  destruct (generateBasePattern rnd s n) as [base n1]. simpl.
  destruct (humanizePattern rnd _ generatorHumanize n1) as [hum n2]. reflexivity.
Qed.

(** C2.  Whatever the settings and whatever the random source yields, the
    hits of the pattern returned by [generatePattern] are sorted
    non-decreasing by time: each hit is no later than every hit after it. *)
Theorem generatePattern_sorted (rnd : nat -> Q) (s : GeneratorSettings) (n : nat) :
  sortedByTime (hits (patternOf rnd s n)) /\
  forall i j a b,
    (i < j)%nat ->
    nth_error (hits (patternOf rnd s n)) i = Some a ->
    nth_error (hits (patternOf rnd s n)) j = Some b ->
    time a <= time b.
Proof.
  rewrite generatePattern_hits.
  pose proof (assemble_sorted (humanizedHits rnd s n)) as S.
  split; [exact S|].
  revert S. generalize (assemble (humanizedHits rnd s n)) as l.
  unfold sortedByTime. induction l as [|x r IH]; intros S i j a b Lt Ha Hb.
  - destruct i; discriminate.
  - inversion S as [|? ? Sr Fx]; subst.
    destruct j as [|j]; [lia|]. simpl in Hb.
    destruct i as [|i]; simpl in Ha.
    + injection Ha as ->. apply nth_error_In in Hb.
      rewrite Forall_forall in Fx. now apply Fx.
    + apply (IH Sr i j); [lia | assumption | assumption].
Qed.

Lemma generatePattern_sorted_witness :
  ((0 < 1)%nat /\
   nth_error (hits samplePattern) 0 = Some sampleFirst /\
   nth_error (hits samplePattern) 1 = Some sampleSecond) /\
  sortedByTime (hits samplePattern) /\
  time sampleFirst <= time sampleSecond.
Proof.
  assert (L : (0 < 1)%nat) by lia.
  assert (A : nth_error (hits samplePattern) 0 = Some sampleFirst)
    by (vm_compute; reflexivity).
  assert (B : nth_error (hits samplePattern) 1 = Some sampleSecond)
    by (vm_compute; reflexivity).
  split; [split; [exact L | split; [exact A | exact B]]|].
  destruct (generatePattern_sorted alwaysQuarter (rockExample 120) 0%nat) as (S & N).
  split; [exact S | exact (N 0%nat 1%nat sampleFirst sampleSecond L A B)].
Defined.

(** C4.  The assembler, the sort followed by [deduplicateHits], is
    idempotent: assembling an assembled array gives it back unchanged. *)
Theorem assemble_idempotent (l : list DrumHit) :
  assemble (assemble l) = assemble l.
Proof.
  unfold assemble at 1.
  rewrite (sortByTime_fixed _ (assemble_sorted l)).
  rewrite deduplicateHits_unique.
  - apply sortByTime_fixed, assemble_sorted.
  - apply deduplicateHits_keys.
Qed.

Lemma generatePattern_dedup (rnd : nat -> Q) (s : GeneratorSettings) (n : nat) :
  hits (patternOf rnd s n) = deduplicateHits (fst (sortedHits rnd s n)).
Proof.
  rewrite generatePattern_hits, sortedHits_eq. reflexivity.
Qed.

(** C3.  In the returned pattern no two hits at different positions have
    both the same drum and the same [round(time * 1000)].  Every hit of
    the result is one of the hits handed to [deduplicateHits], and is at
    least as loud as every one of them that has its drum and rounded time;
    and each of those hits has such a representative in the result. *)
Theorem generatePattern_no_duplicates
    (rnd : nat -> Q) (s : GeneratorSettings) (n : nat) :
  let pre := fst (sortedHits rnd s n) in
  let out := hits (patternOf rnd s n) in
  (forall i j a b,
     i <> j -> nth_error out i = Some a -> nth_error out j = Some b ->
     ~ (drum a = drum b /\
        Num.round (time a * 1000) = Num.round (time b * 1000))) /\
  (forall h, In h out ->
     In h pre /\
     forall h', In h' pre ->
       drum h' = drum h ->
       Num.round (time h' * 1000) = Num.round (time h * 1000) ->
       velocity h' <= velocity h) /\
  (forall h', In h' pre ->
     exists h, In h out /\ drum h = drum h' /\
       Num.round (time h * 1000) = Num.round (time h' * 1000)).
Proof.
  intros pre out. subst pre out. rewrite generatePattern_dedup.
  generalize (fst (sortedHits rnd s n)) as pre. intros pre.
  split; [|split].
  - intros i j a b Nij Ha Hb [Ed Et].
    pose proof (deduplicateHits_slots pre) as ND.
    apply Nij. apply (proj1 (NoDup_nth_error _) ND).
    + apply nth_error_Some. rewrite nth_error_map, Ha. discriminate.
    + rewrite !nth_error_map, Ha, Hb. simpl. unfold slot, timeKey.
      now rewrite Ed, Et.
  - intros h I. split; [now apply deduplicateHits_In|].
    intros h' I' Ed Et. apply (deduplicateHits_loudest pre h h' I I').
    unfold slot, timeKey. now rewrite Ed, Et.
  - intros h' I'. destruct (deduplicateHits_covers pre h' I') as (h & I & E & _).
    exists h. injection E as Ed Et. now repeat split.
Qed.

Lemma generatePattern_no_duplicates_witness :
  (0%nat <> 1%nat /\
   nth_error (hits samplePattern) 0 = Some sampleFirst /\
   nth_error (hits samplePattern) 1 = Some sampleSecond /\
   In sampleFirst (hits samplePattern)) /\
  ~ (drum sampleFirst = drum sampleSecond /\
     Num.round (time sampleFirst * 1000) = Num.round (time sampleSecond * 1000)) /\
  In sampleFirst (fst (sortedHits alwaysQuarter (rockExample 120) 0%nat)).
Proof.
  assert (N : 0%nat <> 1%nat) by lia.
  assert (A : nth_error (hits samplePattern) 0 = Some sampleFirst)
    by (vm_compute; reflexivity).
  assert (B : nth_error (hits samplePattern) 1 = Some sampleSecond)
    by (vm_compute; reflexivity).
  assert (I : In sampleFirst (hits samplePattern))
    by (eapply nth_error_In; exact A).
  split; [split; [exact N | split; [exact A | split; [exact B | exact I]]]|].
  destruct (generatePattern_no_duplicates alwaysQuarter (rockExample 120) 0%nat)
    as (D & M & _).
  split; [exact (D 0%nat 1%nat sampleFirst sampleSecond N A B)|].
  exact (proj1 (M sampleFirst I)).
Defined.

(** ** The swing step *)

(** On a non-negative time the remainder operator gives the fractional
    part. *)
Lemma rem1_mod1 (t : Q) : 0 <= t -> t %% 1 == mod1 t.
Proof.
  intros H. unfold Num.rem, Num.trunc, mod1.
  assert (E : (t / 1 <? 0) = false).
  { apply ltb_false. unfold Qdiv. setoid_replace (t * / 1) with t; [exact H|].
    field. }
  rewrite E.
  assert (E' : Qfloor (t / 1) = Qfloor t).
  { apply Qfloor_comp. field. }
  rewrite E'. ring.
Qed.

Lemma abs_Qabs (x : Q) : Num.abs x == Qabs x.
Proof.
  unfold Num.abs. destruct (x <? 0) eqn:E.
  - apply ltb_true in E. rewrite Qabs_neg; [reflexivity | lra].
  - apply ltb_false in E. rewrite Qabs_pos; [reflexivity | lra].
Qed.

Lemma swingHit_test (amount : Q) (h : DrumHit) :
  0 <= time h ->
  (Num.abs (time h %% 1 - 0.5) <? 0.1) = true <-> nearOffbeat (time h).
Proof.
  intros H. unfold nearOffbeat. rewrite ltb_true, abs_Qabs.
  now rewrite (rem1_mod1 _ H).
Qed.

Lemma swingPattern_nth (hits : list DrumHit) (amount : Q) (i : nat) :
  nth_error (swingPattern hits amount) i =
  option_map (swingHit amount) (nth_error hits i).
Proof. unfold swingPattern. apply nth_error_map. Qed.

Lemma applySwing_other (style : string) (l : list DrumHit) :
  style <> "jazz"%string -> style <> "lofi"%string -> applySwing style l = l.
Proof.
  intros J L. unfold applySwing.
  destruct (String.eqb_spec style "jazz"); [contradiction|].
  destruct (String.eqb_spec style "lofi"); [contradiction|]. reflexivity.
Qed.

(** ** Humanization *)

Lemma max_Qmax (a b : Q) : Num.max a b == Qmax a b.
Proof.
  unfold Num.max. destruct (a <? b) eqn:E.
  - apply ltb_true in E. rewrite Q.max_r; [reflexivity | lra].
  - apply ltb_false in E. rewrite Q.max_l; [reflexivity | lra].
Qed.

Lemma min_Qmin (a b : Q) : Num.min a b == Qmin a b.
Proof.
  unfold Num.min. destruct (b <? a) eqn:E.
  - apply ltb_true in E. rewrite Q.min_r; [reflexivity | lra].
  - apply ltb_false in E. rewrite Q.min_l; [reflexivity | lra].
Qed.

Lemma clamp_code (x : Q) : Num.max 0.1 (Num.min 1 x) == clamp x 0.1 1.
Proof. unfold clamp. now rewrite max_Qmax, min_Qmin. Qed.

(** A draw in [0, 1) scaled to an offset of magnitude at most [bound]. *)
Lemma offset_bound (r bound : Q) :
  0 <= r -> r < 1 -> 0 <= bound -> Qabs ((r - 0.5) * 2 * bound) <= bound.
Proof.
  intros H0 H1 Hb. apply Qabs_Qle_condition. split.
  - assert (0 <= r * bound) by (apply Qmult_le_0_compat; assumption). lra.
  - assert (0 <= (1 - r) * bound) by (apply Qmult_le_0_compat; lra). lra.
Qed.

Lemma humanizeHit_run (rnd : nat -> Q) (h : DrumHit) (o : HumanizeOptions) (n : nat) :
  humanizeHit rnd h o n =
  (withTimeVelocity h
     (Num.max 0 (time h + timingOffsetOf (timingVariation o) (rnd n)))
     (Num.max 0.1 (Num.min 1
        (velocity h + velocityOffsetOf (velocityVariation o) (rnd (S n))))),
   S (S n)).
Proof. reflexivity. Qed.

Lemma humanizeHit_humanizedBy
    (rnd : nat -> Q) (h : DrumHit) (o : HumanizeOptions) (n : nat) :
  humanizedBy (timingOffsetOf (timingVariation o) (rnd n))
              (velocityOffsetOf (velocityVariation o) (rnd (S n)))
              h (fst (humanizeHit rnd h o n)).
Proof.
  rewrite humanizeHit_run. unfold humanizedBy. simpl.
  repeat split; [apply max_Qmax | apply clamp_code].
Qed.

(** Whatever is drawn, a humanized hit has a non-negative time and a
    velocity between 0.1 and 1. *)
Lemma humanizeHit_clamped
    (rnd : nat -> Q) (h : DrumHit) (o : HumanizeOptions) (n : nat) :
  let h' := fst (humanizeHit rnd h o n) in
  0 <= time h' /\ 0.1 <= velocity h' /\ velocity h' <= 1 /\
  drum h' = drum h /\ duration h' = duration h.
Proof.
  rewrite humanizeHit_run. simpl.
  set (t := time h + _). set (v := velocity h + _).
  destruct (max_spec 0 t) as (T0 & _ & _).
  destruct (max_spec 0.1 (Num.min 1 v)) as (V0 & _ & [V|V]).
  - rewrite V in *. repeat split; try assumption; lra.
  - rewrite V in *. destruct (min_spec 1 v) as (M & _ & _).
    repeat split; try assumption.
Qed.

Lemma mapRand_cons {A B : Type} (f : A -> Rand B) (x : A) (r : list A) (n : nat) :
  mapRand f (x :: r) n =
  (fst (f x n) :: fst (mapRand f r (snd (f x n))),
   snd (mapRand f r (snd (f x n)))).
Proof.
  cbn [mapRand]. unfold bind, ret.
  destruct (f x n) as [b n1]. cbn [fst snd].
  destruct (mapRand f r n1) as [bs n2]. reflexivity.
Qed.

Lemma humanizeHit_draws (rnd : nat -> Q) (h : DrumHit) (o : HumanizeOptions) (n : nat) :
  snd (humanizeHit rnd h o n) = S (S n).
Proof. reflexivity. Qed.

Lemma mapRand_humanize (rnd : nat -> Q) (o : HumanizeOptions)
    (l : list DrumHit) (n : nat) :
  snd (mapRand (fun hit => humanizeHit rnd hit o) l n) = (n + 2 * List.length l)%nat /\
  List.length (fst (mapRand (fun hit => humanizeHit rnd hit o) l n)) = List.length l /\
  forall i h, nth_error l i = Some h ->
    nth_error (fst (mapRand (fun hit => humanizeHit rnd hit o) l n)) i =
    Some (fst (humanizeHit rnd h o (n + 2 * i)%nat)).
Proof.
  revert n. induction l as [|x r IH]; intros n.
  - cbn. repeat split; [lia|]. intros [|i] h; discriminate.
  - rewrite mapRand_cons, humanizeHit_draws. cbn [fst snd List.length].
    destruct (IH (S (S n))) as (En & El & Ei).
    split; [lia|]. split; [lia|].
    intros [|i] h Hh; cbn [nth_error] in Hh |- *.
    + injection Hh as ->. now rewrite Nat.mul_0_r, Nat.add_0_r.
    + rewrite (Ei i h Hh). do 3 f_equal. lia.
Qed.

Lemma humanizePattern_enabled (rnd : nat -> Q) (l : list DrumHit)
    (o : PartialHumanizeOptions) :
  enabled (mergeOptions DEFAULT_OPTIONS o) = true ->
  humanizePattern rnd l o =
  mapRand (fun hit => humanizeHit rnd hit (mergeOptions DEFAULT_OPTIONS o)) l.
Proof. intros E. unfold humanizePattern. now rewrite E. Qed.

Lemma humanizePattern_disabled (rnd : nat -> Q) (l : list DrumHit)
    (o : PartialHumanizeOptions) :
  enabled (mergeOptions DEFAULT_OPTIONS o) = false ->
  humanizePattern rnd l o = ret l.
Proof. intros E. unfold humanizePattern. now rewrite E. Qed.

(** Every hit of a humanized array comes from a hit of the input with the
    same drum and duration, and is within the clamps. *)
Lemma humanizePattern_clamped (rnd : nat -> Q) (l : list DrumHit) (n : nat)
    (h' : DrumHit) :
  In h' (fst (humanizePattern rnd l generatorHumanize n)) ->
  exists h, In h l /\ drum h' = drum h /\ duration h' = duration h /\
            0 <= time h' /\ 0.1 <= velocity h' /\ velocity h' <= 1.
Proof.
  rewrite humanizePattern_enabled by reflexivity.
  set (o := mergeOptions DEFAULT_OPTIONS generatorHumanize).
  intros I. apply In_nth_error in I. destruct I as (i & Hi).
  destruct (mapRand_humanize rnd o l n) as (_ & El & Ei).
  assert (Li : (i < List.length l)%nat).
  { rewrite <- El. apply nth_error_Some. congruence. }
  destruct (nth_error l i) as [h|] eqn:Hh;
    [|apply nth_error_None in Hh; lia].
  rewrite (Ei i h Hh) in Hi. injection Hi as <-.
  exists h. split; [eapply nth_error_In; eassumption|].
  destruct (humanizeHit_clamped rnd h o (n + 2 * i)%nat) as (T & V0 & V1 & D & U).
  repeat split; assumption.
Qed.

(** C6.  With [enabled] false [humanizePattern] returns its input and
    draws nothing.  With [enabled] true, variations that are not negative
    and draws in [0, 1), the result has the length of the input and its
    [i]-th hit is the [i]-th input hit with the same drum and duration,
    time [max(0, time + delta)] and velocity
    [clamp(velocity + eps, 0.1, 1)], where [delta] and [eps] come from
    the two draws made for that hit alone and satisfy
    [|delta| <= 0.03 * timingVariation] and
    [|eps| <= 0.15 * velocityVariation]. *)
Theorem humanizePattern_behaviour
    (rnd : nat -> Q) (l : list DrumHit) (o : PartialHumanizeOptions) (n : nat) :
  let opts := mergeOptions DEFAULT_OPTIONS o in
  (enabled opts = false -> humanizePattern rnd l o n = (l, n)) /\
  (enabled opts = true -> unitDraws rnd ->
   0 <= timingVariation opts -> 0 <= velocityVariation opts ->
   List.length (fst (humanizePattern rnd l o n)) = List.length l /\
   forall i h, nth_error l i = Some h ->
     exists h' delta eps,
       nth_error (fst (humanizePattern rnd l o n)) i = Some h' /\
       delta = timingOffsetOf (timingVariation opts) (rnd (n + 2 * i)%nat) /\
       eps = velocityOffsetOf (velocityVariation opts) (rnd (n + 2 * i + 1)%nat) /\
       Qabs delta <= 0.03 * timingVariation opts /\
       Qabs eps <= 0.15 * velocityVariation opts /\
       humanizedBy delta eps h h').
Proof.
  intros opts. split.
  - intros E. now rewrite humanizePattern_disabled.
  - intros E U Tv Vv. rewrite humanizePattern_enabled by exact E. fold opts.
    destruct (mapRand_humanize rnd opts l n) as (_ & El & Ei).
    split; [exact El|]. intros i h Hh.
    exists (fst (humanizeHit rnd h opts (n + 2 * i)%nat)).
    exists (timingOffsetOf (timingVariation opts) (rnd (n + 2 * i)%nat)).
    exists (velocityOffsetOf (velocityVariation opts) (rnd (n + 2 * i + 1)%nat)).
    split; [now apply Ei|]. split; [reflexivity|]. split; [reflexivity|].
    destruct (U (n + 2 * i)%nat) as [A0 A1].
    destruct (U (n + 2 * i + 1)%nat) as [B0 B1].
    split; [apply offset_bound; [assumption | assumption | lra]|].
    split; [apply offset_bound; [assumption | assumption | lra]|].
    replace (n + 2 * i + 1)%nat with (S (n + 2 * i)) by lia.
    apply humanizeHit_humanizedBy.
Qed.

Lemma humanizePattern_behaviour_witness :
  humanizePattern alwaysQuarter [downbeatKick; offbeatRide]
    (mkPartial (Some 0.4) None (Some false)) 5%nat = ([downbeatKick; offbeatRide], 5%nat) /\
  exists h' delta eps,
    nth_error (fst (humanizePattern alwaysQuarter [downbeatKick; offbeatRide]
                      (mkPartial (Some 0.4) None None) 5%nat)) 1 = Some h' /\
    delta = timingOffsetOf 0.4 (alwaysQuarter 7%nat) /\
    eps = velocityOffsetOf 0.5 (alwaysQuarter 8%nat) /\
    Qabs delta <= 0.03 * 0.4 /\ Qabs eps <= 0.15 * 0.5 /\
    humanizedBy delta eps offbeatRide h'.
Proof.
  split.
  - apply (proj1 (humanizePattern_behaviour alwaysQuarter [downbeatKick; offbeatRide]
                    (mkPartial (Some 0.4) None (Some false)) 5%nat)).
    reflexivity.
  - refine (proj2 (proj2 (humanizePattern_behaviour alwaysQuarter
                            [downbeatKick; offbeatRide]
                            (mkPartial (Some 0.4) None None) 5%nat) _ _ _ _)
                  1%nat offbeatRide _).
    + reflexivity.
    + intros k. unfold alwaysQuarter. split; lra.
    + simpl. lra.
    + simpl. lra.
    + reflexivity.
Defined.

(** ** What a template appends *)

Section Emits.

Variable rnd : nat -> Q.
Variable P : DrumHit -> Prop.

Lemma emits_ret {A : Type} (a : A) : emits P (ret a : Tmpl A).
Proof. intros s. exists []. simpl. now rewrite app_nil_r. Qed.

Lemma emits_bind {A B : Type} (m : Tmpl A) (k : A -> Tmpl B) :
  emits P m -> (forall a, emits P (k a)) -> emits P (bind m k).
Proof.
  intros Hm Hk s. unfold bind. destruct (Hm s) as (n1 & E1 & F1).
  destruct (m s) as [a s1]. simpl in E1.
  destruct (Hk a s1) as (n2 & E2 & F2).
  exists (n1 ++ n2). rewrite E2, E1, app_assoc. split; [reflexivity|].
  apply Forall_app. now split.
Qed.

Lemma emits_push (h : DrumHit) : P h -> emits P (push h).
Proof. intros H s. exists [h]. simpl. split; [reflexivity | now constructor]. Qed.

Lemma emits_liftRand {A : Type} (m : Rand A) : emits P (liftRand m).
Proof.
  intros s. exists []. unfold liftRand. destruct (m (draws s)). simpl.
  now rewrite app_nil_r.
Qed.

Lemma emits_chance (p : Q) : emits P (chance rnd p).
Proof.
  unfold chance. apply emits_bind; [apply emits_liftRand | intros; apply emits_ret].
Qed.

Lemma emits_andAlso (c : bool) (m : Tmpl bool) :
  emits P m -> emits P (andAlso c m).
Proof. intros H. destruct c; [exact H | apply emits_ret]. Qed.

Lemma emits_when (c : bool) (m : Tmpl unit) : emits P m -> emits P (when c m).
Proof. intros H. destruct c; [exact H | apply emits_ret]. Qed.

Lemma emits_forRange (body : Z -> Tmpl unit) (n : nat) (start : Z) :
  (forall i, emits P (body i)) -> emits P (forRange start n body).
Proof.
  intros H. revert start. induction n as [|n IH]; intros start; simpl.
  - apply emits_ret.
  - apply emits_bind; [apply H | intros _; apply IH].
Qed.

Lemma emits_forLt (body : Z -> Tmpl unit) (bound : Q) :
  (forall i, emits P (body i)) -> emits P (forLt bound body).
Proof. apply emits_forRange. Qed.

Lemma emits_forOf {A : Type} (body : A -> Tmpl unit) (xs : list A) :
  (forall x, emits P (body x)) -> emits P (forOf xs body).
Proof.
  intros H. induction xs as [|x r IH]; simpl.
  - apply emits_ret.
  - apply emits_bind; [apply H | intros _; exact IH].
Qed.

Lemma emits_runTemplate (m : Tmpl unit) (n : nat) :
  emits P m -> Forall P (fst (runTemplate m n)).
Proof.
  intros H. unfold runTemplate. destruct (H (mkTS [] n)) as (new & E & F).
  destruct (m (mkTS [] n)) as [u s]. simpl in *. now rewrite E.
Qed.

End Emits.

(** One step through the structure of a template. *)
Ltac emits_step :=
  lazymatch goal with
  | |- emits _ (bind _ _) => apply emits_bind; [|intros ?]
  | |- emits _ (ret _) => apply emits_ret
  | |- emits _ (push _) => apply emits_push
  | |- emits _ (when _ _) => apply emits_when
  | |- emits _ (andAlso _ _) => apply emits_andAlso
  | |- emits _ (chance _ _) => apply emits_chance
  | |- emits _ (liftRand _) => apply emits_liftRand
  | |- emits _ (forLt _ _) => apply emits_forLt; intros ?
  | |- emits _ (forOf _ _) => apply emits_forOf; intros ?
  | |- emits _ (if ?c then _ else _) => destruct c
  | |- emits _ (match ?x with _ => _ end) => destruct x
  end.

Ltac emits_walk := cbv zeta; repeat emits_step.

(** The duration of a pushed hit is one of the literals of the source. *)
Ltac duration_literal :=
  unfold positiveDuration; cbn [duration];
  repeat match goal with
         | |- context [if ?c then _ else _] => destruct c
         end;
  reflexivity.

Lemma rockBar_durations (rnd : nat -> Q) (bpb cx dyn v : Q) (bar : Z) :
  emits positiveDuration (rockBar rnd bpb cx dyn v bar).
Proof.
  unfold rockBar, addKickPattern, addSnarePattern, addHihatPattern,
    addRidePattern, addRockFill.
  emits_walk; duration_literal.
Qed.

Lemma jazzBar_durations (rnd : nat -> Q) (bpb cx dyn v : Q) (bar : Z) :
  emits positiveDuration (jazzBar rnd bpb cx dyn v bar).
Proof.
  unfold jazzBar, addSwingRidePattern, addJazzHihatPattern, addFeatheredKick,
    addJazzSnareComping, addJazzFill.
  emits_walk; duration_literal.
Qed.

Lemma electronicBar_durations (rnd : nat -> Q) (bpb cx dyn v : Q) (bar : Z) :
  emits positiveDuration (electronicBar rnd bpb cx dyn v bar).
Proof.
  unfold electronicBar, addFourOnFloorKick, addElectronicSnare,
    addElectronicHihats, addElectronicPercussion, addElectronicFill.
  emits_walk; duration_literal.
Qed.

Lemma latinBar_durations (rnd : nat -> Q) (bpb cx dyn v : Q) (bar : Z) :
  emits positiveDuration (latinBar rnd bpb cx dyn v bar).
Proof.
  unfold latinBar, addLatinKick, addLatinSnare, addLatinCymbal,
    addCascaraPattern, addBellPattern.
  emits_walk; duration_literal.
Qed.

Lemma lofiBar_durations (rnd : nat -> Q) (bpb cx v : Q) (bar : Z) :
  emits positiveDuration (lofiBar rnd bpb cx v bar).
Proof.
  unfold lofiBar, addLofiRide, addLofiKick, addLofiSnare, addLofiHihat.
  emits_walk; duration_literal.
Qed.

Lemma templateHits_durations (rnd : nat -> Q) (s : GeneratorSettings) (n : nat) :
  Forall positiveDuration (templateHits rnd s n).
Proof.
  unfold templateHits, generateBasePattern,
    generateRockPattern, generateJazzPattern, generateElectronicPattern,
    generateLatinPattern, generateLofiPattern.
  repeat match goal with
         | |- context [if ?c then _ else _] => destruct c
         end;
    apply emits_runTemplate, emits_forLt; intros bar;
    first [ apply rockBar_durations | apply jazzBar_durations
          | apply electronicBar_durations | apply latinBar_durations
          | apply lofiBar_durations ].
Qed.

Lemma swingHit_duration (amount : Q) (h : DrumHit) :
  duration (swingHit amount h) = duration h /\ drum (swingHit amount h) = drum h.
Proof.
  unfold swingHit. destruct (_ <? _); split; reflexivity.
Qed.

Lemma swungHits_durations (rnd : nat -> Q) (s : GeneratorSettings) (n : nat) :
  Forall positiveDuration (swungHits rnd s n).
Proof.
  pose proof (templateHits_durations rnd s n) as T.
  unfold swungHits, applySwing, swingPattern.
  assert (W : forall a, Forall positiveDuration
                          (map (swingHit a) (templateHits rnd s n))).
  { intros a. apply Forall_forall. intros h' I. apply in_map_iff in I.
    destruct I as (h & <- & I). unfold positiveDuration.
    rewrite (proj1 (swingHit_duration a h)).
    exact (proj1 (Forall_forall _ _) T h I). }
  destruct (String.eqb (kitStyle s) "jazz"); [apply W|].
  destruct (String.eqb (kitStyle s) "lofi"); [apply W | exact T].
Qed.

Lemma humanizedHits_bounds (rnd : nat -> Q) (s : GeneratorSettings) (n : nat) :
  Forall inBounds (humanizedHits rnd s n).
Proof.
  apply Forall_forall. intros h' I. unfold humanizedHits in I.
  apply humanizePattern_clamped in I.
  destruct I as (h & Ih & _ & D & T & V0 & V1).
  pose proof (swungHits_durations rnd s n) as S.
  rewrite Forall_forall in S. specialize (S h Ih).
  unfold positiveDuration in S. unfold inBounds. rewrite D. tauto.
Qed.

Lemma assemble_In (l : list DrumHit) (h : DrumHit) : In h (assemble l) -> In h l.
Proof.
  intros I. apply deduplicateHits_In in I.
  now apply (Permutation_in _ (sortByTime_perm l)).
Qed.

Lemma pattern_bounds (rnd : nat -> Q) (s : GeneratorSettings) (n : nat) :
  Forall inBounds (hits (patternOf rnd s n)).
Proof.
  rewrite generatePattern_hits. apply Forall_forall. intros h I.
  apply assemble_In in I.
  now apply (proj1 (Forall_forall _ _) (humanizedHits_bounds rnd s n)).
Qed.

(** C1.  For every settings record and every outcome of the random
    source, each hit of the pattern returned by [generatePattern] has
    [time >= 0], [0.1 <= velocity <= 1] and [duration > 0]. *)
Theorem generatePattern_bounds
    (rnd : nat -> Q) (s : GeneratorSettings) (n : nat) :
  Forall (fun h => 0 <= time h /\ 0.1 <= velocity h /\ velocity h <= 1 /\
                   0 < duration h)
         (hits (patternOf rnd s n)).
Proof. exact (pattern_bounds rnd s n). Qed.

(** ** Values outside the declared unions *)

Lemma pattern_valid (rnd : nat -> Q) (s : GeneratorSettings) (n : nat) :
  validHits (hits (patternOf rnd s n)).
Proof.
  split; [|split].
  - rewrite generatePattern_hits. apply assemble_sorted.
  - rewrite generatePattern_dedup. apply deduplicateHits_slots.
  - apply pattern_bounds.
Qed.

Lemma generateBasePattern_unknown (rnd : nat -> Q) (s : GeneratorSettings) :
  ~ knownStyle (kitStyle s) ->
  generateBasePattern rnd s =
  generateRockPattern rnd (bars s) (s_timeSignature s) (complexity s) (dynamics s).
Proof.
  intros U. unfold generateBasePattern.
  repeat match goal with
         | |- context [String.eqb ?a ?b] =>
             destruct (String.eqb_spec a b);
             [try reflexivity; exfalso; apply U; unfold knownStyle; tauto|]
         end.
  reflexivity.
Qed.

Lemma getBeatsPerBar_unknown (ts : string) :
  ~ knownTimeSignature ts -> getBeatsPerBar ts = 4.
Proof.
  intros U. unfold getBeatsPerBar.
  repeat match goal with
         | |- context [String.eqb ?a ?b] =>
             destruct (String.eqb_spec a b);
             [exfalso; apply U; unfold knownTimeSignature; tauto|]
         end.
  reflexivity.
Qed.

(** The templates read the time signature through [getBeatsPerBar] only. *)
Lemma generateBasePattern_meter (rnd : nat -> Q) (s : GeneratorSettings) (ts : string) :
  getBeatsPerBar (s_timeSignature s) = getBeatsPerBar ts ->
  generateBasePattern rnd s = generateBasePattern rnd (withTimeSignature s ts).
Proof.
  intros E. unfold generateBasePattern, withTimeSignature,
    generateRockPattern, generateJazzPattern, generateElectronicPattern,
    generateLatinPattern, generateLofiPattern.
  cbn [kitStyle s_timeSignature bars complexity dynamics]. now rewrite E.
Qed.

(** C9.  A [kitStyle] outside the five declared styles is served by the
    rock template, and the pattern returned is the one returned for
    ["rock"].  A [timeSignature] outside the five declared tags gives
    [beatsPerBar = 4]: the hits are those returned for ["4/4"] and the
    length is [bars * 4] (the unknown tag itself is copied into the
    pattern).  No error is reported: [generatePattern] is a total
    function, the hits it returns always satisfy the invariants of the
    data model, and its length is [bars] times the beats per bar of the
    time signature it carries. *)
Theorem unknown_values_default
    (rnd : nat -> Q) (s : GeneratorSettings) (n : nat) :
  (~ knownStyle (kitStyle s) ->
   templateHits rnd s n =
     fst (generateRockPattern rnd (bars s) (s_timeSignature s)
            (complexity s) (dynamics s) n) /\
   patternOf rnd s n = patternOf rnd (withStyle s "rock") n) /\
  (~ knownTimeSignature (s_timeSignature s) ->
   getBeatsPerBar (s_timeSignature s) = 4 /\
   hits (patternOf rnd s n) = hits (patternOf rnd (withTimeSignature s "4/4") n) /\
   lengthInBeats (patternOf rnd s n) = bars s * 4 /\
   timeSignature (patternOf rnd s n) = s_timeSignature s) /\
  validHits (hits (patternOf rnd s n)) /\
  lengthInBeats (patternOf rnd s n) =
    bars s * getBeatsPerBar (timeSignature (patternOf rnd s n)).
Proof.
  split; [|split; [|split]].
  - intros U. split.
    + unfold templateHits. now rewrite generateBasePattern_unknown.
    + assert (S : forall l, applySwing (kitStyle s) l = l).
      { intros l. apply applySwing_other; intros E; apply U;
          unfold knownStyle; tauto. }
      unfold patternOf, generatePattern, sortedHits, bind.
      rewrite (generateBasePattern_unknown rnd s U).
      change (generateBasePattern rnd (withStyle s "rock"))
        with (generateRockPattern rnd (bars s) (s_timeSignature s)
                (complexity s) (dynamics s)).
      destruct (generateRockPattern rnd (bars s) (s_timeSignature s)
                  (complexity s) (dynamics s) n) as [base n1].
      rewrite S. reflexivity.
  - intros U. pose proof (getBeatsPerBar_unknown _ U) as B.
    split; [exact B|]. split; [|split].
    + rewrite !generatePattern_hits. f_equal.
      unfold humanizedHits, swungHits, templateHits.
      now rewrite (generateBasePattern_meter rnd s "4/4" B).
    + unfold patternOf, generatePattern, bind, ret.
      destruct (sortedHits rnd s n). simpl. now rewrite B.
    + unfold patternOf, generatePattern, bind, ret.
      destruct (sortedHits rnd s n). reflexivity.
  - apply pattern_valid.
  - unfold patternOf, generatePattern, bind, ret.
    destruct (sortedHits rnd s n). reflexivity.
Qed.

Lemma unknown_values_default_witness :
  (~ knownStyle (kitStyle unknownSettings) /\
   ~ knownTimeSignature (s_timeSignature unknownSettings)) /\
  patternOf alwaysQuarter unknownSettings 0 =
    patternOf alwaysQuarter (withStyle unknownSettings "rock") 0 /\
  hits (patternOf alwaysQuarter unknownSettings 0) =
    hits (patternOf alwaysQuarter (withTimeSignature unknownSettings "4/4") 0) /\
  lengthInBeats (patternOf alwaysQuarter unknownSettings 0) = 2 * 4.
Proof.
  assert (Us : ~ knownStyle (kitStyle unknownSettings)).
  { unfold knownStyle. simpl. intros [H|[H|[H|[H|H]]]]; discriminate H. }
  assert (Ut : ~ knownTimeSignature (s_timeSignature unknownSettings)).
  { unfold knownTimeSignature. simpl. intros [H|[H|[H|[H|H]]]]; discriminate H. }
  split; [split; assumption|].
  destruct (unknown_values_default alwaysQuarter unknownSettings 0) as (A & B & _).
  split; [exact (proj2 (A Us))|].
  split; [exact (proj1 (proj2 (B Ut))) | exact (proj1 (proj2 (proj2 (B Ut))))].
Defined.

(** ** Selecting hits and assembling commute *)

Lemma insertByTime_first (h : DrumHit) (l : list DrumHit) :
  Forall (timeLe h) l -> insertByTime h l = h :: l.
Proof.
  intros F. destruct l as [|x r]; [reflexivity|]. simpl.
  inversion F as [|? ? Hx _]; subst. unfold timeLe in Hx.
  apply Qle_bool_iff in Hx. now rewrite Hx.
Qed.

Lemma filter_insertByTime (p : DrumHit -> bool) (h : DrumHit) (l : list DrumHit) :
  sortedByTime l ->
  filter p (insertByTime h l) =
  if p h then insertByTime h (filter p l) else filter p l.
Proof.
  unfold sortedByTime. induction 1 as [|x r Sr IH Fx].
  - simpl. destruct (p h); reflexivity.
  - cbn [insertByTime]. destruct (Qle_bool (time h) (time x)) eqn:E.
    + cbn [filter]. destruct (p h) eqn:Ph; [|reflexivity].
      rewrite insertByTime_first; [reflexivity|].
      apply Qle_bool_iff in E.
      assert (F : Forall (timeLe h) (x :: r)).
      { constructor; [exact E|]. eapply Forall_impl; [|exact Fx].
        unfold timeLe. intros; lra. }
      change (if p x then x :: filter p r else filter p r)
        with (filter p (x :: r)).
      apply Forall_forall. intros y Iy. apply filter_In in Iy.
      exact (proj1 (Forall_forall _ _) F y (proj1 Iy)).
    + cbn [filter]. rewrite IH. destruct (p x) eqn:Px, (p h) eqn:Ph;
        try reflexivity.
      cbn [insertByTime]. now rewrite E.
Qed.

Lemma filter_sortByTime (p : DrumHit -> bool) (l : list DrumHit) :
  filter p (sortByTime l) = sortByTime (filter p l).
Proof.
  induction l as [|h t IH]; [reflexivity|].
  cbn [sortByTime filter].
  rewrite filter_insertByTime by apply sortByTime_sorted.
  rewrite IH. destruct (p h); reflexivity.
Qed.

Section FilterMap.

Variable p : DrumHit -> bool.
Hypothesis p_slot : respectsSlot p.

Lemma wfMap_tail (e : string * DrumHit) (m : JsMap) : wfMap (e :: m) -> wfMap m.
Proof.
  intros [ND KV]. inversion ND; inversion KV; subst. now split.
Qed.

Lemma same_key_test (h v : DrumHit) (k : string) :
  k = hitKey v -> hitKey h = k -> p v = p h.
Proof.
  intros -> E. apply p_slot. apply hitKey_slot. now symmetry.
Qed.

Lemma map_get_filterEntries (m : JsMap) (h : DrumHit) :
  wfMap m -> p h = true ->
  map_get (hitKey h) (filterEntries p m) = map_get (hitKey h) m.
Proof.
  intros W Ph. induction m as [|[k v] r IH]; [reflexivity|].
  pose proof (wfMap_tail _ _ W) as Wr.
  destruct W as [_ KV]. inversion KV as [|? ? Kv _]; subst. simpl in Kv.
  unfold filterEntries. cbn [filter snd map_get].
  destruct (String.eqb_spec (hitKey h) k) as [E|N].
  - rewrite (same_key_test h v k Kv E), Ph. cbn [map_get].
    now rewrite (proj2 (String.eqb_eq _ _) E).
  - destruct (p v); cbn [map_get].
    + rewrite (proj2 (String.eqb_neq _ _) N). now apply IH.
    + now apply IH.
Qed.

Lemma map_set_filterEntries_in (m : JsMap) (h : DrumHit) :
  wfMap m -> p h = true ->
  filterEntries p (map_set (hitKey h) h m) =
  map_set (hitKey h) h (filterEntries p m).
Proof.
  intros W Ph. induction m as [|[k v] r IH].
  - unfold filterEntries. simpl. now rewrite Ph.
  - pose proof (wfMap_tail _ _ W) as Wr.
    destruct W as [_ KV]. inversion KV as [|? ? Kv _]; subst. simpl in Kv.
    unfold filterEntries in *. cbn [map_set].
    destruct (String.eqb_spec (hitKey h) k) as [E|N].
    + cbn [filter snd]. rewrite Ph, (same_key_test h v k Kv E), Ph.
      cbn [map_set]. now rewrite (proj2 (String.eqb_eq _ _) E).
    + cbn [filter snd]. destruct (p v); cbn [map_set].
      * rewrite (proj2 (String.eqb_neq _ _) N). f_equal. now apply IH.
      * now apply IH.
Qed.

Lemma map_set_filterEntries_out (m : JsMap) (h : DrumHit) :
  wfMap m -> p h = false ->
  filterEntries p (map_set (hitKey h) h m) = filterEntries p m.
Proof.
  intros W Ph. induction m as [|[k v] r IH].
  - unfold filterEntries. simpl. now rewrite Ph.
  - pose proof (wfMap_tail _ _ W) as Wr.
    destruct W as [_ KV]. inversion KV as [|? ? Kv _]; subst. simpl in Kv.
    unfold filterEntries in *. cbn [map_set].
    destruct (String.eqb_spec (hitKey h) k) as [E|N].
    + cbn [filter snd]. now rewrite Ph, (same_key_test h v k Kv E), Ph.
    + cbn [filter snd]. destruct (p v); [f_equal|]; now apply IH.
Qed.

Lemma dedupStep_filterEntries (m : JsMap) (h : DrumHit) :
  wfMap m ->
  filterEntries p (dedupStep m h) =
  if p h then dedupStep (filterEntries p m) h else filterEntries p m.
Proof.
  intros W. unfold dedupStep. destruct (p h) eqn:Ph.
  - rewrite (map_get_filterEntries m h W Ph).
    destruct (map_get (hitKey h) m) as [existing|].
    + destruct (velocity h >? velocity existing); [|reflexivity].
      now apply map_set_filterEntries_in.
    + now apply map_set_filterEntries_in.
  - destruct (map_get (hitKey h) m) as [existing|].
    + destruct (velocity h >? velocity existing); [|reflexivity].
      now apply map_set_filterEntries_out.
    + now apply map_set_filterEntries_out.
Qed.

Lemma fold_dedup_filterEntries (l : list DrumHit) (m : JsMap) :
  wfMap m ->
  filterEntries p (fold_left dedupStep l m) =
  fold_left dedupStep (filter p l) (filterEntries p m).
Proof.
  revert m. induction l as [|h t IH]; intros m W; [reflexivity|].
  cbn [fold_left filter]. rewrite IH by now apply dedupStep_wf.
  rewrite dedupStep_filterEntries by exact W.
  destruct (p h); reflexivity.
Qed.

Lemma map_values_filterEntries (m : JsMap) :
  map_values (filterEntries p m) = filter p (map_values m).
Proof.
  unfold map_values, filterEntries. induction m as [|[k v] r IH]; [reflexivity|].
  cbn [filter map snd]. destruct (p v); cbn [map snd]; now rewrite IH.
Qed.

Lemma filter_deduplicateHits (l : list DrumHit) :
  filter p (deduplicateHits l) = deduplicateHits (filter p l).
Proof.
  unfold deduplicateHits.
  rewrite filter_sortByTime, <- map_values_filterEntries.
  now rewrite fold_dedup_filterEntries by apply wfMap_nil.
Qed.

(** Selecting the hits that pass a test on the key and assembling can be
    done in either order. *)
Lemma filter_assemble (l : list DrumHit) :
  filter p (assemble l) = assemble (filter p l).
Proof.
  unfold assemble. now rewrite filter_deduplicateHits, filter_sortByTime.
Qed.

End FilterMap.

Lemma drum_eqb_eq (a b : DrumType) : drum_eqb a b = true <-> a = b.
Proof. destruct a, b; simpl; split; intros H; try reflexivity; discriminate. Qed.

Lemma isDrum_slot (d : DrumType) : respectsSlot (isDrum d).
Proof.
  intros a b E. unfold isDrum. injection E as Ed _. now rewrite Ed.
Qed.

(** ** Arrays whose hits are well apart *)

Lemma round_gap (x y : Q) : x + 1 <= y -> (Num.round x < Num.round y)%Z.
Proof.
  intros H. unfold Num.round.
  pose proof (Qfloor_le (x + (1 # 2))) as Lx.
  pose proof (Qlt_floor (y + (1 # 2))) as Ly.
  rewrite inject_Z_plus in Ly.
  assert (L : inject_Z (Qfloor (x + (1 # 2))) < inject_Z (Qfloor (y + (1 # 2)))).
  { change (inject_Z 1) with 1 in Ly. lra. }
  now rewrite <- Zlt_Qlt in L.
Qed.

Lemma timeKey_gap (a b : DrumHit) : gapBefore a b -> (timeKey a < timeKey b)%Z.
Proof.
  unfold gapBefore, timeKey. intros H. apply round_gap. lra.
Qed.

Lemma gapBefore_trans (a b c : DrumHit) :
  gapBefore a b -> gapBefore b c -> gapBefore a c.
Proof. unfold gapBefore. intros; lra. Qed.

Lemma spaced_strong (l : list DrumHit) :
  Sorted gapBefore l -> StronglySorted gapBefore l.
Proof. apply Sorted_StronglySorted. exact gapBefore_trans. Qed.

Lemma spaced_sorted (l : list DrumHit) : Sorted gapBefore l -> sortedByTime l.
Proof.
  intros S. apply spaced_strong in S. unfold sortedByTime.
  induction S as [|x r Sr IH Fx]; constructor; [exact IH|].
  eapply Forall_impl; [|exact Fx]. unfold gapBefore, timeLe. intros; lra.
Qed.

Lemma spaced_keys (l : list DrumHit) : Sorted gapBefore l -> NoDup (map hitKey l).
Proof.
  intros S. apply spaced_strong in S.
  induction S as [|x r Sr IH Fx]; simpl; constructor; [|exact IH].
  intros I. apply in_map_iff in I. destruct I as (y & E & Iy).
  apply hitKey_slot in E. injection E as _ Et.
  pose proof (timeKey_gap x y (proj1 (Forall_forall _ _) Fx y Iy)). lia.
Qed.

(** An array already in time order, with consecutive hits more than a
    millisecond-equivalent apart, is returned by the assembler as it is. *)
Lemma assemble_spaced (l : list DrumHit) : Sorted gapBefore l -> assemble l = l.
Proof.
  intros S. unfold assemble.
  rewrite (sortByTime_fixed l (spaced_sorted l S)).
  rewrite (deduplicateHits_unique l (spaced_keys l S)).
  apply sortByTime_fixed, spaced_sorted, S.
Qed.

(** ** The jitter of [generatePattern] *)

Lemma generatorHumanize_hit (rnd : nat -> Q) (h : DrumHit) (m : nat) :
  unitDraws rnd ->
  jittered h (fst (humanizeHit rnd h
                     (mergeOptions DEFAULT_OPTIONS generatorHumanize) m)).
Proof.
  intros U.
  destruct (humanizeHit_humanizedBy rnd h
              (mergeOptions DEFAULT_OPTIONS generatorHumanize) m)
    as (Dr & Du & Ti & Ve).
  unfold jittered. split; [exact Dr|]. split; [now rewrite Du|].
  eexists. eexists. split; [|split; [|split; [exact Ti | exact Ve]]].
  - destruct (U m). unfold timingOffsetOf, timeJitter.
    apply offset_bound; [assumption | assumption | simpl; lra].
  - destruct (U (S m)). unfold velocityOffsetOf, velocityJitter.
    apply offset_bound; [assumption | assumption | simpl; lra].
Qed.

Lemma mapRand_Forall2 (rnd : nat -> Q) (o : HumanizeOptions)
    (R : DrumHit -> DrumHit -> Prop) :
  (forall h m, R h (fst (humanizeHit rnd h o m))) ->
  forall l n, Forall2 R l (fst (mapRand (fun hit => humanizeHit rnd hit o) l n)).
Proof.
  intros H. induction l as [|x r IH]; intros n.
  - constructor.
  - rewrite mapRand_cons. cbn [fst]. constructor; [apply H | apply IH].
Qed.

Lemma humanizedHits_jittered (rnd : nat -> Q) (s : GeneratorSettings) (n : nat) :
  unitDraws rnd ->
  Forall2 jittered (swungHits rnd s n) (humanizedHits rnd s n).
Proof.
  intros U. unfold humanizedHits.
  rewrite humanizePattern_enabled by reflexivity.
  apply mapRand_Forall2. intros h m. now apply generatorHumanize_hit.
Qed.

Lemma Forall2_filter {A B : Type} (R : A -> B -> Prop)
    (p : A -> bool) (q : B -> bool) (l : list A) (l' : list B) :
  (forall a b, R a b -> p a = q b) ->
  Forall2 R l l' -> Forall2 R (filter p l) (filter q l').
Proof.
  intros H. induction 1 as [|a b r r' Rab _ IH]; [constructor|].
  cbn [filter]. rewrite (H a b Rab). destruct (q b); [constructor|]; assumption.
Qed.

(** The hits of one drum in the returned pattern are the assembled
    humanized hits of that drum. *)
Lemma pattern_drum (rnd : nat -> Q) (s : GeneratorSettings) (n : nat) (d : DrumType) :
  unitDraws rnd ->
  filter (isDrum d) (hits (patternOf rnd s n)) =
    assemble (filter (isDrum d) (humanizedHits rnd s n)) /\
  Forall2 jittered (filter (isDrum d) (swungHits rnd s n))
                   (filter (isDrum d) (humanizedHits rnd s n)).
Proof.
  intros U. split.
  - rewrite generatePattern_hits. apply filter_assemble, isDrum_slot.
  - apply Forall2_filter; [|now apply humanizedHits_jittered].
    intros a b (Dr & _). unfold isDrum. now rewrite Dr.
Qed.

Lemma jittered_hitEq (a a' b : DrumHit) : hitEq a a' -> jittered a b -> jittered a' b.
Proof.
  intros (Ed & Et & Ev & Eu) (Dr & Du & delta & eps & Bd & Be & Ti & Ve).
  unfold jittered. split; [congruence|]. split; [now rewrite Du|].
  exists delta, eps. repeat split; try assumption.
  - now rewrite Ti, Et.
  - rewrite Ve. unfold clamp. now rewrite Ev.
Qed.

Lemma Forall2_jittered_hitEq (l l' m : list DrumHit) :
  Forall2 hitEq l l' -> Forall2 jittered l m -> Forall2 jittered l' m.
Proof.
  intros E. revert m. induction E as [|a a' r r' Ea _ IH]; intros m J.
  - inversion J. constructor.
  - inversion J as [|? b ? m' Jab Jr]; subst.
    constructor; [now apply (jittered_hitEq a) | now apply IH].
Qed.

(** A hit that starts at a non-negative time moves by at most the time
    jitter; its velocity by at most the velocity jitter when it is far
    enough from both clamps. *)
Lemma jittered_time (a b : DrumHit) :
  jittered a b -> 0 <= time a ->
  time a - timeJitter <= time b /\ time b <= time a + timeJitter.
Proof.
  intros (_ & _ & delta & eps & Bd & _ & Ti & _) T.
  apply Qabs_Qle_condition in Bd. rewrite Ti.
  destruct (Q.max_spec 0 (time a + delta)) as [[L E]|[L E]]; rewrite E.
  - lra.
  - unfold timeJitter in *. lra.
Qed.

Lemma jittered_velocity (a b : DrumHit) :
  jittered a b ->
  0.1 + velocityJitter <= velocity a -> velocity a <= 1 - velocityJitter ->
  velocity a - velocityJitter <= velocity b /\
  velocity b <= velocity a + velocityJitter.
Proof.
  intros (_ & _ & delta & eps & _ & Be & _ & Ve) V0 V1.
  apply Qabs_Qle_condition in Be. rewrite Ve. unfold clamp.
  rewrite Q.min_r by lra. rewrite Q.max_r by lra. lra.
Qed.

Lemma jittered_spaced (E H : list DrumHit) :
  Forall2 jittered E H -> Forall (fun h => 0 <= time h) E ->
  Sorted wideGap E -> Sorted gapBefore H.
Proof.
  induction 1 as [|a b r r' Jab Jr IH]; intros N S; [constructor|].
  inversion N as [|? ? Na Nr]; subst.
  inversion S as [|? ? Sr Hd]; subst.
  constructor; [now apply IH|].
  destruct Jr as [|a2 b2 r2 r2' J2 _]; [constructor|].
  inversion Hd as [|? ? W]; subst. inversion Nr as [|? ? Na2 _]; subst.
  constructor. unfold gapBefore, wideGap in *.
  pose proof (jittered_time a b Jab Na) as [_ T1].
  pose proof (jittered_time a2 b2 J2 Na2) as [T2 _].
  unfold timeJitter in *. lra.
Qed.

(** When the hits of a drum leave the swing step as the array [E] (up to
    numeric equality), at non-negative times at least 0.025 beats apart,
    the hits of that drum in the returned pattern are the humanized hits
    of [E], one for one and in the same order. *)
Lemma pattern_drum_spaced (rnd : nat -> Q) (s : GeneratorSettings) (n : nat)
    (d : DrumType) (E : list DrumHit) :
  unitDraws rnd ->
  Forall2 hitEq (filter (isDrum d) (swungHits rnd s n)) E ->
  Forall (fun h => 0 <= time h) E -> Sorted wideGap E ->
  Forall2 jittered E (filter (isDrum d) (hits (patternOf rnd s n))).
Proof.
  intros U HE N S. destruct (pattern_drum rnd s n d U) as (A & J).
  pose proof (Forall2_jittered_hitEq _ _ _ HE J) as J'.
  rewrite A, assemble_spaced; [exact J'|].
  now apply (jittered_spaced E).
Qed.

Lemma hitNear_jittered (d : DrumType) (t v dt dv : Q) (a b : DrumHit) :
  jittered a b -> drum a = d -> time a == t -> velocity a == v ->
  0 <= t -> 0.1 + velocityJitter <= v -> v <= 1 - velocityJitter ->
  timeJitter <= dt -> velocityJitter <= dv ->
  hitNear dt dv d t v b.
Proof.
  intros J Dr Ti Ve T V0 V1 Dt Dv.
  assert (Ta : 0 <= time a) by now rewrite Ti.
  destruct (jittered_time a b J Ta) as (T1 & T2).
  destruct (jittered_velocity a b J) as (W1 & W2); [now rewrite Ve.. |].
  destruct J as (Db & _). unfold hitNear. split; [congruence|].
  rewrite Ti in T1, T2. rewrite Ve in W1, W2.
  split; apply Qabs_Qle_condition; lra.
Qed.

(** ** Explicit arrays of nominal hits *)

Lemma Forall2_cons_l {A B : Type} (R : A -> B -> Prop) (a : A) (l : list A)
    (m : list B) :
  Forall2 R (a :: l) m -> exists b m', m = b :: m' /\ R a b /\ Forall2 R l m'.
Proof. intros H. inversion H; subst. eauto. Qed.

Lemma Forall2_nil_l {A B : Type} (R : A -> B -> Prop) (m : list B) :
  Forall2 R [] m -> m = [].
Proof. intros H. now inversion H. Qed.

(** Side conditions on an explicit array of nominal hits. *)
Ltac nonneg_times :=
  lazymatch goal with
  | |- Forall _ [] => apply Forall_nil
  | |- Forall _ (_ :: _) => apply Forall_cons; [simpl; lra | nonneg_times]
  end.

Ltac wide_gaps :=
  lazymatch goal with
  | |- Sorted _ [] => apply Sorted_nil
  | |- Sorted _ (_ :: _) =>
      apply Sorted_cons;
      [ wide_gaps
      | first [ apply HdRel_nil
              | apply HdRel_cons; unfold wideGap; simpl; lra ] ]
  end.

Ltac jitter_side := unfold timeJitter, velocityJitter; simpl; lra.

(** Evaluates the array on the left of a [Forall2] and compares it with
    the explicit one on the right, hit by hit. *)
Ltac evaluate_hits :=
  match goal with
  | |- Forall2 _ ?l _ =>
      let T := fresh "T" in set (T := l); vm_compute in T; subst T
  end;
  repeat (constructor; [unfold hitEq; simpl; repeat split; reflexivity|]);
  constructor.

Lemma alwaysHalf_unit : unitDraws alwaysHalf.
Proof. intros k. unfold alwaysHalf. split; lra. Qed.

Lemma alwaysQuarter_unit : unitDraws alwaysQuarter.
Proof. intros k. unfold alwaysQuarter. split; lra. Qed.

(** ** The rock example *)

Lemma rockExample_swung (rnd : nat -> Q) (bpm : Q) (n : nat) :
  Forall2 hitEq (filter (isDrum kick) (swungHits rnd (rockExample bpm) n))
                [mkHit kick 0 0.5 0.25; mkHit kick 2 0.475 0.25] /\
  Forall2 hitEq (filter (isDrum snare) (swungHits rnd (rockExample bpm) n))
                [mkHit snare 1 0.5 0.25; mkHit snare 3 0.5 0.25] /\
  Forall2 hitEq (filter (isDrum crash) (swungHits rnd (rockExample bpm) n))
                [mkHit crash 0 0.45 0.5].
Proof. split; [|split]; evaluate_hits. Qed.

(** C8 (as amended).  For rock, 4/4, one bar, complexity 0 and dynamics 0,
    and draws in [0, 1): the kicks of the returned pattern are exactly
    two, near times 0 and 2; its snares are exactly two, near times 1 and
    3 (the backbeat on 2 and 4; no ghost notes); and it has exactly one
    crash, near time 0.  "Near" is within 0.03 beats of the time and
    within 0.15 of the template velocity (0.5, 0.475, 0.5, 0.5, 0.45). *)
Theorem rock_basic_groove (rnd : nat -> Q) (bpm : Q) (n : nat)
    (U : unitDraws rnd) :
  exists k0 k2 s1 s3 c0,
    filter (isDrum kick) (hits (patternOf rnd (rockExample bpm) n)) = [k0; k2] /\
    filter (isDrum snare) (hits (patternOf rnd (rockExample bpm) n)) = [s1; s3] /\
    filter (isDrum crash) (hits (patternOf rnd (rockExample bpm) n)) = [c0] /\
    hitNear 0.03 0.15 kick 0 0.5 k0 /\
    hitNear 0.03 0.15 kick 2 0.475 k2 /\
    hitNear 0.03 0.15 snare 1 0.5 s1 /\
    hitNear 0.03 0.15 snare 3 0.5 s3 /\
    hitNear 0.03 0.15 crash 0 0.45 c0.
Proof.
  destruct (rockExample_swung rnd bpm n) as (K & S & C).
  apply (pattern_drum_spaced rnd _ n kick _ U) in K; [|nonneg_times|wide_gaps].
  apply (pattern_drum_spaced rnd _ n snare _ U) in S; [|nonneg_times|wide_gaps].
  apply (pattern_drum_spaced rnd _ n crash _ U) in C; [|nonneg_times|wide_gaps].
  apply Forall2_cons_l in K. destruct K as (k0 & K1 & Ek & Jk0 & K).
  apply Forall2_cons_l in K. destruct K as (k2 & K2 & Ek2 & Jk2 & K).
  apply Forall2_nil_l in K. subst K2 K1.
  apply Forall2_cons_l in S. destruct S as (s1 & S1 & Es & Js1 & S).
  apply Forall2_cons_l in S. destruct S as (s3 & S2 & Es2 & Js3 & S).
  apply Forall2_nil_l in S. subst S2 S1.
  apply Forall2_cons_l in C. destruct C as (c0 & C1 & Ec & Jc0 & C).
  apply Forall2_nil_l in C. subst C1.
  exists k0, k2, s1, s3, c0.
  split; [exact Ek|]. split; [exact Es|]. split; [exact Ec|].
  split; [|split; [|split; [|split]]].
  all: match goal with
       | |- hitNear _ _ ?d ?t ?v ?b =>
           match goal with
           | J : jittered (mkHit d _ _ _) b |- _ =>
               apply (hitNear_jittered d t v _ _ _ b J);
               first [reflexivity | jitter_side]
           end
       end.
Qed.

Lemma rock_basic_groove_witness :
  unitDraws alwaysQuarter /\
  exists k0 k2 s1 s3 c0,
    filter (isDrum kick) (hits (patternOf alwaysQuarter (rockExample 120) 0)) = [k0; k2] /\
    filter (isDrum snare) (hits (patternOf alwaysQuarter (rockExample 120) 0)) = [s1; s3] /\
    filter (isDrum crash) (hits (patternOf alwaysQuarter (rockExample 120) 0)) = [c0] /\
    hitNear 0.03 0.15 kick 0 0.5 k0 /\
    hitNear 0.03 0.15 kick 2 0.475 k2 /\
    hitNear 0.03 0.15 snare 1 0.5 s1 /\
    hitNear 0.03 0.15 snare 3 0.5 s3 /\
    hitNear 0.03 0.15 crash 0 0.45 c0.
Proof.
  split; [exact alwaysQuarter_unit|].
  exact (rock_basic_groove alwaysQuarter 120 0 alwaysQuarter_unit).
Defined.

(** C8 as stated fails.  With a random source that always yields one half
    the pattern for the rock example has two snares, the second at time 3:
    it is not the case that its only snare is the one near time 1. *)
Lemma rock_second_backbeat_present :
  unitDraws alwaysHalf /\
  ~ singleSnareNearOne (hits (patternOf alwaysHalf (rockExample 120) 0)) /\
  exists s3, In s3 (hits (patternOf alwaysHalf (rockExample 120) 0)) /\
             drum s3 = snare /\ time s3 == 3.
Proof.
  split; [exact alwaysHalf_unit|]. split.
  - intros (s1 & E & _). vm_compute in E. discriminate E.
  - exists (nth 7 (hits (patternOf alwaysHalf (rockExample 120) 0)) downbeatKick).
    split; [|split].
    + apply nth_In. vm_compute. lia.
    + vm_compute. reflexivity.
    + vm_compute. reflexivity.
Qed.

(** ** The electronic example *)

Lemma hitEq_refl h : hitEq h h.
Proof. repeat split; reflexivity. Qed.

Lemma hitEq_trans a b c : hitEq a b -> hitEq b c -> hitEq a c.
Proof.
  intros (A1 & A2 & A3 & A4) (B1 & B2 & B3 & B4). unfold hitEq.
  repeat split; [congruence | now rewrite A2 | now rewrite A3 | now rewrite A4].
Qed.

Section Appends.
Variable rnd : nat -> Q.
Variable p : DrumHit -> bool.

Lemma appends_ret {A : Type} (a : A) : appendsUpTo p (ret a : Tmpl A) [].
Proof. intros s. exists []. simpl. rewrite app_nil_r. split; [reflexivity | constructor]. Qed.

Lemma appends_bind {A B : Type} (m : Tmpl A) (k : A -> Tmpl B) (E1 E2 : list DrumHit) :
  appendsUpTo p m E1 -> (forall a, appendsUpTo p (k a) E2) ->
  appendsUpTo p (bind m k) (E1 ++ E2).
Proof.
  intros Hm Hk s. unfold bind. destruct (Hm s) as (n1 & F1 & R1).
  destruct (m s) as [a s1]. simpl in F1.
  destruct (Hk a s1) as (n2 & F2 & R2).
  exists (n1 ++ n2). rewrite F2, F1, app_assoc. split; [reflexivity|].
  now apply Forall2_app.
Qed.

Lemma appends_push_in (h : DrumHit) : p h = true -> appendsUpTo p (push h) [h].
Proof.
  intros H s. exists [h]. unfold push. cbn [snd buf].
  rewrite filter_app. cbn [filter]. rewrite H.
  split; [reflexivity|]. constructor; [apply hitEq_refl | constructor].
Qed.

Lemma appends_emits {A : Type} (m : Tmpl A) :
  emits (fun h => p h = false) m -> appendsUpTo p m [].
Proof.
  intros H s. destruct (H s) as (new & E & F). exists []. rewrite E, filter_app.
  split; [|constructor]. f_equal. clear E.
  induction F as [|x r Hx _ IH]; cbn [filter]; [reflexivity|].
  rewrite Hx. exact IH.
Qed.

Lemma appends_forRange_O (start : Z) (body : Z -> Tmpl unit) :
  appendsUpTo p (forRange start O body) [].
Proof. apply appends_ret. Qed.

Lemma appends_forRange_S (start : Z) (n : nat) (body : Z -> Tmpl unit)
    (E1 E2 : list DrumHit) :
  appendsUpTo p (body start) E1 ->
  appendsUpTo p (forRange (start + 1) n body) E2 ->
  appendsUpTo p (forRange start (S n) body) (E1 ++ E2).
Proof. intros H1 H2. simpl. apply appends_bind; [exact H1 | intros _; exact H2]. Qed.

Lemma appends_if_true {A : Type} (c : bool) (x y : Tmpl A) (E : list DrumHit) :
  c = true -> appendsUpTo p x E -> appendsUpTo p (if c then x else y) E.
Proof. now intros ->. Qed.

Lemma appends_if_false {A : Type} (c : bool) (x y : Tmpl A) (E : list DrumHit) :
  c = false -> appendsUpTo p y E -> appendsUpTo p (if c then x else y) E.
Proof. now intros ->. Qed.

Lemma appends_when_true (c : bool) (m : Tmpl unit) (E : list DrumHit) :
  c = true -> appendsUpTo p m E -> appendsUpTo p (when c m) E.
Proof. now intros ->. Qed.

Lemma appends_when_false (c : bool) (m : Tmpl unit) :
  c = false -> appendsUpTo p (when c m) [].
Proof. intros ->. apply appends_ret. Qed.

Lemma appends_forLt (bound : Q) (k : nat) (body : Z -> Tmpl unit) (E : list DrumHit) :
  Z.to_nat (Qceiling bound) = k -> appendsUpTo p (forRange 0 k body) E ->
  appendsUpTo p (forLt bound body) E.
Proof. unfold forLt. now intros ->. Qed.

Lemma appends_weaken {A : Type} (m : Tmpl A) (E E' : list DrumHit) :
  appendsUpTo p m E -> Forall2 hitEq E E' -> appendsUpTo p m E'.
Proof.
  intros H EE s. destruct (H s) as (new & F & R). exists new. split; [exact F|].
  clear F H. revert E' EE. induction R as [|a b r r' Rab _ IH]; intros E' EE.
  - inversion EE; subst. constructor.
  - inversion EE as [|? c ? r'' Rbc Rr]; subst.
    constructor; [now apply (hitEq_trans a b c) | now apply IH].
Qed.

Lemma appends_runTemplate (m : Tmpl unit) (E : list DrumHit) (n : nat) :
  appendsUpTo p m E -> Forall2 hitEq (filter p (fst (runTemplate m n))) E.
Proof.
  intros H. unfold runTemplate. destruct (H (mkTS [] n)) as (new & F & R).
  destruct (m (mkTS [] n)) as [u s]. simpl in *. now rewrite F.
Qed.

End Appends.

Ltac drum_literal :=
  cbn [isDrum drum drum_eqb];
  repeat match goal with
         | |- context [if ?c then _ else _] => destruct c
         end;
  reflexivity.

Ltac closed_test := vm_compute; reflexivity.

(** Walks a template whose conditions are closed, collecting the hits
    that pass the test; [unf] unfolds the functions of the template. *)
Ltac appends_walk unf :=
  first
    [ solve [apply appends_emits; unf; emits_walk; drum_literal]
    | lazymatch goal with
      | |- appendsUpTo _ (bind _ _) _ =>
          eapply appends_bind; [appends_walk unf | intros ?; appends_walk unf]
      | |- appendsUpTo _ (push _) _ => apply appends_push_in; reflexivity
      | |- appendsUpTo _ (ret _) _ => apply appends_ret
      | |- appendsUpTo _ (when _ _) _ =>
          first [ apply appends_when_false; closed_test
                | apply appends_when_true; [closed_test | appends_walk unf] ]
      | |- appendsUpTo _ (if _ then _ else _) _ =>
          first [ apply appends_if_true; [closed_test | appends_walk unf]
                | apply appends_if_false; [closed_test | appends_walk unf] ]
      | |- appendsUpTo _ (forLt _ _) _ =>
          eapply appends_forLt; [closed_test | appends_walk unf]
      | |- appendsUpTo _ (forRange _ (S _) _) _ =>
          eapply appends_forRange_S; [appends_walk unf | appends_walk unf]
      | |- appendsUpTo _ (forRange _ O _) _ => apply appends_forRange_O
      | |- _ => progress (unf; cbv zeta); appends_walk unf
      end ].

Ltac unfold_electronic :=
  unfold electronicBar, addFourOnFloorKick, addElectronicSnare,
    addElectronicHihats, addElectronicPercussion, addElectronicFill.

Ltac qeq_closed := unfold Qeq; vm_compute; reflexivity.

Ltac hitEq_side :=
  unfold hitEq; cbn [drum time velocity duration];
  split; [reflexivity|];
  split; [first [reflexivity | qeq_closed]|];
  split; [first [reflexivity | apply Qmult_comp; [reflexivity | qeq_closed] | qeq_closed]|];
  first [reflexivity | qeq_closed].

Ltac hitEq_list :=
  lazymatch goal with
  | |- Forall2 _ [] [] => apply Forall2_nil
  | |- Forall2 _ (_ :: _) (_ :: _) => apply Forall2_cons; [hitEq_side | hitEq_list]
  end.


Ltac explicit_lists :=
  cbv [electronicKicks electronicBackbeats electronicRoll electronicCrash
       kicksOfBar backbeatsOfBar rollNominal rollTime rollVelocity
       regularBars rollSteps flat_map map app].

Lemma electronicExample_swung (rnd : nat -> Q) (bpm dyn : Q) (n : nat) :
  let v := 0.6 + dyn * 0.35 in
  Forall2 hitEq (filter (isDrum kick) (swungHits rnd (electronicExample bpm dyn) n))
                (electronicKicks v) /\
  Forall2 hitEq (filter (isDrum snare) (swungHits rnd (electronicExample bpm dyn) n))
                (electronicBackbeats v ++ electronicRoll v) /\
  Forall2 hitEq (filter (isDrum crash) (swungHits rnd (electronicExample bpm dyn) n))
                (electronicCrash v).
Proof.
  intros v.
  change (swungHits rnd (electronicExample bpm dyn) n)
    with (fst (runTemplate
                 (forLt 8 (electronicBar rnd (getBeatsPerBar "4/4") 0.7 dyn v)) n)).
  split; [|split]; apply appends_runTemplate; eapply appends_weaken.
  - appends_walk unfold_electronic.
  - explicit_lists; hitEq_list.
  - appends_walk unfold_electronic.
  - explicit_lists; hitEq_list.
  - appends_walk unfold_electronic.
  - explicit_lists; hitEq_list.
Qed.

Lemma Forall2_In_r {A B : Type} (R : A -> B -> Prop) (l : list A) (m : list B) (b : B) :
  Forall2 R l m -> In b m -> exists a, In a l /\ R a b.
Proof.
  induction 1 as [|x y r r' Rxy _ IH]; intros I; [contradiction|].
  destruct I as [<-|I].
  - exists x. split; [now left | exact Rxy].
  - destruct (IH I) as (a & Ia & Ra). exists a. split; [now right | exact Ra].
Qed.

Lemma Forall2_map_In {A B C : Type} (R : B -> C -> Prop) (S : A -> C -> Prop)
    (f : A -> B) (l : list A) (m : list C) :
  Forall2 R (map f l) m -> (forall i h, In i l -> R (f i) h -> S i h) ->
  Forall2 S l m.
Proof.
  revert m. induction l as [|i r IH]; intros m F H; cbn [map] in F.
  - apply Forall2_nil_l in F. subst. constructor.
  - apply Forall2_cons_l in F. destruct F as (b & m' & -> & Rb & F).
    constructor; [apply H; [now left | exact Rb]|].
    apply IH; [exact F|]. intros j h Ij. apply H. now right.
Qed.

(** ** The swing step inside [generatePattern] *)

(** The remainder of a negative time is not positive, so that such a
    time is never near the offbeat. *)
Lemma rem1_negative (t : Q) : t < 0 -> t %% 1 <= 0.
Proof.
  intros H. unfold Num.rem, Num.trunc.
  assert (E : (t / 1 <? 0) = true).
  { apply ltb_true. unfold Qdiv. setoid_replace (t * / 1) with t; [exact H|].
    field. }
  rewrite E.
  assert (E' : Qceiling (t / 1) = Qceiling t).
  { apply Qceiling_comp. field. }
  rewrite E'. pose proof (Qle_ceiling t). lra.
Qed.

(** What [swingHit] does to one hit, read off the strict test of the
    source. *)
Lemma swingHit_cases (amount : Q) (h : DrumHit) :
  (Qabs (time h %% 1 - 0.5) < 0.1 ->
     swingHit amount h = withTime h (time h + 0.17 * amount)) /\
  (0.1 <= Qabs (time h %% 1 - 0.5) -> swingHit amount h = h).
Proof.
  unfold swingHit. cbv zeta.
  destruct (Num.abs (time h %% 1 - 0.5) <? 0.1) eqn:E.
  - apply ltb_true in E. rewrite abs_Qabs in E.
    split; [reflexivity | intros N; lra].
  - apply ltb_false in E. rewrite abs_Qabs in E.
    split; [intros N; lra | reflexivity].
Qed.

(** The pipeline of [generatePattern], with the swing step of the style
    written [swing]. *)
Lemma generatePattern_generateWith
    (rnd : nat -> Q) (s : GeneratorSettings) (n : nat)
    (swing : list DrumHit -> list DrumHit) :
  (forall l, applySwing (kitStyle s) l = swing l) ->
  generatePattern rnd s n = generateWith swing rnd s n.
Proof.
  intros A. unfold generatePattern, generateWith, sortedHits, bind, ret.
  destruct (generateBasePattern rnd s n) as [template n1].
  rewrite A.
  destruct (humanizePattern rnd (swing template) generatorHumanize n1)
    as [humanized n2].
  reflexivity.
Qed.

Lemma pattern_tracesBack
    (rnd : nat -> Q) (s : GeneratorSettings) (n : nat) (f : DrumHit -> DrumHit) :
  unitDraws rnd ->
  (forall l, applySwing (kitStyle s) l = map f l) ->
  tracesBack f rnd s n.
Proof.
  intros U A h I. rewrite generatePattern_hits in I. apply assemble_In in I.
  destruct (Forall2_In_r _ _ _ h (humanizedHits_jittered rnd s n U) I)
    as (a & Ia & Ja).
  unfold swungHits, templateHits in Ia. rewrite A in Ia.
  apply in_map_iff in Ia. destruct Ia as (h0 & <- & I0).
  exists h0. split; assumption.
Qed.

(** C5.  [swingPattern] keeps the length and the order of the array and
    treats each hit on its own, whatever its time: a hit whose
    [time % 1] is closer than 0.1 to 0.5 gets its time increased by
    exactly [0.17 * amount], all other fields kept; a hit whose
    [time % 1] is further than 0.1 from 0.5 is returned as it is; and no
    hit is changed in any other way (at a distance of exactly 0.1 the
    strict test of the source decides, and the statement leaves it open).
    On a non-negative time [time % 1] is the fractional part; a hit at a
    negative time is never moved.
    Inside [generatePattern] the step is applied between the template
    and humanization, as [swingPattern] with amount 0.6 for jazz and 0.5
    for lofi, and not at all for rock, electronic and latin: the value
    returned is that of the pipeline with that step and, for random draws
    in [0, 1), every returned hit is within the jitter of humanization of
    a swung hit of the template (jazz, lofi) or of a hit of the template
    itself (rock, electronic, latin).  The step shows in what is
    returned: the snare that the jazz template puts at 15.5 comes back at
    15.602, and the ride that the lofi template puts at 3.5 in 7/8 comes
    back at 3.585. *)
Theorem swing_behaviour
    (rnd : nat -> Q) (n : nat) (l : list DrumHit) (amount : Q)
    (ts : string) (bpm bars cx dyn : Q) :
  List.length (swingPattern l amount) = List.length l /\
  Forall2 (fun h h' =>
             (Qabs (time h %% 1 - 0.5) < 0.1 ->
                h' = withTime h (time h + 0.17 * amount)) /\
             (0.1 < Qabs (time h %% 1 - 0.5) -> h' = h) /\
             (h' = withTime h (time h + 0.17 * amount) \/ h' = h) /\
             (0 <= time h -> time h %% 1 == mod1 (time h)) /\
             (time h < 0 -> h' = h))
          l (swingPattern l amount) /\
  (generatePattern rnd (mkSettings "jazz" ts bpm bars cx dyn) n =
     generateWith (fun l => swingPattern l 0.6) rnd
       (mkSettings "jazz" ts bpm bars cx dyn) n /\
   generatePattern rnd (mkSettings "lofi" ts bpm bars cx dyn) n =
     generateWith (fun l => swingPattern l 0.5) rnd
       (mkSettings "lofi" ts bpm bars cx dyn) n /\
   generatePattern rnd (mkSettings "rock" ts bpm bars cx dyn) n =
     generateWith (fun l => l) rnd (mkSettings "rock" ts bpm bars cx dyn) n /\
   generatePattern rnd (mkSettings "electronic" ts bpm bars cx dyn) n =
     generateWith (fun l => l) rnd
       (mkSettings "electronic" ts bpm bars cx dyn) n /\
   generatePattern rnd (mkSettings "latin" ts bpm bars cx dyn) n =
     generateWith (fun l => l) rnd (mkSettings "latin" ts bpm bars cx dyn) n) /\
  (unitDraws rnd ->
   tracesBack (swingHit 0.6) rnd (mkSettings "jazz" ts bpm bars cx dyn) n /\
   tracesBack (swingHit 0.5) rnd (mkSettings "lofi" ts bpm bars cx dyn) n /\
   tracesBack (fun h => h) rnd (mkSettings "rock" ts bpm bars cx dyn) n /\
   tracesBack (fun h => h) rnd (mkSettings "electronic" ts bpm bars cx dyn) n /\
   tracesBack (fun h => h) rnd (mkSettings "latin" ts bpm bars cx dyn) n) /\
  (exists h, In h (hits (patternOf alwaysHalf jazzFillExample 0)) /\
             drum h = snare /\ time h == 15.5 + 0.17 * 0.6) /\
  (exists h, In h (hits (patternOf alwaysHalf lofiOddBarExample 0)) /\
             drum h = ride /\ time h == 3.5 + 0.17 * 0.5).
Proof.
  split; [apply List.length_map|].
  split.
  { unfold swingPattern. induction l as [|h r IH]; cbn [map]; constructor;
      [|exact IH].
    destruct (swingHit_cases amount h) as (Near & Far).
    split; [exact Near|]. split; [intros F; apply Far; lra|].
    split.
    - destruct (Qlt_le_dec (Qabs (time h %% 1 - 0.5)) 0.1) as [N|N];
        [left; now apply Near | right; now apply Far].
    - split; [apply rem1_mod1|].
      intros Neg. apply Far. pose proof (rem1_negative _ Neg) as R.
      rewrite Qabs_neg by lra. lra. }
  split.
  { repeat split; apply generatePattern_generateWith; intros x; reflexivity. }
  split.
  { intros U.
    split; [apply pattern_tracesBack; [exact U | intros x; reflexivity]|].
    split; [apply pattern_tracesBack; [exact U | intros x; reflexivity]|].
    assert (I : forall x : list DrumHit, x = map (fun h => h) x)
      by (intros x; symmetry; apply map_id).
    split; [apply pattern_tracesBack; [exact U | exact I]|].
    split; apply pattern_tracesBack; try exact U; exact I. }
  split.
  - exists (nth 55 (hits (patternOf alwaysHalf jazzFillExample 0)) downbeatKick).
    split; [apply nth_In; vm_compute; lia|].
    split; vm_compute; reflexivity.
  - exists (nth 7 (hits (patternOf alwaysHalf lofiOddBarExample 0)) downbeatKick).
    split; [apply nth_In; vm_compute; lia|].
    split; vm_compute; reflexivity.
Qed.

Lemma swing_behaviour_witness :
  unitDraws alwaysHalf /\
  Qabs (time offbeatRide %% 1 - 0.5) < 0.1 /\
  0.1 < Qabs (time downbeatKick %% 1 - 0.5) /\
  Forall2 (fun h h' =>
             (Qabs (time h %% 1 - 0.5) < 0.1 ->
                h' = withTime h (time h + 0.17 * 0.6)) /\
             (0.1 < Qabs (time h %% 1 - 0.5) -> h' = h) /\
             (h' = withTime h (time h + 0.17 * 0.6) \/ h' = h) /\
             (0 <= time h -> time h %% 1 == mod1 (time h)) /\
             (time h < 0 -> h' = h))
          [downbeatKick; offbeatRide]
          (swingPattern [downbeatKick; offbeatRide] 0.6) /\
  tracesBack (swingHit 0.6) alwaysHalf (mkSettings "jazz" "4/4" 120 1 0.5 0.5) 0.
Proof.
  pose proof alwaysHalf_unit as U.
  split; [exact U|].
  split; [vm_compute; reflexivity|].
  split; [vm_compute; reflexivity|].
  pose proof (swing_behaviour alwaysHalf 0 [downbeatKick; offbeatRide] 0.6
                "4/4" 120 1 0.5 0.5) as (_ & Each & _ & Trace & _).
  split; [exact Each | exact (proj1 (Trace U))].
Defined.

Lemma pattern_drum_members (rnd : nat -> Q) (s : GeneratorSettings) (n : nat)
    (d : DrumType) (E : list DrumHit) (h : DrumHit) :
  unitDraws rnd ->
  Forall2 hitEq (filter (isDrum d) (swungHits rnd s n)) E ->
  In h (filter (isDrum d) (hits (patternOf rnd s n))) ->
  exists a, In a E /\ jittered a h.
Proof.
  intros U HE I. destruct (pattern_drum rnd s n d U) as (A & J).
  rewrite A in I. apply assemble_In in I.
  exact (Forall2_In_r _ _ _ h (Forall2_jittered_hitEq _ _ _ HE J) I).
Qed.

Ltac qlra := unfold inject_Z, Qdiv in *; cbn [Qinv Qnum Qden] in *; lra.

Lemma jittered_before (T : Q) (E H : list DrumHit) :
  Forall2 jittered E H ->
  Forall (fun a => 0 <= time a /\ time a <= T) E ->
  Forall (fun h => time h <= T + timeJitter) H.
Proof.
  induction 1 as [|a b r r' Jab _ IH]; intros F; [constructor|].
  inversion F as [|? ? [A0 A1] Fr]; subst.
  constructor; [|now apply IH].
  destruct (jittered_time a b Jab A0). lra.
Qed.

Ltac in_cases I :=
  repeat (destruct I as [I|I]; [subst|]); try contradiction.

Lemma electronicKicks_times (v : Q) :
  Forall (fun a => 0 <= time a /\ time a <= 27) (electronicKicks v).
Proof.
  explicit_lists. repeat (apply Forall_cons; [cbn [time]; split; qlra|]).
  apply Forall_nil.
Qed.

Lemma electronicBackbeats_times (v : Q) :
  Forall (fun a => 0 <= time a /\ time a <= 27) (electronicBackbeats v).
Proof.
  explicit_lists. repeat (apply Forall_cons; [cbn [time]; split; qlra|]).
  apply Forall_nil.
Qed.

Lemma roll_near (v : Q) (i : Z) (h : DrumHit) :
  0.6 <= v -> v <= 0.95 -> In i rollSteps -> jittered (rollNominal v i) h ->
  hitNear timeJitter velocityJitter snare (rollTime i) (rollVelocity v i) h.
Proof.
  intros V0 V1 I J. unfold rollSteps in I. cbn [In] in I.
  in_cases I;
    (apply (hitNear_jittered _ _ _ _ _ _ h J);
       [ reflexivity | reflexivity | reflexivity
       | unfold rollTime; qlra
       | unfold rollVelocity, velocityJitter; qlra
       | unfold rollVelocity, velocityJitter; qlra
       | lra | lra ]).
Qed.

(** C7 (as amended).  For electronic, 4/4, eight bars, complexity 0.7,
    dynamics in [0, 1] and draws in [0, 1), with [v = 0.6 + 0.35 * dynamics]
    the base velocity: no kick of the returned pattern is at time 28 or
    later; its snares are backbeats before time 28 followed by exactly
    sixteen roll hits, the [i]-th within 0.012 beats of [30 + i * 0.125]
    and within 0.045 of the nominal velocity [v * (0.3 + 0.7 * i / 16)];
    and it has exactly one crash, within 0.012 beats of time 32 and within
    0.045 of [v].  The nominal velocities rise by [0.04375 * v] a step,
    from [0.3 * v] to [0.95625 * v]. *)
Theorem electronic_breakdown (rnd : nat -> Q) (bpm dyn : Q) (n : nat)
    (U : unitDraws rnd) (D0 : 0 <= dyn) (D1 : dyn <= 1) :
  let v := 0.6 + dyn * 0.35 in
  let out := hits (patternOf rnd (electronicExample bpm dyn) n) in
  Forall (fun h => time h < 28) (filter (isDrum kick) out) /\
  (exists backbeats roll,
     filter (isDrum snare) out = backbeats ++ roll /\
     Forall (fun h => time h < 28) backbeats /\
     Forall2 (fun i h => hitNear timeJitter velocityJitter snare
                           (rollTime i) (rollVelocity v i) h)
             rollSteps roll) /\
  (exists c, filter (isDrum crash) out = [c] /\
             hitNear timeJitter velocityJitter crash 32 v c) /\
  rollVelocity v 0 == v * 0.3 /\ rollVelocity v 15 == v * 0.95625 /\
  forall i, rollVelocity v (i + 1) - rollVelocity v i == v * 0.04375.
Proof.
  intros v out.
  assert (V0 : 0.6 <= v) by (unfold v; lra).
  assert (V1 : v <= 0.95) by (unfold v; lra).
  destruct (electronicExample_swung rnd bpm dyn n) as (K & S & C).
  fold v in K, S, C.
  split; [|split; [|split]].
  - apply Forall_forall. intros h I.
    destruct (pattern_drum_members rnd _ n kick _ h U K I) as (a & Ia & Ja).
    pose proof (proj1 (Forall_forall _ _) (electronicKicks_times v) a Ia) as [A0 A1].
    destruct (jittered_time a h Ja A0). unfold timeJitter in *. lra.
  - apply (pattern_drum_spaced rnd _ n snare _ U) in S.
    + apply Forall2_app_inv_l in S.
      destruct S as (B & R & FB & FR & E).
      exists B, R. split; [exact E|]. split.
      * eapply Forall_impl;
          [|exact (jittered_before 27 _ _ FB (electronicBackbeats_times v))].
        unfold timeJitter. cbn beta. intros; lra.
      * apply (Forall2_map_In jittered _ (rollNominal v)); [exact FR|].
        intros i h Ii J. now apply roll_near.
    + explicit_lists. repeat (apply Forall_cons; [cbn [time]; qlra|]). apply Forall_nil.
    + explicit_lists.
      repeat (apply Sorted_cons;
              [| first [apply HdRel_nil
                       | apply HdRel_cons; unfold wideGap; cbn [time]; qlra]]).
      apply Sorted_nil.
  - apply (pattern_drum_spaced rnd _ n crash _ U) in C;
      [| unfold electronicCrash; nonneg_times | unfold electronicCrash; wide_gaps].
    unfold electronicCrash in C.
    apply Forall2_cons_l in C. destruct C as (c & C1 & Ec & Jc & C).
    apply Forall2_nil_l in C. subst C1.
    exists c. split; [exact Ec|].
    apply (hitNear_jittered _ _ _ _ _ _ c Jc);
      first [reflexivity | unfold velocityJitter; lra | lra].
  - unfold rollVelocity. split; [qlra|]. split; [qlra|].
    intros i. rewrite inject_Z_plus. unfold Qdiv. change (inject_Z 1) with 1.
    field.
Qed.

Lemma ascendingFrom_test (t0 : Q) (d : DrumType) (l : list DrumHit) :
  ascendingFrom t0 d l -> ascendingFromb t0 d l = true.
Proof.
  intros H. unfold ascendingFromb.
  apply forallb_forall. intros a Ia. apply forallb_forall. intros b Ib.
  destruct (isDrum d a && isDrum d b && Qle_bool t0 (time a) && (time a <? time b))
    eqn:C; [|reflexivity].
  apply andb_prop in C. destruct C as (C & Lt).
  apply andb_prop in C. destruct C as (C & Le).
  apply andb_prop in C. destruct C as (Da & Db).
  simpl. apply Qle_bool_iff. apply (H a b Ia Ib).
  - now apply drum_eqb_eq.
  - now apply drum_eqb_eq.
  - now apply Qle_bool_iff.
  - now apply ltb_true.
Qed.

Lemma zigzag_unit : unitDraws zigzag.
Proof.
  intros k. unfold zigzag.
  destruct (Nat.even k); [split; lra|].
  destruct (Nat.even (Nat.div2 k)); split; lra.
Qed.

(** C7 as stated fails on "velocity-ascending for every outcome of the
    random source".  Under a source that alternates high and low values
    the roll of the returned pattern has a later snare that is quieter
    than an earlier one: humanization moves each velocity by up to 0.045,
    more than the nominal step. *)
Lemma electronic_roll_not_ascending :
  unitDraws zigzag /\
  ~ ascendingFrom 28 snare (hits (patternOf zigzag (electronicExample 120 0.5) 0)).
Proof.
  split; [exact zigzag_unit|].
  intros H. apply ascendingFrom_test in H. vm_compute in H. discriminate H.
Qed.

Lemma electronic_breakdown_witness :
  (unitDraws alwaysQuarter /\ 0 <= 0.5 /\ 0.5 <= 1) /\
  let v := 0.6 + 0.5 * 0.35 in
  let out := hits (patternOf alwaysQuarter (electronicExample 120 0.5) 0) in
  Forall (fun h => time h < 28) (filter (isDrum kick) out) /\
  (exists backbeats roll,
     filter (isDrum snare) out = backbeats ++ roll /\
     Forall (fun h => time h < 28) backbeats /\
     Forall2 (fun i h => hitNear timeJitter velocityJitter snare
                           (rollTime i) (rollVelocity v i) h)
             rollSteps roll) /\
  (exists c, filter (isDrum crash) out = [c] /\
             hitNear timeJitter velocityJitter crash 32 v c) /\
  rollVelocity v 0 == v * 0.3 /\ rollVelocity v 15 == v * 0.95625 /\
  forall i, rollVelocity v (i + 1) - rollVelocity v i == v * 0.04375.
Proof.
  assert (D0 : 0 <= 0.5) by lra.
  assert (D1 : 0.5 <= 1) by lra.
  split; [split; [exact alwaysQuarter_unit | split; assumption]|].
  exact (electronic_breakdown alwaysQuarter 120 0.5 0 alwaysQuarter_unit D0 D1).
Defined.

(** ** The crash that ends the last fill *)

Section Pushes.
Variable h : DrumHit.

Lemma pushes_push : pushes h (push h).
Proof. intros s. unfold push. cbn [snd buf]. apply in_or_app. right. now left. Qed.

Lemma pushes_bind_l {A B : Type} (m : Tmpl A) (k : A -> Tmpl B) :
  pushes h m -> (forall a, emits (fun _ => True) (k a)) -> pushes h (bind m k).
Proof.
  intros Hm Hk s. unfold bind. specialize (Hm s). destruct (m s) as [a s1].
  destruct (Hk a s1) as (new & E & _). rewrite E. apply in_or_app. now left.
Qed.

Lemma pushes_bind_r {A B : Type} (m : Tmpl A) (k : A -> Tmpl B) :
  (forall a, pushes h (k a)) -> pushes h (bind m k).
Proof. intros Hk s. unfold bind. destruct (m s) as [a s1]. apply Hk. Qed.

Lemma pushes_forRange_last (body : Z -> Tmpl unit) (n : nat) (start : Z) :
  pushes h (body (start + Z.of_nat n)%Z) -> pushes h (forRange start (S n) body).
Proof.
  revert start. induction n as [|n IH]; intros start H.
  - cbn [forRange]. apply pushes_bind_l; [|intros _; apply emits_ret].
    now rewrite Z.add_0_r in H.
  - change (forRange start (S (S n)) body)
      with (bind (body start) (fun _ => forRange (start + 1) (S n) body)).
    apply pushes_bind_r. intros _. apply IH.
    replace (start + 1 + Z.of_nat n)%Z with (start + Z.of_nat (S n))%Z by lia.
    exact H.
Qed.

End Pushes.

Lemma electronic_last_bar (rnd : nat -> Q) (bpb cx dyn v : Q) (bar : Z) :
  0.6 < cx -> Z.rem (bar + 1) 8 = 0%Z ->
  pushes (mkHit crash (inject_Z bar * bpb + bpb) v 0.5)
         (electronicBar rnd bpb cx dyn v bar).
Proof.
  intros C R. unfold electronicBar. cbv zeta.
  rewrite (proj2 (gtb_true cx 0.6) C), R. cbn [andb Z.eqb when].
  do 4 (apply pushes_bind_r; intros ?).
  unfold addElectronicFill. cbv zeta.
  apply pushes_bind_r; intros ?. apply pushes_push.
Qed.

Lemma jazz_last_bar (rnd : nat -> Q) (bpb cx dyn v : Q) (bar : Z) :
  0.5 < cx -> Z.rem (bar + 1) 4 = 0%Z ->
  pushes (mkHit crash (inject_Z bar * bpb + bpb) (v * 0.7) 0.5)
         (jazzBar rnd bpb cx dyn v bar).
Proof.
  intros C R. unfold jazzBar. cbv zeta.
  rewrite (proj2 (gtb_true cx 0.5) C), R. cbn [andb Z.eqb when].
  do 4 (apply pushes_bind_r; intros ?).
  unfold addJazzFill. cbv zeta.
  apply pushes_bind_r; intros ?. apply pushes_push.
Qed.

Lemma pushes_runTemplate (h : DrumHit) (m : Tmpl unit) (n : nat) :
  pushes h m -> In h (fst (runTemplate m n)).
Proof.
  intros H. unfold runTemplate. specialize (H (mkTS [] n)).
  destruct (m (mkTS [] n)) as [u s]. exact H.
Qed.

Lemma round_close (x y : Q) : Num.round x = Num.round y -> x - 1 < y.
Proof.
  unfold Num.round. intros E.
  pose proof (Qfloor_le (y + (1 # 2))) as Ly.
  pose proof (Qlt_floor (x + (1 # 2))) as Lx.
  rewrite E, inject_Z_plus in Lx. change (inject_Z 1) with 1 in Lx. lra.
Qed.

Lemma swingHit_later (amount : Q) (h : DrumHit) :
  0 <= amount -> time h <= time (swingHit amount h).
Proof.
  intros A. unfold swingHit. destruct (_ <? _); cbn [withTime time]; lra.
Qed.

Lemma swungHits_later (rnd : nat -> Q) (s : GeneratorSettings) (n : nat) (c : DrumHit) :
  In c (templateHits rnd s n) ->
  exists c1, In c1 (swungHits rnd s n) /\ time c <= time c1.
Proof.
  intros I. unfold swungHits, applySwing, swingPattern.
  destruct (String.eqb (kitStyle s) "jazz").
  - exists (swingHit 0.6 c). split; [now apply in_map | apply swingHit_later; lra].
  - destruct (String.eqb (kitStyle s) "lofi").
    + exists (swingHit 0.5 c). split; [now apply in_map | apply swingHit_later; lra].
    + exists c. split; [exact I | lra].
Qed.

Lemma humanizedHits_pushed_late (s : GeneratorSettings) (n : nat) (c1 : DrumHit) :
  In c1 (swungHits alwaysThreeQuarters s n) ->
  exists c2, In c2 (humanizedHits alwaysThreeQuarters s n) /\
             time c1 + 0.006 <= time c2.
Proof.
  intros I. apply In_nth_error in I. destruct I as (i & Hi).
  unfold humanizedHits. rewrite humanizePattern_enabled by reflexivity.
  set (o := mergeOptions DEFAULT_OPTIONS generatorHumanize).
  set (n1 := snd (generateBasePattern alwaysThreeQuarters s n)).
  destruct (mapRand_humanize alwaysThreeQuarters o
              (swungHits alwaysThreeQuarters s n) n1) as (_ & _ & Ei).
  specialize (Ei i c1 Hi).
  exists (fst (humanizeHit alwaysThreeQuarters c1 o (n1 + 2 * i)%nat)).
  split; [eapply nth_error_In; exact Ei|].
  rewrite humanizeHit_run. cbn [fst withTimeVelocity time].
  match goal with |- _ <= Num.max 0 ?t => destruct (max_spec 0 t) as (_ & M & _) end.
  unfold timingOffsetOf, alwaysThreeQuarters in *. cbn [timingVariation o mergeOptions generatorHumanize orDefault timingVariation_opt] in *.
  lra.
Qed.

Lemma assemble_keeps_late (l : list DrumHit) (c2 : DrumHit) :
  In c2 l -> exists h, In h (assemble l) /\ time c2 - 0.001 < time h.
Proof.
  intros I. unfold assemble.
  apply (Permutation_in _ (Permutation_sym (sortByTime_perm l))) in I.
  destruct (deduplicateHits_covers _ c2 I) as (h & Ih & E & _).
  exists h. split; [exact Ih|].
  injection E as _ Et. unfold timeKey in Et. symmetry in Et.
  apply round_close in Et. lra.
Qed.

Lemma alwaysThreeQuarters_unit : unitDraws alwaysThreeQuarters.
Proof. intros k. unfold alwaysThreeQuarters. split; lra. Qed.

(** A hit the template places at time [L] or later is followed, under the
    source that always yields three quarters, by a hit of the returned
    pattern later than [L]. *)
Lemma late_hit_survives (s : GeneratorSettings) (n : nat) (c : DrumHit) (L : Q) :
  In c (templateHits alwaysThreeQuarters s n) -> L <= time c ->
  exists h, In h (hits (patternOf alwaysThreeQuarters s n)) /\ L <= time h.
Proof.
  intros I T.
  destruct (swungHits_later _ s n c I) as (c1 & I1 & T1).
  destruct (humanizedHits_pushed_late s n c1 I1) as (c2 & I2 & T2).
  destruct (assemble_keeps_late _ c2 I2) as (h & Ih & Th).
  exists h. rewrite generatePattern_hits. split; [exact Ih | lra].
Qed.

Lemma pattern_length (rnd : nat -> Q) (s : GeneratorSettings) (n : nat) :
  lengthInBeats (patternOf rnd s n) = bars s * getBeatsPerBar (s_timeSignature s).
Proof.
  unfold patternOf, generatePattern, bind, ret.
  destruct (sortedHits rnd s n). reflexivity.
Qed.

Lemma electronic_template_crash (rnd : nat -> Q) (ts : string) (bpm cx dyn : Q)
    (n : nat) :
  0.6 < cx ->
  In (mkHit crash (inject_Z 7 * getBeatsPerBar ts + getBeatsPerBar ts)
            (0.6 + dyn * 0.35) 0.5)
     (templateHits rnd (mkSettings "electronic" ts bpm 8 cx dyn) n).
Proof.
  intros C.
  change (templateHits rnd (mkSettings "electronic" ts bpm 8 cx dyn) n)
    with (fst (runTemplate
                 (forRange 0 8 (electronicBar rnd (getBeatsPerBar ts) cx dyn
                                               (0.6 + dyn * 0.35))) n)).
  apply pushes_runTemplate, pushes_forRange_last.
  now apply electronic_last_bar.
Qed.

Lemma jazz_template_crash (rnd : nat -> Q) (ts : string) (bpm cx dyn : Q)
    (k : Z) (n : nat) :
  0.5 < cx -> (0 < k)%Z ->
  In (mkHit crash (inject_Z (4 * k - 1) * getBeatsPerBar ts + getBeatsPerBar ts)
            ((0.4 + dyn * 0.4) * 0.7) 0.5)
     (templateHits rnd (mkSettings "jazz" ts bpm (inject_Z (4 * k)) cx dyn) n).
Proof.
  intros C K.
  change (templateHits rnd (mkSettings "jazz" ts bpm (inject_Z (4 * k)) cx dyn) n)
    with (fst (runTemplate
                 (forRange 0 (Z.to_nat (Qceiling (inject_Z (4 * k))))
                    (jazzBar rnd (getBeatsPerBar ts) cx dyn (0.4 + dyn * 0.4))) n)).
  rewrite Qceiling_Z.
  replace (Z.to_nat (4 * k)) with (S (Z.to_nat (4 * k - 1))) by lia.
  apply pushes_runTemplate, pushes_forRange_last.
  replace (0 + Z.of_nat (Z.to_nat (4 * k - 1)))%Z with (4 * k - 1)%Z by lia.
  apply jazz_last_bar; [exact C|].
  replace (4 * k - 1 + 1)%Z with (k * 4)%Z by lia.
  apply Z.rem_mul. lia.
Qed.

(** C10.  Patterns are not confined to [0, lengthInBeats).  For electronic
    with eight bars and complexity above 0.6, and for jazz with a positive
    multiple of four bars and complexity above 0.5, whatever the time
    signature and the dynamics: the template places a crash at time
    [bars * beatsPerBar] for every random source, and for some random
    source with draws in [0, 1) the returned pattern has a hit whose time
    is at least [lengthInBeats]. *)
Theorem fill_crash_beyond_length (ts : string) (bpm cx dyn : Q) (k : Z) (n : nat) :
  let electronic := mkSettings "electronic" ts bpm 8 cx dyn in
  let jazz := mkSettings "jazz" ts bpm (inject_Z (4 * k)) cx dyn in
  (0.6 < cx ->
   (forall rnd, exists c,
      In c (templateHits rnd electronic n) /\ drum c = crash /\
      time c == bars electronic * getBeatsPerBar ts) /\
   exists rnd h, unitDraws rnd /\
      In h (hits (patternOf rnd electronic n)) /\
      lengthInBeats (patternOf rnd electronic n) <= time h) /\
  (0.5 < cx -> (0 < k)%Z ->
   (forall rnd, exists c,
      In c (templateHits rnd jazz n) /\ drum c = crash /\
      time c == bars jazz * getBeatsPerBar ts) /\
   exists rnd h, unitDraws rnd /\
      In h (hits (patternOf rnd jazz n)) /\
      lengthInBeats (patternOf rnd jazz n) <= time h).
Proof.
  intros electronic jazz. split.
  - intros C.
    assert (T : forall rnd, exists c,
      In c (templateHits rnd electronic n) /\ drum c = crash /\
      time c == bars electronic * getBeatsPerBar ts).
    { intros rnd. eexists. split; [now apply electronic_template_crash|].
      split; [reflexivity|]. cbn [time bars electronic]. unfold inject_Z. ring. }
    split; [exact T|].
    destruct (T alwaysThreeQuarters) as (c & Ic & _ & Tc).
    destruct (late_hit_survives electronic n c (bars electronic * getBeatsPerBar ts) Ic)
      as (h & Ih & Th); [rewrite Tc; lra|].
    exists alwaysThreeQuarters, h. split; [exact alwaysThreeQuarters_unit|].
    split; [exact Ih|]. now rewrite pattern_length.
  - intros C K.
    assert (T : forall rnd, exists c,
      In c (templateHits rnd jazz n) /\ drum c = crash /\
      time c == bars jazz * getBeatsPerBar ts).
    { intros rnd. eexists. split; [now apply jazz_template_crash|].
      split; [reflexivity|]. cbn [time bars jazz].
      replace (4 * k)%Z with ((4 * k - 1) + 1)%Z at 2 by lia.
      rewrite (inject_Z_plus (4 * k - 1) 1). change (inject_Z 1) with 1. ring. }
    split; [exact T|].
    destruct (T alwaysThreeQuarters) as (c & Ic & _ & Tc).
    destruct (late_hit_survives jazz n c (bars jazz * getBeatsPerBar ts) Ic)
      as (h & Ih & Th); [rewrite Tc; lra|].
    exists alwaysThreeQuarters, h. split; [exact alwaysThreeQuarters_unit|].
    split; [exact Ih|]. now rewrite pattern_length.
Qed.

Lemma fill_crash_beyond_length_witness :
  (0.6 < 0.7 /\ 0.5 < 0.7 /\ (0 < 1)%Z) /\
  (exists rnd h, unitDraws rnd /\
     In h (hits (patternOf rnd (mkSettings "electronic" "4/4" 120 8 0.7 0.5) 0)) /\
     lengthInBeats (patternOf rnd (mkSettings "electronic" "4/4" 120 8 0.7 0.5) 0)
       <= time h) /\
  (exists rnd h, unitDraws rnd /\
     In h (hits (patternOf rnd
                   (mkSettings "jazz" "4/4" 120 (inject_Z (4 * 1)) 0.7 0.5) 0)) /\
     lengthInBeats (patternOf rnd
                      (mkSettings "jazz" "4/4" 120 (inject_Z (4 * 1)) 0.7 0.5) 0)
       <= time h).
Proof.
  assert (E : 0.6 < 0.7) by lra.
  assert (J : 0.5 < 0.7) by lra.
  assert (K : (0 < 1)%Z) by lia.
  split; [split; [exact E | split; [exact J | exact K]]|].
  destruct (fill_crash_beyond_length "4/4" 120 0.7 0.5 1 0) as (He & Hj).
  split; [exact (proj2 (He E)) | exact (proj2 (Hj J K))].
Defined.

(** ** More on the sort and on [deduplicateHits] *)

Lemma sortedByTime_same_time (t : Q) (l : list DrumHit) :
  sortedByTime (filter (atTime t) l).
Proof.
  unfold sortedByTime.
  induction l as [|h r IH]; cbn [filter]; [constructor|].
  destruct (atTime t h) eqn:E; [|exact IH].
  constructor; [exact IH|].
  apply Forall_forall. intros y Iy. apply filter_In in Iy.
  destruct Iy as (_ & Ey). unfold atTime in *.
  apply Qeq_bool_eq in E. apply Qeq_bool_eq in Ey.
  unfold timeLe. rewrite E, Ey. lra.
Qed.

(** X1.  The sort of [generatePattern] and of [deduplicateHits] rearranges
    the array into non-decreasing time order and is stable: the hits that
    share a time come out in the order they went in. *)
Theorem sortByTime_stable (l : list DrumHit) (t : Q) :
  Permutation (sortByTime l) l /\
  sortedByTime (sortByTime l) /\
  filter (atTime t) (sortByTime l) = filter (atTime t) l.
Proof.
  split; [apply sortByTime_perm|]. split; [apply sortByTime_sorted|].
  rewrite filter_sortByTime. apply sortByTime_fixed, sortedByTime_same_time.
Qed.

Lemma fold_dedup_length (l : list DrumHit) (m : JsMap) :
  (List.length (fold_left dedupStep l m) <= List.length m + List.length l)%nat.
Proof.
  revert m. induction l as [|h t IH]; intros m; cbn [fold_left List.length]; [lia|].
  specialize (IH (dedupStep m h)).
  assert (S : (List.length (dedupStep m h) <= List.length m + 1)%nat).
  { unfold dedupStep. destruct (map_get (hitKey h) m) as [e|] eqn:G.
    - assert (K : List.length (map_set (hitKey h) h m) = List.length m).
      { apply map_get_In in G. apply (in_map fst) in G. cbn [fst] in G.
        rewrite <- (length_map fst (map_set _ _ _)), map_set_keys by exact G.
        apply length_map. }
      destruct (velocity h >? velocity e); lia.
    - apply map_get_none in G. rewrite (map_set_fresh _ _ _ G), length_app.
      cbn. lia. }
  lia.
Qed.

(** X2.  [deduplicateHits] only selects: every hit it returns is a hit of
    its input, unchanged; it returns no more hits than it was given, and
    nothing for an empty array. *)
Theorem deduplicateHits_selects (l : list DrumHit) :
  incl (deduplicateHits l) l /\
  (List.length (deduplicateHits l) <= List.length l)%nat /\
  deduplicateHits [] = [].
Proof.
  split; [intros h; apply deduplicateHits_In|]. split; [|reflexivity].
  unfold deduplicateHits.
  rewrite (Permutation_length (sortByTime_perm _)).
  unfold map_values. rewrite length_map.
  apply (fold_dedup_length l []).
Qed.

(** X3.  When no two hits of the input have the same drum and rounded
    time, [deduplicateHits] drops nothing: its result is a rearrangement
    of the input. *)
Theorem deduplicateHits_keeps_distinct (l : list DrumHit) :
  NoDup (map slot l) -> Permutation (deduplicateHits l) l.
Proof.
  intros ND. rewrite deduplicateHits_unique by now apply NoDup_keys_slots.
  apply sortByTime_perm.
Qed.

Lemma deduplicateHits_keeps_distinct_witness :
  NoDup (map slot [downbeatKick; offbeatRide]) /\
  Permutation (deduplicateHits [downbeatKick; offbeatRide])
              [downbeatKick; offbeatRide].
Proof.
  assert (N : NoDup (map slot [downbeatKick; offbeatRide])).
  { constructor; [intros [E|[]]; vm_compute in E; discriminate E|].
    constructor; [intros []|constructor]. }
  split; [exact N | exact (deduplicateHits_keeps_distinct _ N)].
Defined.

Lemma dedupStep_shadowed (m : JsMap) (h v : DrumHit) :
  map_get (hitKey h) m = Some v -> velocity h <= velocity v -> dedupStep m h = m.
Proof.
  intros G L. unfold dedupStep. rewrite G.
  apply gtb_false in L. now rewrite L.
Qed.

(** X4.  A hit that is no louder than an earlier hit of its key has no
    effect: removing it from the input leaves the result of
    [deduplicateHits] unchanged.  (At equal velocity the earlier hit is
    the one kept.) *)
Theorem deduplicateHits_shadowed (l1 l2 : list DrumHit) (e h : DrumHit) :
  In e l1 -> slot e = slot h -> velocity h <= velocity e ->
  deduplicateHits (l1 ++ h :: l2) = deduplicateHits (l1 ++ l2).
Proof.
  intros I E L. unfold deduplicateHits. rewrite !fold_left_app.
  cbn [fold_left].
  destruct (fold_dedup_represents l1 [] e I) as (v & G & Lv).
  apply hitKey_slot in E. rewrite E in G.
  rewrite (dedupStep_shadowed _ h v G); [reflexivity | lra].
Qed.

Lemma deduplicateHits_shadowed_witness :
  (In downbeatKick [downbeatKick] /\ slot downbeatKick = slot downbeatKick /\
   velocity downbeatKick <= velocity downbeatKick) /\
  deduplicateHits ([downbeatKick] ++ downbeatKick :: [offbeatRide]) =
  deduplicateHits ([downbeatKick] ++ [offbeatRide]).
Proof.
  assert (I : In downbeatKick [downbeatKick]) by (left; reflexivity).
  assert (V : velocity downbeatKick <= velocity downbeatKick) by apply Qle_refl.
  split; [split; [exact I | split; [reflexivity | exact V]]|].
  exact (deduplicateHits_shadowed [downbeatKick] [offbeatRide]
           downbeatKick downbeatKick I eq_refl V).
Defined.

(** X5.  The assembler works drum by drum: the hits of one drum in the
    assembled array are what the assembler returns for the hits of that
    drum alone. *)
Theorem assemble_by_drum (d : DrumType) (l : list DrumHit) :
  filter (isDrum d) (assemble l) = assemble (filter (isDrum d) l).
Proof. apply filter_assemble, isDrum_slot. Qed.

(** ** [quantizePattern] *)

Lemma round_near (x : Q) : Qabs (inject_Z (Num.round x) - x) <= 1 # 2.
Proof.
  unfold Num.round.
  pose proof (Qfloor_le (x + (1 # 2))) as L.
  pose proof (Qlt_floor (x + (1 # 2))) as U.
  rewrite inject_Z_plus in U. change (inject_Z 1) with 1 in U.
  apply Qabs_Qle_condition. split; lra.
Qed.

Lemma round_integer (k : Z) (x : Q) :
  inject_Z k - (1 # 2) <= x -> x < inject_Z k + (1 # 2) -> Num.round x = k.
Proof.
  intros L U. unfold Num.round.
  pose proof (Qfloor_le (x + (1 # 2))) as Fl.
  pose proof (Qlt_floor (x + (1 # 2))) as Fu.
  rewrite inject_Z_plus in Fu. change (inject_Z 1) with 1 in Fu.
  assert (A : (Qfloor (x + (1 # 2)) < k + 1)%Z).
  { rewrite Zlt_Qlt, inject_Z_plus. change (inject_Z 1) with 1. lra. }
  assert (B : (k < Qfloor (x + (1 # 2)) + 1)%Z).
  { rewrite Zlt_Qlt, inject_Z_plus. change (inject_Z 1) with 1. lra. }
  lia.
Qed.

Lemma quantizeHit_near (g : Q) (h : DrumHit) :
  ~ g == 0 ->
  Qabs (time (quantizeHit g h) - time h) <= Qabs g / 2.
Proof.
  intros G. unfold quantizeHit. cbn [withTime time].
  set (k := inject_Z (Num.round (time h / g))).
  assert (E : k * g - time h == (k - time h / g) * g) by (field; exact G).
  rewrite E, Qabs_Qmult.
  pose proof (round_near (time h / g)) as R. fold k in R.
  pose proof (Qabs_nonneg g) as N.
  assert (M : Qabs (k - time h / g) * Qabs g <= (1 # 2) * Qabs g).
  { apply Qmult_le_compat_r; assumption. }
  set (A := Qabs (k - time h / g)) in *. set (B := Qabs g) in *.
  unfold Qdiv. cbn [Qinv Qnum Qden]. lra.
Qed.

(** X6.  [quantizePattern] with a non-zero grid size moves every hit to a
    whole number of grid steps, by at most half a step, and changes
    nothing else: the array keeps its length and order, each hit its
    drum, velocity and duration.  Without a grid size the step is 0.25. *)
Theorem quantizePattern_grid (l : list DrumHit) (gridSize : option Q) :
  let g := orDefault gridSize 0.25 in
  ~ g == 0 ->
  Forall2 (fun h q =>
             sameButTime h q /\
             (exists k : Z, time q = inject_Z k * g) /\
             Qabs (time q - time h) <= Qabs g / 2)
          l (quantizePattern l gridSize).
Proof.
  intros g G. unfold quantizePattern. fold g.
  induction l as [|h r IH]; cbn [map]; constructor; [|exact IH].
  split; [now repeat split|]. split.
  - now exists (Num.round (time h / g)).
  - now apply quantizeHit_near.
Qed.

Lemma quantizePattern_grid_witness :
  ~ orDefault None 0.25 == 0 /\
  Forall2 (fun h q =>
             sameButTime h q /\
             (exists k : Z, time q = inject_Z k * orDefault None 0.25) /\
             Qabs (time q - time h) <= Qabs (orDefault None 0.25) / 2)
          [offbeatRide] (quantizePattern [offbeatRide] None).
Proof.
  assert (N : ~ orDefault None 0.25 == 0)
    by (intros E; vm_compute in E; discriminate E).
  split; [exact N | exact (quantizePattern_grid [offbeatRide] None N)].
Defined.

Lemma quantizeHit_onGrid (g : Q) (k : Z) (h : DrumHit) :
  ~ g == 0 -> time h == inject_Z k * g -> time (quantizeHit g h) == time h.
Proof.
  intros G E. unfold quantizeHit. cbn [withTime time].
  assert (R : Num.round (time h / g) = k).
  { apply round_integer.
    - rewrite E. setoid_replace (inject_Z k * g / g) with (inject_Z k) by (field; exact G). lra.
    - rewrite E. setoid_replace (inject_Z k * g / g) with (inject_Z k) by (field; exact G). lra. }
  rewrite R. now rewrite E.
Qed.

(** X7.  Quantizing is idempotent: a quantized array is left numerically
    unchanged by a second pass with the same non-zero grid size. *)
Theorem quantizePattern_idempotent (l : list DrumHit) (gridSize : option Q) :
  ~ orDefault gridSize 0.25 == 0 ->
  Forall2 hitEq (quantizePattern (quantizePattern l gridSize) gridSize)
                (quantizePattern l gridSize).
Proof.
  intros G. unfold quantizePattern.
  set (g := orDefault gridSize 0.25) in *.
  induction l as [|h r IH]; cbn [map]; constructor; [|exact IH].
  unfold hitEq. split; [reflexivity|]. split; [|split; reflexivity].
  apply (quantizeHit_onGrid g (Num.round (time h / g))); [exact G|].
  reflexivity.
Qed.

Lemma quantizePattern_idempotent_witness :
  ~ orDefault (Some 0.5) 0.25 == 0 /\
  Forall2 hitEq
    (quantizePattern (quantizePattern [offbeatRide] (Some 0.5)) (Some 0.5))
    (quantizePattern [offbeatRide] (Some 0.5)).
Proof.
  assert (N : ~ orDefault (Some 0.5) 0.25 == 0)
    by (intros E; vm_compute in E; discriminate E).
  split; [exact N | exact (quantizePattern_idempotent [offbeatRide] (Some 0.5) N)].
Defined.

Lemma humanized_time_near (h h' : DrumHit) (delta eps : Q) :
  humanizedBy delta eps h h' -> 0 <= time h ->
  Qabs (time h' - time h) <= Qabs delta.
Proof.
  intros (_ & _ & T & _) N. rewrite T.
  pose proof (Qle_Qabs delta) as A1.
  pose proof (Qle_Qabs (- delta)) as A2. rewrite Qabs_opp in A2.
  apply Qabs_Qle_condition.
  destruct (Q.max_spec 0 (time h + delta)) as [[L E]|[L E]]; rewrite E;
    split; lra.
Qed.

(** X8.  Quantizing undoes the timing jitter.  When the hits start on the
    grid of a positive step [g], the humanizer is enabled with
    [0 <= timingVariation] and [0.03 * timingVariation < g / 2], and the
    draws lie in [0, 1), quantizing the humanized array with step [g]
    gives every hit its original time back; drum and duration are kept. *)
Theorem quantize_after_humanize
    (rnd : nat -> Q) (l : list DrumHit) (o : PartialHumanizeOptions)
    (g : Q) (n : nat) :
  let opts := mergeOptions DEFAULT_OPTIONS o in
  unitDraws rnd -> enabled opts = true ->
  0 <= timingVariation opts -> 0 <= velocityVariation opts ->
  0.03 * timingVariation opts < g / 2 ->
  Forall (onGrid g) l ->
  Forall2 (fun h q => time q == time h /\ drum q = drum h /\
                      duration q = duration h)
          l (quantizePattern (fst (humanizePattern rnd l o n)) (Some g)).
Proof.
  intros opts U E Tv Vv Small Grid.
  assert (Small' : 2 * (0.03 * timingVariation opts) < g).
  { unfold Qdiv in Small. cbn [Qinv Qnum Qden] in Small. lra. }
  clear Small.
  assert (Gpos : 0 < g) by lra.
  rewrite humanizePattern_enabled by exact E. fold opts.
  destruct (mapRand_humanize rnd opts l n) as (_ & Len & Ei).
  unfold quantizePattern. cbn [orDefault].
  set (hl := fst (mapRand (fun hit => humanizeHit rnd hit opts) l n)) in *.
  assert (P : forall i h, nth_error l i = Some h ->
            exists q, nth_error (map (quantizeHit g) hl) i = Some q /\
                      time q == time h /\ drum q = drum h /\ duration q = duration h).
  { intros i h Hi.
    set (h' := fst (humanizeHit rnd h opts (n + 2 * i)%nat)).
    set (delta := timingOffsetOf (timingVariation opts) (rnd (n + 2 * i)%nat)).
    pose proof (Ei i h Hi) as Hn. fold h' in Hn.
    pose proof (humanizeHit_humanizedBy rnd h opts (n + 2 * i)%nat) as Hb.
    fold h' delta in Hb.
    assert (Bd : Qabs delta <= 0.03 * timingVariation opts).
    { destruct (U (n + 2 * i)%nat). unfold delta, timingOffsetOf.
      apply offset_bound; [assumption | assumption | lra]. }
    exists (quantizeHit g h'). split; [now rewrite nth_error_map, Hn|].
    pose proof (proj1 (Forall_forall _ _) Grid h (nth_error_In _ _ Hi)) as (k & K0 & Ek).
    assert (N : 0 <= time h).
    { rewrite Ek. apply Qmult_le_0_compat; [|lra].
      change 0 with (inject_Z 0). now rewrite <- Zle_Qle. }
    pose proof (humanized_time_near h h' delta _ Hb N) as Near.
    apply Qabs_Qle_condition in Near.
    destruct Hb as (Dr & Du & _ & _).
    split; [|split; [exact Dr | exact Du]].
    unfold quantizeHit. cbn [withTime time].
    assert (R : Num.round (time h' / g) = k).
    { assert (X : time h' / g - inject_Z k == (time h' - time h) / g).
      { rewrite Ek. field. lra. }
      assert (Y : - (1 # 2) < (time h' - time h) / g /\ (time h' - time h) / g < 1 # 2).
      { split.
        - apply Qlt_shift_div_l; [exact Gpos|]. lra.
        - apply Qlt_shift_div_r; [exact Gpos|]. lra. }
      apply round_integer; lra. }
    rewrite R. now rewrite Ek. }
  assert (Lq : List.length (map (quantizeHit g) hl) = List.length l)
    by now rewrite length_map.
  clear - P Lq. revert P Lq. generalize (map (quantizeHit g) hl) as ql.
  induction l as [|h r IH]; intros ql P Lq.
  - destruct ql; [constructor | discriminate].
  - destruct ql as [|q qr]; [discriminate|].
    constructor.
    + destruct (P 0%nat h eq_refl) as (q' & Hq & R). cbn in Hq.
      injection Hq as <-. exact R.
    + apply IH; [|cbn in Lq; lia]. intros i x Hx. exact (P (S i) x Hx).
Qed.

Lemma quantize_after_humanize_witness :
  (unitDraws alwaysQuarter /\
   enabled (mergeOptions DEFAULT_OPTIONS generatorHumanize) = true /\
   0 <= timingVariation (mergeOptions DEFAULT_OPTIONS generatorHumanize) /\
   0 <= velocityVariation (mergeOptions DEFAULT_OPTIONS generatorHumanize) /\
   0.03 * timingVariation (mergeOptions DEFAULT_OPTIONS generatorHumanize)
     < 0.25 / 2 /\
   Forall (onGrid 0.25) [downbeatKick; offbeatRide]) /\
  Forall2 (fun h q => time q == time h /\ drum q = drum h /\
                      duration q = duration h)
          [downbeatKick; offbeatRide]
          (quantizePattern
             (fst (humanizePattern alwaysQuarter [downbeatKick; offbeatRide]
                     generatorHumanize 0%nat))
             (Some 0.25)).
Proof.
  pose proof alwaysQuarter_unit as U.
  assert (E : enabled (mergeOptions DEFAULT_OPTIONS generatorHumanize) = true)
    by reflexivity.
  assert (T : 0 <= timingVariation (mergeOptions DEFAULT_OPTIONS generatorHumanize))
    by (vm_compute; discriminate).
  assert (V : 0 <= velocityVariation (mergeOptions DEFAULT_OPTIONS generatorHumanize))
    by (vm_compute; discriminate).
  assert (S : 0.03 * timingVariation (mergeOptions DEFAULT_OPTIONS generatorHumanize)
              < 0.25 / 2)
    by (vm_compute; reflexivity).
  assert (G : Forall (onGrid 0.25) [downbeatKick; offbeatRide]).
  { constructor; [exists 4%Z; split; [lia | vm_compute; reflexivity]|].
    constructor; [exists 10%Z; split; [lia | vm_compute; reflexivity]|].
    constructor. }
  split; [split; [exact U | split; [exact E | split; [exact T | split;
            [exact V | split; [exact S | exact G]]]]]|].
  exact (quantize_after_humanize alwaysQuarter [downbeatKick; offbeatRide]
           generatorHumanize 0.25 0%nat U E T V S G).
Defined.

(** ** More on the humanizer and the swing step *)

(** X9.  An enabled humanizer reads exactly two random values for each
    hit and none besides, and returns the hits in their order with their
    drums and durations. *)
Theorem humanizePattern_draws
    (rnd : nat -> Q) (l : list DrumHit) (o : PartialHumanizeOptions) (n : nat) :
  enabled (mergeOptions DEFAULT_OPTIONS o) = true ->
  snd (humanizePattern rnd l o n) = (n + 2 * List.length l)%nat /\
  map drum (fst (humanizePattern rnd l o n)) = map drum l /\
  map duration (fst (humanizePattern rnd l o n)) = map duration l.
Proof.
  intros E. rewrite humanizePattern_enabled by exact E.
  set (opts := mergeOptions DEFAULT_OPTIONS o).
  split; [apply (mapRand_humanize rnd opts l n)|].
  revert n. induction l as [|h r IH]; intros n; [split; reflexivity|].
  rewrite mapRand_cons, humanizeHit_draws. cbn [fst map].
  destruct (IH (S (S n))) as (D & U). rewrite D, U. split; reflexivity.
Qed.

Lemma humanizePattern_draws_witness :
  enabled (mergeOptions DEFAULT_OPTIONS generatorHumanize) = true /\
  snd (humanizePattern alwaysQuarter [downbeatKick; offbeatRide]
         generatorHumanize 5%nat) = (5 + 2 * 2)%nat.
Proof.
  assert (E : enabled (mergeOptions DEFAULT_OPTIONS generatorHumanize) = true)
    by reflexivity.
  split; [exact E|].
  exact (proj1 (humanizePattern_draws alwaysQuarter [downbeatKick; offbeatRide]
                  generatorHumanize 5%nat E)).
Defined.

(** X10.  The swing step never moves a hit earlier, moves none by more
    than [0.17 * amount], and keeps the length and order of the array and
    the drum, velocity and duration of every hit. *)
Theorem swingPattern_forward (l : list DrumHit) (amount : Q) :
  0 <= amount ->
  Forall2 (fun h h' => sameButTime h h' /\ time h <= time h' /\
                       time h' <= time h + 0.17 * amount)
          l (swingPattern l amount).
Proof.
  intros A. unfold swingPattern.
  induction l as [|h r IH]; cbn [map]; constructor; [|exact IH].
  unfold swingHit. destruct (_ <? _); cbn [withTime time];
    (split; [now repeat split | split; lra]).
Qed.

Lemma swingPattern_forward_witness :
  0 <= 0.6 /\
  Forall2 (fun h h' => sameButTime h h' /\ time h <= time h' /\
                       time h' <= time h + 0.17 * 0.6)
          [downbeatKick; offbeatRide]
          (swingPattern [downbeatKick; offbeatRide] 0.6).
Proof.
  assert (A : 0 <= 0.6) by (vm_compute; discriminate).
  split; [exact A | exact (swingPattern_forward [downbeatKick; offbeatRide] 0.6 A)].
Defined.

(** X11.  With both variations at zero the humanizer changes no hit that
    is within the bounds of the data model (time at least 0, velocity
    between 0.1 and 1), whatever the random source yields. *)
Theorem humanizePattern_zero_variation
    (rnd : nat -> Q) (l : list DrumHit) (o : PartialHumanizeOptions) (n : nat) :
  let opts := mergeOptions DEFAULT_OPTIONS o in
  enabled opts = true ->
  timingVariation opts == 0 -> velocityVariation opts == 0 ->
  Forall (fun h => 0 <= time h /\ 0.1 <= velocity h /\ velocity h <= 1) l ->
  Forall2 hitEq l (fst (humanizePattern rnd l o n)).
Proof.
  intros opts E Tv Vv B. rewrite humanizePattern_enabled by exact E. fold opts.
  revert n. induction B as [|h r (T & V0 & V1) _ IH]; intros n; [constructor|].
  rewrite mapRand_cons, humanizeHit_draws. cbn [fst].
  constructor; [|apply IH].
  rewrite humanizeHit_run. unfold hitEq. cbn [fst withTimeVelocity drum time velocity duration].
  unfold timingOffsetOf, velocityOffsetOf. rewrite max_Qmax, clamp_code.
  unfold clamp.
  split; [reflexivity|]. split; [|split; [|reflexivity]].
  - rewrite Tv. rewrite Q.max_r by lra. ring.
  - rewrite Vv. rewrite Q.min_r by lra. rewrite Q.max_r by lra. ring.
Qed.

Lemma humanizePattern_zero_variation_witness :
  (enabled (mergeOptions DEFAULT_OPTIONS noVariation) = true /\
   timingVariation (mergeOptions DEFAULT_OPTIONS noVariation) == 0 /\
   velocityVariation (mergeOptions DEFAULT_OPTIONS noVariation) == 0 /\
   Forall (fun h => 0 <= time h /\ 0.1 <= velocity h /\ velocity h <= 1)
          [downbeatKick; offbeatRide]) /\
  Forall2 hitEq [downbeatKick; offbeatRide]
          (fst (humanizePattern alwaysQuarter [downbeatKick; offbeatRide]
                  noVariation 0%nat)).
Proof.
  assert (E : enabled (mergeOptions DEFAULT_OPTIONS noVariation) = true)
    by reflexivity.
  assert (T : timingVariation (mergeOptions DEFAULT_OPTIONS noVariation) == 0)
    by reflexivity.
  assert (V : velocityVariation (mergeOptions DEFAULT_OPTIONS noVariation) == 0)
    by reflexivity.
  assert (B : Forall (fun h => 0 <= time h /\ 0.1 <= velocity h /\ velocity h <= 1)
                     [downbeatKick; offbeatRide]).
  { constructor; [split; [|split]; vm_compute; discriminate|].
    constructor; [split; [|split]; vm_compute; discriminate|].
    constructor. }
  split; [split; [exact E | split; [exact T | split; [exact V | exact B]]]|].
  exact (humanizePattern_zero_variation alwaysQuarter [downbeatKick; offbeatRide]
           noVariation 0%nat E T V B).
Defined.

(** ** [getPatternInfo] *)

Lemma getBeatsPerBar_range (ts : string) :
  3 <= getBeatsPerBar ts /\ getBeatsPerBar ts <= 6.
Proof.
  unfold getBeatsPerBar.
  repeat match goal with
         | |- context [if ?c then _ else _] => destruct c
         end; split; lra.
Qed.

Lemma drumName_inj (a b : DrumType) : drumName a = drumName b -> a = b.
Proof. destruct a, b; simpl; intros H; try reflexivity; discriminate H. Qed.

Lemma dict_get_set {V : Type} (k k' : string) (v : V) (o : Dict V) :
  dict_get k' (dict_set k v o) =
  if String.eqb k' k then Some v else dict_get k' o.
Proof.
  induction o as [|[k0 v0] r IH]; cbn [dict_set dict_get].
  - reflexivity.
  - destruct (String.eqb_spec k k0) as [->|N]; cbn [dict_get].
    + destruct (String.eqb_spec k' k0); reflexivity.
    + rewrite IH. destruct (String.eqb_spec k' k0) as [->|N']; [|reflexivity].
      destruct (String.eqb_spec k0 k); [congruence | reflexivity].
Qed.

Lemma counterSum_set (k : string) (o : Counters) :
  counterSum (dict_set k (counterOr0 k o + 1)%nat o) = S (counterSum o).
Proof.
  unfold counterSum, counterOr0.
  induction o as [|[k0 v0] r IH]; cbn [dict_set dict_get].
  - reflexivity.
  - destruct (String.eqb_spec k k0) as [->|N]; cbn [map snd fold_right orDefault].
    + lia.
    + rewrite IH. lia.
Qed.

Lemma countHit_get (o : Counters) (h : DrumHit) (d : DrumType) :
  dict_get (drumName d) (countHit o h) =
  if isDrum d h then Some (S (counterOr0 (drumName d) o))
  else dict_get (drumName d) o.
Proof.
  unfold countHit. rewrite dict_get_set. unfold isDrum.
  destruct (String.eqb_spec (drumName d) (drumName (drum h))) as [E|N].
  - apply drumName_inj in E. subst d.
    rewrite (proj2 (drum_eqb_eq _ _) eq_refl). f_equal. unfold counterOr0. lia.
  - destruct (drum_eqb (drum h) d) eqn:D; [|reflexivity].
    apply drum_eqb_eq in D. subst d. congruence.
Qed.

Lemma fold_countHit_get (l : list DrumHit) (o : Counters) (d : DrumType) :
  dict_get (drumName d) (fold_left countHit l o) =
  match countDrum d l with
  | O => dict_get (drumName d) o
  | S c => Some (counterOr0 (drumName d) o + S c)%nat
  end.
Proof.
  revert o. unfold countDrum.
  induction l as [|h r IH]; intros o; [reflexivity|].
  cbn [fold_left filter]. rewrite IH.
  unfold counterOr0. rewrite countHit_get.
  destruct (isDrum d h); cbn [List.length orDefault].
  - destruct (List.length (filter (isDrum d) r)); f_equal; unfold counterOr0; lia.
  - reflexivity.
Qed.

Lemma fold_countHit_sum (l : list DrumHit) (o : Counters) :
  counterSum (fold_left countHit l o) = (counterSum o + List.length l)%nat.
Proof.
  revert o. induction l as [|h r IH]; intros o; cbn [fold_left List.length]; [lia|].
  rewrite IH. pose proof (counterSum_set (drumName (drum h)) o) as H.
  unfold counterOr0 in H. unfold countHit. rewrite H. lia.
Qed.

(** X12.  In the result of [getPatternInfo] the counter of a drum is the
    number of hits of the pattern on that drum, a drum without hits
    having no counter at all; the counters add up to [totalHits], the
    number of hits. *)
Theorem getPatternInfo_counts (p : Pattern) (d : DrumType) :
  dict_get (drumName d) (hitCounts (getPatternInfo p)) =
    match countDrum d (hits p) with
    | O => None
    | S c => Some (S c)
    end /\
  counterSum (hitCounts (getPatternInfo p)) = totalHits (getPatternInfo p) /\
  totalHits (getPatternInfo p) = List.length (hits p).
Proof.
  unfold getPatternInfo. cbn [hitCounts totalHits].
  split; [|split; [apply (fold_countHit_sum (hits p) []) | reflexivity]].
  rewrite fold_countHit_get. destruct (countDrum d (hits p)); reflexivity.
Qed.

(** X13.  [getPatternInfo] gives back the number of bars a pattern was
    generated with, for every style and every time signature, known or
    not, and whatever the random source yields. *)
Theorem getPatternInfo_bars (rnd : nat -> Q) (s : GeneratorSettings) (n : nat) :
  info_bars (getPatternInfo (patternOf rnd s n)) == bars s.
Proof.
  unfold getPatternInfo. cbn [info_bars].
  unfold patternOf, generatePattern, bind, ret.
  destruct (sortedHits rnd s n) as [hs n']. cbn [fst lengthInBeats timeSignature].
  pose proof (getBeatsPerBar_range (s_timeSignature s)).
  field. lra.
Qed.

(** ** The MIDI export *)

Lemma MIDI_DRUM_MAP_inj (a b : DrumType) :
  MIDI_DRUM_MAP a = MIDI_DRUM_MAP b -> a = b.
Proof. destruct a, b; simpl; intros H; try reflexivity; discriminate H. Qed.

Lemma round_bounds (x : Q) (lo hi : Z) :
  inject_Z lo - (1 # 2) <= x -> x < inject_Z hi + (1 # 2) ->
  (lo <= Num.round x <= hi)%Z.
Proof.
  intros L U. unfold Num.round.
  pose proof (Qfloor_le (x + (1 # 2))) as Fl.
  pose proof (Qlt_floor (x + (1 # 2))) as Fu.
  rewrite inject_Z_plus in Fu. change (inject_Z 1) with 1 in Fu.
  assert (A : (Qfloor (x + (1 # 2)) < hi + 1)%Z).
  { rewrite Zlt_Qlt, inject_Z_plus. change (inject_Z 1) with 1. lra. }
  assert (B : (lo < Qfloor (x + (1 # 2)) + 1)%Z).
  { rewrite Zlt_Qlt, inject_Z_plus. change (inject_Z 1) with 1. lra. }
  lia.
Qed.

(** X14.  At a positive tempo [exportToMidi] adds one note per hit, in
    the order of the hits: its key is the General MIDI key of the drum,
    and no two drums share a key; its time and duration are those of the
    hit in seconds; its velocity is a whole number of 127ths, the nearest
    to the velocity of the hit. *)
Theorem exportToMidi_notes (p : Pattern) :
  0 < bpm p ->
  Forall2 (fun h m =>
             (forall d, MIDI_DRUM_MAP d = midi m <-> d = drum h) /\
             noteTime m * bpm p == time h * 60 /\
             noteDuration m * bpm p == duration h * 60 /\
             exists k : Z, velocityByte m k /\
                           Qabs (inject_Z k - velocity h * 127) <= 1 # 2)
          (hits p) (notes (exportToMidi p)).
Proof.
  intros B. unfold exportToMidi. cbn [notes].
  induction (hits p) as [|h r IH]; cbn [map]; constructor; [|exact IH].
  unfold midiNoteOf. cbn [midi noteTime noteDuration].
  split; [|split; [|split]].
  - intros d. split; [apply MIDI_DRUM_MAP_inj | now intros ->].
  - field. lra.
  - field. lra.
  - exists (Num.round (velocity h * 127)). split; [reflexivity | apply round_near].
Qed.

Lemma exportToMidi_notes_witness :
  0 < bpm samplePattern /\
  Forall2 (fun h m =>
             (forall d, MIDI_DRUM_MAP d = midi m <-> d = drum h) /\
             noteTime m * bpm samplePattern == time h * 60 /\
             noteDuration m * bpm samplePattern == duration h * 60 /\
             exists k : Z, velocityByte m k /\
                           Qabs (inject_Z k - velocity h * 127) <= 1 # 2)
          (hits samplePattern) (notes (exportToMidi samplePattern)).
Proof.
  assert (B : 0 < bpm samplePattern) by (vm_compute; reflexivity).
  split; [exact B | exact (exportToMidi_notes samplePattern B)].
Defined.

Lemma sorted_notes (c : Q) (l : list DrumHit) :
  0 <= c -> sortedByTime l ->
  StronglySorted noteTimeLe (map (midiNoteOf c) l).
Proof.
  intros C. induction 1 as [|h r _ IH F]; cbn [map]; constructor; [exact IH|].
  apply Forall_forall. intros m I. apply in_map_iff in I.
  destruct I as (h' & <- & I). rewrite Forall_forall in F. specialize (F h' I).
  unfold noteTimeLe, midiNoteOf, timeLe in *. cbn [noteTime]. nra.
Qed.

(** X15.  The MIDI export of a generated pattern at a positive tempo:
    the notes are on channel 9 and as many as the hits, their times
    never decrease, no time is negative, every duration is positive and
    every velocity byte lies between 13 and 127, so that no note is
    silent. *)
Theorem exportToMidi_generated (rnd : nat -> Q) (s : GeneratorSettings) (n : nat) :
  0 < s_bpm s ->
  let track := exportToMidi (patternOf rnd s n) in
  channel track = 9%Z /\ tempo track = s_bpm s /\
  List.length (notes track) = List.length (hits (patternOf rnd s n)) /\
  StronglySorted noteTimeLe (notes track) /\
  Forall (fun m => 0 <= noteTime m /\ 0 < noteDuration m /\
                   exists k : Z, (13 <= k <= 127)%Z /\ velocityByte m k)
         (notes track).
Proof.
  intros B track.
  assert (Bp : bpm (patternOf rnd s n) = s_bpm s).
  { unfold patternOf, generatePattern, bind, ret.
    destruct (sortedHits rnd s n). reflexivity. }
  assert (C : 0 < 60 / bpm (patternOf rnd s n)).
  { rewrite Bp. apply Qlt_shift_div_l; lra. }
  unfold track, exportToMidi. cbn [channel tempo notes].
  split; [reflexivity|]. split; [exact Bp|]. split; [apply length_map|].
  split.
  - apply sorted_notes; [lra|].
    rewrite generatePattern_hits. apply assemble_sorted.
  - apply Forall_forall. intros m I. apply in_map_iff in I.
    destruct I as (h & <- & I).
    pose proof (proj1 (Forall_forall _ _) (pattern_bounds rnd s n) h I)
      as (T & V0 & V1 & D).
    set (c := 60 / bpm (patternOf rnd s n)) in *.
    unfold midiNoteOf. cbn [noteTime noteDuration].
    split; [nra|]. split; [nra|].
    exists (Num.round (velocity h * 127)). split; [|reflexivity].
    apply round_bounds; unfold inject_Z; lra.
Qed.

Lemma exportToMidi_generated_witness :
  0 < s_bpm (rockExample 120) /\
  StronglySorted noteTimeLe
    (notes (exportToMidi (patternOf alwaysQuarter (rockExample 120) 0))).
Proof.
  assert (B : 0 < s_bpm (rockExample 120)) by (vm_compute; reflexivity).
  split; [exact B|].
  exact (proj1 (proj2 (proj2 (proj2
           (exportToMidi_generated alwaysQuarter (rockExample 120) 0 B))))).
Defined.


(** ** The transport positions of the audio engine *)

Lemma trunc_nonneg (x : Q) : 0 <= x -> Num.trunc x = Qfloor x.
Proof.
  intros H. unfold Num.trunc.
  now rewrite (proj2 (ltb_false x 0)) by lra.
Qed.

Lemma rem_nonneg (x y : Q) :
  0 <= x -> 0 < y -> x %% y = x - y * inject_Z (Qfloor (x / y)).
Proof.
  intros X Y. unfold Num.rem. rewrite trunc_nonneg; [reflexivity|].
  apply Qle_shift_div_l; lra.
Qed.

Lemma inject_Z_sub (a b : Z) : inject_Z (a - b) == inject_Z a - inject_Z b.
Proof. unfold Z.sub. rewrite inject_Z_plus, inject_Z_opp. ring. Qed.

Lemma Qfloor_sub_Z (x : Q) (k : Z) :
  Qfloor (x - inject_Z k) = (Qfloor x - k)%Z.
Proof.
  pose proof (Qfloor_le x) as L. pose proof (Qlt_floor x) as U.
  pose proof (Qfloor_le (x - inject_Z k)) as L'.
  pose proof (Qlt_floor (x - inject_Z k)) as U'.
  rewrite inject_Z_plus in U, U'. change (inject_Z 1) with 1 in U, U'.
  assert (A : (Qfloor (x - inject_Z k) < Qfloor x - k + 1)%Z).
  { rewrite Zlt_Qlt, inject_Z_plus, inject_Z_sub. change (inject_Z 1) with 1. lra. }
  assert (B : (Qfloor x - k < Qfloor (x - inject_Z k) + 1)%Z).
  { rewrite Zlt_Qlt, inject_Z_plus, inject_Z_sub. change (inject_Z 1) with 1. lra. }
  lia.
Qed.


(** X17.  When the bar has a whole number of beats, the position
    [schedulePattern] computes for a hit at a non-negative time stands
    for exactly that time: bars, beats and sixteenths recombine to it,
    with fewer beats than the bar has and fewer than four sixteenths. *)
Theorem hitPosition_whole_bar (b : Z) (hit : DrumHit) :
  (0 < b)%Z -> 0 <= time hit ->
  let p := hitPosition (inject_Z b) hit in
  positionBeats (inject_Z b) p == time hit /\
  0 <= pos_bars p /\
  0 <= pos_beats p /\ pos_beats p < inject_Z b /\
  0 <= pos_sixteenths p /\ pos_sixteenths p < 4.
Proof.
  intros B T.
  assert (Bq : 0 < inject_Z b) by (change 0 with (inject_Z 0); now rewrite <- Zlt_Qlt).
  unfold hitPosition, positionBeats. cbn [pos_bars pos_beats pos_sixteenths].
  rewrite !rem_nonneg by (assumption || lra).
  set (t := time hit) in *.
  set (q := Qfloor (t / inject_Z b)).
  assert (E : inject_Z b * inject_Z q = inject_Z (b * q)) by (now rewrite inject_Z_mult).
  rewrite E, Qfloor_sub_Z.
  assert (D : Qfloor (t / 1) = Qfloor t).
  { apply Qfloor_comp. field. }
  rewrite D.
  pose proof (Qfloor_le t) as L. pose proof (Qlt_floor t) as U.
  rewrite inject_Z_plus in U. change (inject_Z 1) with 1 in U.
  pose proof (Qfloor_le (t / inject_Z b)) as Lq.
  pose proof (Qlt_floor (t / inject_Z b)) as Uq. fold q in Lq, Uq.
  rewrite inject_Z_plus in Uq. change (inject_Z 1) with 1 in Uq.
  assert (Tq : t == (t / inject_Z b) * inject_Z b) by (field; lra).
  assert (Q0 : (0 <= q)%Z).
  { change 0%Z with (Qfloor 0). apply Qfloor_resp_le, Qle_shift_div_l; lra. }
  assert (Q0q : 0 <= inject_Z q) by (change 0 with (inject_Z 0); now rewrite <- Zle_Qle).
  assert (Lo : inject_Z (b * q) <= t).
  { rewrite inject_Z_mult, Tq. nra. }
  assert (Hi : t < inject_Z (b * (q + 1))).
  { rewrite inject_Z_mult, inject_Z_plus. change (inject_Z 1) with 1.
    rewrite Tq at 1. nra. }
  assert (F1 : (b * q <= Qfloor t)%Z).
  { rewrite <- (Qfloor_Z (b * q)). now apply Qfloor_resp_le. }
  assert (F2 : (Qfloor t < b * (q + 1))%Z).
  { rewrite Zlt_Qlt. lra. }
  assert (G1 : 0 <= inject_Z (Qfloor t - b * q)).
  { change 0 with (inject_Z 0). rewrite <- Zle_Qle. lia. }
  assert (G2 : inject_Z (Qfloor t - b * q) < inject_Z b).
  { rewrite <- Zlt_Qlt. lia. }
  split; [|split; [exact Q0q | split; [exact G1 | split; [exact G2 | split; lra]]]].
  rewrite inject_Z_sub, inject_Z_mult. field.
Qed.

Lemma hitPosition_whole_bar_witness :
  ((0 < 4)%Z /\ 0 <= time offbeatRide) /\
  positionBeats (inject_Z 4) (hitPosition (inject_Z 4) offbeatRide)
    == time offbeatRide.
Proof.
  assert (B : (0 < 4)%Z) by lia.
  assert (T : 0 <= time offbeatRide) by (vm_compute; discriminate).
  split; [split; [exact B | exact T]|].
  exact (proj1 (hitPosition_whole_bar 4 offbeatRide B T)).
Defined.

(** The integer literals of a goal, as rationals. *)
Ltac literals :=
  change (inject_Z 1) with 1; change (inject_Z 2) with 2;
  change (inject_Z 3) with 3; change (inject_Z 7) with 7.

(** X18.  In 7/8, where the bar has three and a half beats, the position
    of a hit stands for its time in the bars of even index (the first,
    the third, ...) only: in the bars of odd index it is half a beat
    off. *)
Theorem hitPosition_seven_eight (hit : DrumHit) :
  0 <= time hit ->
  let b := getBeatsPerBar "7/8" in
  let p := hitPosition b hit in
  if Z.even (Qfloor (time hit / b))
  then positionBeats b p == time hit
  else Qabs (positionBeats b p - time hit) == 1 # 2.
Proof.
  intros T b p. unfold p, hitPosition, positionBeats.
  cbn [pos_bars pos_beats pos_sixteenths].
  assert (Eb : b = 3.5) by reflexivity.
  rewrite !rem_nonneg by (assumption || rewrite ?Eb; lra).
  set (t := time hit) in *. set (q := Qfloor (t / b)).
  assert (D : Qfloor (t / 1) = Qfloor t) by (apply Qfloor_comp; field).
  rewrite D.
  destruct (Z.even q) eqn:Ev.
  - apply Z.even_spec in Ev. destruct Ev as (j & Ej).
    assert (A : t - b * inject_Z q == t - inject_Z (7 * j)).
    { rewrite Ej, Eb, !inject_Z_mult. literals. ring. }
    rewrite (Qfloor_comp _ _ A), Qfloor_sub_Z, inject_Z_sub.
    rewrite Ej, Eb, !inject_Z_mult. literals. field.
  - assert (Od : Z.odd q = true) by (rewrite <- Z.negb_even, Ev; reflexivity).
    apply Z.odd_spec in Od. destruct Od as (j & Ej).
    assert (A : t - b * inject_Z q == (t - (1 # 2)) - inject_Z (7 * j + 3)).
    { rewrite Ej, Eb, !inject_Z_plus, !inject_Z_mult. literals. ring. }
    rewrite (Qfloor_comp _ _ A), Qfloor_sub_Z, inject_Z_sub.
    rewrite Ej, Eb, !inject_Z_plus, !inject_Z_mult.
    pose proof (Qfloor_le t) as L. pose proof (Qlt_floor t) as U.
    pose proof (Qfloor_le (t - (1 # 2))) as L'.
    pose proof (Qlt_floor (t - (1 # 2))) as U'.
    rewrite inject_Z_plus in U, U'. change (inject_Z 1) with 1 in U, U'.
    assert (C : (Qfloor (t - (1 # 2)) = Qfloor t \/
                 Qfloor (t - (1 # 2)) = Qfloor t - 1)%Z).
    { assert (C1 : (Qfloor (t - (1 # 2)) < Qfloor t + 1)%Z).
      { rewrite Zlt_Qlt, inject_Z_plus. change (inject_Z 1) with 1. lra. }
      assert (C2 : (Qfloor t - 1 < Qfloor (t - (1 # 2)) + 1)%Z).
      { rewrite Zlt_Qlt, inject_Z_plus, inject_Z_sub. change (inject_Z 1) with 1. lra. }
      lia. }
    literals.
    destruct C as [C|C]; rewrite C.
    + match goal with
      | |- Qabs ?e == _ => assert (R : e == 1 # 2) by field
      end.
      rewrite R. reflexivity.
    + rewrite inject_Z_sub. literals.
      match goal with
      | |- Qabs ?e == _ => assert (R : e == - (1 # 2)) by field
      end.
      rewrite R. reflexivity.
Qed.

Lemma hitPosition_seven_eight_witness :
  0 <= time oddBarRide /\
  Qabs (positionBeats (getBeatsPerBar "7/8")
          (hitPosition (getBeatsPerBar "7/8") oddBarRide) - time oddBarRide)
    == 1 # 2.
Proof.
  assert (T : 0 <= time oddBarRide) by (vm_compute; discriminate).
  split; [exact T | exact (hitPosition_seven_eight oddBarRide T)].
Defined.

Lemma generatePattern_meta (rnd : nat -> Q) (s : GeneratorSettings) (n : nat) :
  lengthInBeats (patternOf rnd s n) = bars s * getBeatsPerBar (s_timeSignature s) /\
  timeSignature (patternOf rnd s n) = s_timeSignature s /\
  bpm (patternOf rnd s n) = s_bpm s.
Proof.
  unfold patternOf, generatePattern, bind, ret.
  destruct (sortedHits rnd s n). repeat split.
Qed.

(** X19.  For a pattern generated with a whole, non-negative number of
    bars, the loop of [play] ends at that bar exactly: position
    [bars:0:0], in every time signature. *)
Theorem loopEnd_generated (rnd : nat -> Q) (s : GeneratorSettings) (n : nat) (k : Z) :
  (0 <= k)%Z -> bars s == inject_Z k ->
  let p := loopEnd (patternOf rnd s n) in
  pos_bars p == inject_Z k /\ pos_beats p == 0 /\ pos_sixteenths p == 0.
Proof.
  intros K B. unfold loopEnd.
  destruct (generatePattern_meta rnd s n) as (-> & -> & _).
  cbn [pos_bars pos_beats pos_sixteenths].
  pose proof (getBeatsPerBar_range (s_timeSignature s)) as (G & _).
  set (b := getBeatsPerBar (s_timeSignature s)) in *.
  assert (Kq : 0 <= inject_Z k) by (change 0 with (inject_Z 0); now rewrite <- Zle_Qle).
  assert (D : bars s * b / b == inject_Z k) by (rewrite B; field; lra).
  assert (F : Qfloor (bars s * b / b) = k).
  { rewrite (Qfloor_comp _ _ D). apply Qfloor_Z. }
  split; [now rewrite F|]. split; [|reflexivity].
  rewrite rem_nonneg; [|rewrite B; nra|lra].
  rewrite F, B. ring.
Qed.

Lemma loopEnd_generated_witness :
  ((0 <= 1)%Z /\ bars (rockExample 120) == inject_Z 1) /\
  pos_bars (loopEnd (patternOf alwaysQuarter (rockExample 120) 0)) == inject_Z 1 /\
  pos_beats (loopEnd (patternOf alwaysQuarter (rockExample 120) 0)) == 0 /\
  pos_sixteenths (loopEnd (patternOf alwaysQuarter (rockExample 120) 0)) == 0.
Proof.
  assert (K : (0 <= 1)%Z) by lia.
  assert (B : bars (rockExample 120) == inject_Z 1) by reflexivity.
  split; [split; [exact K | exact B]|].
  exact (loopEnd_generated alwaysQuarter (rockExample 120) 0 1 K B).
Defined.




(** ** The drums of a style *)

Lemma emits_impl {A : Type} (P R : DrumHit -> Prop) (m : Tmpl A) :
  (forall h, P h -> R h) -> emits P m -> emits R m.
Proof.
  intros I H s. destruct (H s) as (new & E & F). exists new.
  split; [exact E|]. revert F. apply Forall_impl. exact I.
Qed.

(** The drum of a pushed hit is one of the list. *)
Ltac drum_listed :=
  unfold playsOnly; cbn [drum];
  repeat match goal with
         | |- context [if ?c then _ else _] => destruct c
         end;
  try match goal with
      | |- In (fst ?x) _ => destruct (fst x)
      end;
  simpl; tauto.

(** The open hi-hats of [addLatinCymbal] are behind a test that never
    holds: [dynamics > 0.6] together with [!(dynamics > 0.5)]. *)
Lemma addLatinCymbal_drums (rnd : nat -> Q) (barOffset bpb cx dyn v : Q) :
  emits (playsOnly [ride; hihat_closed])
        (addLatinCymbal barOffset bpb cx dyn v).
Proof.
  unfold addLatinCymbal. cbv zeta.
  apply emits_bind.
  - apply emits_forLt. intros i. apply emits_push. drum_listed.
  - intros _.
    assert (D : (dyn >? 0.6) && negb (dyn >? 0.5) = false).
    { destruct (dyn >? 0.5) eqn:H5; [apply andb_false_r|].
      apply gtb_false in H5. cbn [negb]. rewrite andb_true_r.
      apply gtb_false. lra. }
    rewrite D. apply emits_ret.
Qed.

Lemma rockBar_drums (rnd : nat -> Q) (bpb cx dyn v : Q) (bar : Z) :
  emits (playsOnly (palette "rock")) (rockBar rnd bpb cx dyn v bar).
Proof.
  unfold rockBar, addKickPattern, addSnarePattern, addHihatPattern,
    addRidePattern, addRockFill.
  emits_walk; drum_listed.
Qed.

Lemma jazzBar_drums (rnd : nat -> Q) (bpb cx dyn v : Q) (bar : Z) :
  emits (playsOnly (palette "jazz")) (jazzBar rnd bpb cx dyn v bar).
Proof.
  unfold jazzBar, addSwingRidePattern, addJazzHihatPattern, addFeatheredKick,
    addJazzSnareComping, addJazzFill.
  emits_walk; drum_listed.
Qed.

Lemma electronicBar_drums (rnd : nat -> Q) (bpb cx dyn v : Q) (bar : Z) :
  emits (playsOnly (palette "electronic")) (electronicBar rnd bpb cx dyn v bar).
Proof.
  unfold electronicBar, addFourOnFloorKick, addElectronicSnare,
    addElectronicHihats, addElectronicPercussion, addElectronicFill.
  emits_walk; drum_listed.
Qed.

Lemma latinBar_drums (rnd : nat -> Q) (bpb cx dyn v : Q) (bar : Z) :
  emits (playsOnly (palette "latin")) (latinBar rnd bpb cx dyn v bar).
Proof.
  unfold latinBar.
  apply emits_bind; [|intros _; apply emits_bind; [|intros _; apply emits_bind]].
  - unfold addLatinKick. emits_walk; drum_listed.
  - unfold addLatinSnare. emits_walk; drum_listed.
  - apply (emits_impl (playsOnly [ride; hihat_closed]));
      [|apply (addLatinCymbal_drums rnd)].
    intros h. unfold playsOnly. simpl. tauto.
  - intros _. unfold addCascaraPattern, addBellPattern.
    emits_walk; drum_listed.
Qed.

Lemma lofiBar_drums (rnd : nat -> Q) (bpb cx v : Q) (bar : Z) :
  emits (playsOnly (palette "lofi")) (lofiBar rnd bpb cx v bar).
Proof.
  unfold lofiBar, addLofiRide, addLofiKick, addLofiSnare, addLofiHihat.
  emits_walk; drum_listed.
Qed.

Lemma templateHits_drums (rnd : nat -> Q) (s : GeneratorSettings) (n : nat) :
  Forall (playsOnly (palette (kitStyle s))) (templateHits rnd s n).
Proof.
  unfold templateHits, generateBasePattern,
    generateRockPattern, generateJazzPattern, generateElectronicPattern,
    generateLatinPattern, generateLofiPattern.
  destruct (String.eqb_spec (kitStyle s) "rock") as [->|N1].
  { apply emits_runTemplate, emits_forLt. intros bar. apply rockBar_drums. }
  destruct (String.eqb_spec (kitStyle s) "jazz") as [->|N2].
  { apply emits_runTemplate, emits_forLt. intros bar. apply jazzBar_drums. }
  destruct (String.eqb_spec (kitStyle s) "electronic") as [->|N3].
  { apply emits_runTemplate, emits_forLt. intros bar. apply electronicBar_drums. }
  destruct (String.eqb_spec (kitStyle s) "latin") as [->|N4].
  { apply emits_runTemplate, emits_forLt. intros bar. apply latinBar_drums. }
  destruct (String.eqb_spec (kitStyle s) "lofi") as [->|N5].
  { apply emits_runTemplate, emits_forLt. intros bar. apply lofiBar_drums. }
  assert (E : palette (kitStyle s) = palette "rock").
  { unfold palette.
    destruct (String.eqb_spec (kitStyle s) "jazz"); [contradiction|].
    destruct (String.eqb_spec (kitStyle s) "electronic"); [contradiction|].
    destruct (String.eqb_spec (kitStyle s) "latin"); [contradiction|].
    destruct (String.eqb_spec (kitStyle s) "lofi"); [contradiction|].
    reflexivity. }
  rewrite E. apply emits_runTemplate, emits_forLt. intros bar. apply rockBar_drums.
Qed.

(** Every hit of the returned pattern has the drum of a hit of the
    template: swing and humanization keep the drum, and sorting and
    deduplication only select. *)
Lemma pattern_template_drum (rnd : nat -> Q) (s : GeneratorSettings) (n : nat)
    (h : DrumHit) :
  In h (hits (patternOf rnd s n)) ->
  exists h0, In h0 (templateHits rnd s n) /\ drum h = drum h0.
Proof.
  rewrite generatePattern_hits. intros I. apply assemble_In in I.
  unfold humanizedHits in I.
  rewrite humanizePattern_enabled in I by reflexivity.
  destruct (Forall2_In_r _ _ _ h
              (mapRand_Forall2 rnd _ (fun a b => drum b = drum a)
                 (fun a m => eq_refl) (swungHits rnd s n) _) I)
    as (a & Ia & Da).
  unfold swungHits, applySwing in Ia.
  assert (W : forall k, In a (swingPattern (templateHits rnd s n) k) ->
                        exists h0, In h0 (templateHits rnd s n) /\ drum h = drum h0).
  { intros k J. unfold swingPattern in J. apply in_map_iff in J.
    destruct J as (h0 & <- & J). exists h0. split; [exact J|].
    rewrite Da. apply swingHit_duration. }
  destruct (String.eqb (kitStyle s) "jazz"); [now apply (W 0.6)|].
  destruct (String.eqb (kitStyle s) "lofi"); [now apply (W 0.5)|].
  exists a. now split.
Qed.

(** X21.  What a style never plays: a generated jazz pattern has no open
    hi-hat and no tom, an electronic one no tom, a lofi one no crash and
    no tom, and a latin one no low tom and no open hi-hat (the two open
    hi-hats of its cymbal part sit behind a test that cannot hold). *)
Theorem generatePattern_palette (rnd : nat -> Q) (s : GeneratorSettings) (n : nat) :
  Forall (playsOnly (palette (kitStyle s))) (hits (patternOf rnd s n)).
Proof.
  apply Forall_forall. intros h I.
  destruct (pattern_template_drum rnd s n h I) as (h0 & I0 & D).
  unfold playsOnly. rewrite D.
  exact (proj1 (Forall_forall _ _) (templateHits_drums rnd s n) h0 I0).
Qed.

(** ** No bars, no hits *)

Lemma forLt_nonpos {St : Type} (bound : Q) (body : Z -> State St unit) :
  bound <= 0 -> forLt bound body = ret tt.
Proof.
  intros B. unfold forLt.
  assert (C : (Qceiling bound <= 0)%Z).
  { change 0%Z with (Qceiling 0). now apply Qceiling_resp_le. }
  destruct (Qceiling bound); try reflexivity. lia.
Qed.

Lemma generateBasePattern_no_bars (rnd : nat -> Q) (s : GeneratorSettings) (n : nat) :
  bars s <= 0 -> generateBasePattern rnd s n = ([], n).
Proof.
  intros B. unfold generateBasePattern,
    generateRockPattern, generateJazzPattern, generateElectronicPattern,
    generateLatinPattern, generateLofiPattern.
  repeat match goal with
         | |- context [if ?c then _ else _] => destruct c
         end;
    rewrite forLt_nonpos by exact B; reflexivity.
Qed.

(** X22.  With no bars to fill ([bars <= 0]) every style returns a
    pattern without hits and draws no random value; the length, the
    time signature and the tempo are still those of the settings. *)
Theorem generatePattern_no_bars (rnd : nat -> Q) (s : GeneratorSettings) (n : nat) :
  bars s <= 0 ->
  generatePattern rnd s n =
  (mkPattern [] (bars s * getBeatsPerBar (s_timeSignature s))
             (s_timeSignature s) (s_bpm s), n).
Proof.
  intros B. unfold generatePattern, sortedHits, bind.
  rewrite generateBasePattern_no_bars by exact B.
  assert (E : applySwing (kitStyle s) [] = []).
  { unfold applySwing.
    destruct (String.eqb (kitStyle s) "jazz"); [reflexivity|].
    destruct (String.eqb (kitStyle s) "lofi"); reflexivity. }
  rewrite E. reflexivity.
Qed.

Lemma generatePattern_no_bars_witness :
  bars noBarsExample <= 0 /\
  generatePattern alwaysQuarter noBarsExample 3%nat =
  (mkPattern [] (bars noBarsExample * getBeatsPerBar (s_timeSignature noBarsExample))
             (s_timeSignature noBarsExample) (s_bpm noBarsExample), 3%nat).
Proof.
  assert (B : bars noBarsExample <= 0) by (vm_compute; discriminate).
  split; [exact B | exact (generatePattern_no_bars alwaysQuarter noBarsExample 3%nat B)].
Defined.

(** ** Templates that leave the random source alone *)

Section DrawFree.

Variables rnd rnd' : nat -> Q.

Lemma drawFree_ret {A : Type} (a : A) : drawFree (ret a) (ret a).
Proof. intros b n n'. exists a, b. split; reflexivity. Qed.

Lemma drawFree_bind {A B : Type} (m m' : Tmpl A) (k k' : A -> Tmpl B) :
  drawFree m m' -> (forall a, drawFree (k a) (k' a)) ->
  drawFree (bind m k) (bind m' k').
Proof.
  intros Hm Hk b n n'. unfold bind.
  destruct (Hm b n n') as (a & b1 & -> & ->).
  exact (Hk a b1 n n').
Qed.

Lemma drawFree_push (h : DrumHit) : drawFree (push h) (push h).
Proof. intros b n n'. exists tt, (b ++ [h]). split; reflexivity. Qed.

Lemma drawFree_when (c : bool) (m m' : Tmpl unit) :
  drawFree m m' -> drawFree (when c m) (when c m').
Proof. intros H. destruct c; [exact H | apply drawFree_ret]. Qed.

Lemma drawFree_forRange (body body' : Z -> Tmpl unit) (k : nat) (start : Z) :
  (forall i, drawFree (body i) (body' i)) ->
  drawFree (forRange start k body) (forRange start k body').
Proof.
  intros H. revert start. induction k as [|k IH]; intros start; simpl.
  - apply drawFree_ret.
  - apply drawFree_bind; [apply H | intros _; apply IH].
Qed.

Lemma drawFree_forLt (body body' : Z -> Tmpl unit) (bound : Q) :
  (forall i, drawFree (body i) (body' i)) ->
  drawFree (forLt bound body) (forLt bound body').
Proof. apply drawFree_forRange. Qed.

Lemma drawFree_forOf {A : Type} (body body' : A -> Tmpl unit) (xs : list A) :
  (forall x, drawFree (body x) (body' x)) ->
  drawFree (forOf xs body) (forOf xs body').
Proof.
  intros H. induction xs as [|x r IH]; simpl.
  - apply drawFree_ret.
  - apply drawFree_bind; [apply H | intros _; exact IH].
Qed.

(** [c && Math.random() < p] does not draw when [c] fails. *)
Lemma drawFree_andAlso (c : bool) (p : Q) :
  c = false -> drawFree (andAlso c (chance rnd p)) (andAlso c (chance rnd' p)).
Proof. intros ->. apply drawFree_ret. Qed.

Lemma drawFree_runTemplate (m m' : Tmpl unit) (n n' : nat) :
  drawFree m m' ->
  runTemplate m n = (fst (runTemplate m' n'), n) /\ snd (runTemplate m' n') = n'.
Proof.
  intros H. unfold runTemplate.
  destruct (H [] n n') as (a & b' & -> & ->). split; reflexivity.
Qed.

End DrawFree.

(** One step through two copies of a template that differ in their
    random source only. *)
Ltac drawFree_step :=
  lazymatch goal with
  | |- drawFree (bind _ _) (bind _ _) => apply drawFree_bind; [|intros ?]
  | |- drawFree (ret _) (ret _) => apply drawFree_ret
  | |- drawFree (push _) (push _) => apply drawFree_push
  | |- drawFree (when false _) (when false _) => apply drawFree_ret
  | |- drawFree (when _ _) (when _ _) => apply drawFree_when
  | |- drawFree (andAlso (false && _) _) (andAlso _ _) =>
      apply drawFree_andAlso; reflexivity
  | |- drawFree (forLt _ _) (forLt _ _) => apply drawFree_forLt; intros ?
  | |- drawFree (forOf _ _) (forOf _ _) => apply drawFree_forOf; intros ?
  | |- drawFree (if ?c then _ else _) (if ?c then _ else _) => destruct c
  end.

Ltac drawFree_walk := cbv zeta; repeat drawFree_step.

(** X23.  At [dynamics <= 0.7] the rock template draws no random value:
    its hits are the same whatever the random source, and the source is
    handed on untouched. *)
Theorem rock_template_draw_free
    (rnd rnd' : nat -> Q) (bars : Q) (ts : string) (cx dyn : Q) (n n' : nat) :
  dyn <= 0.7 ->
  generateRockPattern rnd bars ts cx dyn n =
    (fst (generateRockPattern rnd' bars ts cx dyn n'), n).
Proof.
  intros D. apply gtb_false in D.
  unfold generateRockPattern. cbv zeta.
  apply drawFree_runTemplate, drawFree_forLt. intros bar.
  unfold rockBar, addKickPattern, addSnarePattern, addHihatPattern,
    addRidePattern, addRockFill.
  rewrite D. drawFree_walk.
Qed.

Lemma rock_template_draw_free_witness :
  0.5 <= 0.7 /\
  generateRockPattern alwaysQuarter 2 "4/4" 0.9 0.5 0%nat =
    (fst (generateRockPattern alwaysThreeQuarters 2 "4/4" 0.9 0.5 7%nat), 0%nat).
Proof.
  assert (D : 0.5 <= 0.7) by (vm_compute; discriminate).
  split; [exact D|].
  exact (rock_template_draw_free alwaysQuarter alwaysThreeQuarters 2 "4/4"
           0.9 0.5 0%nat 7%nat D).
Defined.

(** X24.  At [complexity <= 0.5] and [dynamics <= 0.5] the electronic
    template draws no random value: no open hi-hat is tried and the
    percussion layer is off. *)
Theorem electronic_template_draw_free
    (rnd rnd' : nat -> Q) (bars : Q) (ts : string) (cx dyn : Q) (n n' : nat) :
  cx <= 0.5 -> dyn <= 0.5 ->
  generateElectronicPattern rnd bars ts cx dyn n =
    (fst (generateElectronicPattern rnd' bars ts cx dyn n'), n).
Proof.
  intros C D. apply gtb_false in C, D.
  unfold generateElectronicPattern. cbv zeta.
  apply drawFree_runTemplate, drawFree_forLt. intros bar.
  unfold electronicBar, addFourOnFloorKick, addElectronicSnare,
    addElectronicHihats, addElectronicPercussion, addElectronicFill.
  rewrite C, D. drawFree_walk.
Qed.

Lemma electronic_template_draw_free_witness :
  (0.4 <= 0.5 /\ 0.5 <= 0.5) /\
  generateElectronicPattern alwaysQuarter 2 "4/4" 0.4 0.5 0%nat =
    (fst (generateElectronicPattern alwaysThreeQuarters 2 "4/4" 0.4 0.5 7%nat), 0%nat).
Proof.
  assert (C : 0.4 <= 0.5) by (vm_compute; discriminate).
  assert (D : 0.5 <= 0.5) by (vm_compute; discriminate).
  split; [split; [exact C | exact D]|].
  exact (electronic_template_draw_free alwaysQuarter alwaysThreeQuarters 2 "4/4"
           0.4 0.5 0%nat 7%nat C D).
Defined.

(** X25.  At [complexity <= 0.3] the latin template draws no random
    value: the bell part, its only use of chance, is off. *)
Theorem latin_template_draw_free
    (rnd rnd' : nat -> Q) (bars : Q) (ts : string) (cx dyn : Q) (n n' : nat) :
  cx <= 0.3 ->
  generateLatinPattern rnd bars ts cx dyn n =
    (fst (generateLatinPattern rnd' bars ts cx dyn n'), n).
Proof.
  intros C. apply gtb_false in C.
  unfold generateLatinPattern. cbv zeta.
  apply drawFree_runTemplate, drawFree_forLt. intros bar.
  unfold latinBar, addLatinKick, addLatinSnare, addLatinCymbal,
    addCascaraPattern, addBellPattern.
  rewrite C. drawFree_walk.
Qed.

Lemma latin_template_draw_free_witness :
  0.3 <= 0.3 /\
  generateLatinPattern alwaysQuarter 2 "4/4" 0.3 0.8 0%nat =
    (fst (generateLatinPattern alwaysThreeQuarters 2 "4/4" 0.3 0.8 7%nat), 0%nat).
Proof.
  assert (C : 0.3 <= 0.3) by (vm_compute; discriminate).
  split; [exact C|].
  exact (latin_template_draw_free alwaysQuarter alwaysThreeQuarters 2 "4/4"
           0.3 0.8 0%nat 7%nat C).
Defined.

(** ** The bar of three and a half beats *)

(** A test without variables is settled by evaluation. *)
Ltac settle_test c :=
  let v := eval vm_compute in c in
  lazymatch v with
  | true => change c with true
  | false => change c with false
  end.

Ltac emits_eval_step :=
  lazymatch goal with
  | |- emits _ (when true ?m) => change (when true m) with m
  | |- emits _ (when false _) => apply emits_ret
  | |- emits _ (andAlso false _) => apply emits_ret
  | |- emits ?P (if true then ?a else _) => change (emits P a)
  | |- emits ?P (if false then _ else ?b) => change (emits P b)
  | |- emits _ (when ?c _) => first [settle_test c | apply emits_when]
  | |- emits _ (andAlso ?c _) => first [settle_test c | apply emits_andAlso]
  | |- emits _ (if ?c then _ else _) => first [settle_test c | destruct c]
  | |- _ => emits_step
  end.

Ltac emits_eval := cbv zeta; repeat emits_eval_step.

Lemma lofiBar_seven_eight (rnd : nat -> Q) (cx v : Q) (bar : Z) :
  emits (playsOnly [ride]) (lofiBar rnd (getBeatsPerBar "7/8") cx v bar).
Proof.
  change (getBeatsPerBar "7/8") with 3.5.
  unfold lofiBar, addLofiRide, addLofiKick, addLofiSnare, addLofiHihat.
  emits_eval; drum_listed.
Qed.

Lemma latinBar_seven_eight (rnd : nat -> Q) (cx dyn v : Q) (bar : Z) :
  emits (playsOnly [ride; hihat_closed; crash])
        (latinBar rnd (getBeatsPerBar "7/8") cx dyn v bar).
Proof.
  change (getBeatsPerBar "7/8") with 3.5.
  unfold latinBar.
  apply emits_bind; [|intros _; apply emits_bind; [|intros _; apply emits_bind]].
  - unfold addLatinKick. emits_eval; drum_listed.
  - unfold addLatinSnare. emits_eval; drum_listed.
  - apply (emits_impl (playsOnly [ride; hihat_closed]));
      [|apply (addLatinCymbal_drums rnd)].
    intros h. unfold playsOnly. simpl. tauto.
  - intros _. unfold addCascaraPattern, addBellPattern.
    emits_eval; drum_listed.
Qed.

Lemma pattern_drums (rnd : nat -> Q) (s : GeneratorSettings) (n : nat)
    (drums : list DrumType) :
  Forall (playsOnly drums) (templateHits rnd s n) ->
  Forall (playsOnly drums) (hits (patternOf rnd s n)).
Proof.
  intros T. apply Forall_forall. intros h I.
  destruct (pattern_template_drum rnd s n h I) as (h0 & I0 & D).
  unfold playsOnly. rewrite D.
  exact (proj1 (Forall_forall _ _) T h0 I0).
Qed.

(** X26.  In 7/8 a lofi pattern is ride cymbal only: the kick, the snare
    and the hi-hat of the lofi template are written for bars of at
    least four beats or of exactly three, and a bar of three and a half
    is neither. *)
Theorem lofi_seven_eight_ride_only
    (rnd : nat -> Q) (s : GeneratorSettings) (n : nat) :
  kitStyle s = "lofi" -> s_timeSignature s = "7/8" ->
  Forall (fun h => drum h = ride) (hits (patternOf rnd s n)).
Proof.
  intros K T.
  assert (F : Forall (playsOnly [ride]) (hits (patternOf rnd s n))).
  { apply pattern_drums. unfold templateHits, generateBasePattern.
    rewrite K, T. cbn [String.eqb Ascii.eqb Bool.eqb].
    unfold generateLofiPattern. cbv zeta.
    apply emits_runTemplate, emits_forLt. intros bar. apply lofiBar_seven_eight. }
  revert F. apply Forall_impl. intros h [E|[]]. now symmetry.
Qed.

Lemma lofi_seven_eight_ride_only_witness :
  (kitStyle lofiOddBarExample = "lofi" /\
   s_timeSignature lofiOddBarExample = "7/8") /\
  Forall (fun h => drum h = ride)
         (hits (patternOf alwaysHalf lofiOddBarExample 0)).
Proof.
  split; [split; reflexivity|].
  exact (lofi_seven_eight_ride_only alwaysHalf lofiOddBarExample 0 eq_refl eq_refl).
Defined.

(** X27.  In 7/8 a latin pattern has no kick, no snare and no tom: only
    the cymbal part and the bell (on the crash) play in a bar of three
    and a half beats. *)
Theorem latin_seven_eight_cymbals_only
    (rnd : nat -> Q) (s : GeneratorSettings) (n : nat) :
  kitStyle s = "latin" -> s_timeSignature s = "7/8" ->
  Forall (fun h => drum h = ride \/ drum h = hihat_closed \/ drum h = crash)
         (hits (patternOf rnd s n)).
Proof.
  intros K T.
  assert (F : Forall (playsOnly [ride; hihat_closed; crash])
                     (hits (patternOf rnd s n))).
  { apply pattern_drums. unfold templateHits, generateBasePattern.
    rewrite K, T. cbn [String.eqb Ascii.eqb Bool.eqb].
    unfold generateLatinPattern. cbv zeta.
    apply emits_runTemplate, emits_forLt. intros bar. apply latinBar_seven_eight. }
  revert F. apply Forall_impl. intros h. unfold playsOnly. simpl.
  intros [E|[E|[E|[]]]]; symmetry in E; tauto.
Qed.

Lemma latin_seven_eight_cymbals_only_witness :
  (kitStyle latinOddMeterExample = "latin" /\
   s_timeSignature latinOddMeterExample = "7/8") /\
  Forall (fun h => drum h = ride \/ drum h = hihat_closed \/ drum h = crash)
         (hits (patternOf alwaysHalf latinOddMeterExample 0)).
Proof.
  split; [split; reflexivity|].
  exact (latin_seven_eight_cymbals_only alwaysHalf latinOddMeterExample 0
           eq_refl eq_refl).
Defined.

(** ** The grid of the pattern display *)

Lemma gridKey_inj (d d' : DrumType) (i i' : Z) :
  gridKey d i = gridKey d' i' -> d = d' /\ i = i'.
Proof.
  unfold gridKey. destruct d, d'; simpl; intros H;
    try discriminate H; injection H as H; apply toString_inj in H;
    now split.
Qed.

Lemma addToGrid_other (g : Dict Q) (h : DrumHit) (d : DrumType) (i : Z) :
  ~ (drum h = d /\ gridStepOf h = i) ->
  dict_get (gridKey d i) (addToGrid g h) = dict_get (gridKey d i) g.
Proof.
  intros N. unfold addToGrid. cbv zeta.
  assert (K : String.eqb (gridKey d i) (gridKey (drum h) (gridStepOf h)) = false).
  { apply String.eqb_neq. intros E. apply gridKey_inj in E. destruct E. now apply N. }
  destruct (dict_get (gridKey (drum h) (gridStepOf h)) g) as [existing|].
  - destruct (velocity h >? existing); [|reflexivity].
    now rewrite dict_get_set, K.
  - now rewrite dict_get_set, K.
Qed.

Lemma addToGrid_same (g : Dict Q) (h : DrumHit) :
  dict_get (gridKey (drum h) (gridStepOf h)) (addToGrid g h) =
  match dict_get (gridKey (drum h) (gridStepOf h)) g with
  | None => Some (velocity h)
  | Some existing =>
      if velocity h >? existing then Some (velocity h) else Some existing
  end.
Proof.
  unfold addToGrid. cbv zeta.
  destruct (dict_get (gridKey (drum h) (gridStepOf h)) g) as [existing|] eqn:G.
  - destruct (velocity h >? existing); [|exact G].
    now rewrite dict_get_set, String.eqb_refl.
  - now rewrite dict_get_set, String.eqb_refl.
Qed.

Lemma fold_addToGrid (l : list DrumHit) (d : DrumType) (i : Z) :
  match dict_get (gridKey d i) (fold_left addToGrid l []) with
  | None => forall h, In h l -> ~ (drum h = d /\ gridStepOf h = i)
  | Some v =>
      (exists h, In h l /\ drum h = d /\ gridStepOf h = i /\ velocity h = v) /\
      (forall h, In h l -> drum h = d -> gridStepOf h = i -> velocity h <= v)
  end.
Proof.
  induction l as [|h l IH] using rev_ind.
  - simpl. intros h [].
  - rewrite fold_left_app. cbn [fold_left].
    set (g := fold_left addToGrid l []) in *.
    assert (Dec : (drum h = d /\ gridStepOf h = i) \/
                  ~ (drum h = d /\ gridStepOf h = i)).
    { destruct (drum_eqb (drum h) d) eqn:Ed.
      - apply drum_eqb_eq in Ed. destruct (Z.eq_dec (gridStepOf h) i).
        + left. now split.
        + right. tauto.
      - right. intros (E & _). apply drum_eqb_eq in E. congruence. }
    destruct Dec as [(Ed & Ei)|N].
    + subst d i. rewrite addToGrid_same.
      destruct (dict_get (gridKey (drum h) (gridStepOf h)) g) as [existing|].
      * destruct IH as ((h0 & I0 & D0 & S0 & V0) & Max).
        destruct (velocity h >? existing) eqn:C.
        -- apply gtb_true in C. split.
           ++ exists h. rewrite in_app_iff. simpl. tauto.
           ++ intros h' I' D' S'. apply in_app_iff in I'.
              destruct I' as [I'|[<-|[]]]; [|lra].
              specialize (Max h' I' D' S'). lra.
        -- apply gtb_false in C. split.
           ++ exists h0. rewrite in_app_iff. tauto.
           ++ intros h' I' D' S'. apply in_app_iff in I'.
              destruct I' as [I'|[<-|[]]]; [now apply Max | exact C].
      * split.
        -- exists h. rewrite in_app_iff. simpl. tauto.
        -- intros h' I' D' S'. apply in_app_iff in I'.
           destruct I' as [I'|[<-|[]]]; [|lra].
           exfalso. apply (IH h' I'). now split.
    + rewrite addToGrid_other by exact N.
      destruct (dict_get (gridKey d i) g) as [v|].
      * destruct IH as ((h0 & I0 & D0 & S0 & V0) & Max). split.
        -- exists h0. rewrite in_app_iff. tauto.
        -- intros h' I' D' S'. apply in_app_iff in I'.
           destruct I' as [I'|[<-|[]]]; [now apply Max|].
           exfalso. apply N. now split.
      * intros h' I'. apply in_app_iff in I'.
        destruct I' as [I'|[<-|[]]]; [now apply IH | exact N].
Qed.

(** X28.  The cell of the display for a drum and a step is empty exactly
    when no hit of that drum rounds to the step; otherwise it holds the
    velocity of the loudest of the hits that do. *)
Theorem cell_loudest (p : Pattern) (d : DrumType) (i : Z) :
  match cell p d i with
  | None => forall h, In h (hits p) -> ~ (drum h = d /\ gridStepOf h = i)
  | Some v =>
      (exists h, In h (hits p) /\ drum h = d /\ gridStepOf h = i /\ velocity h = v) /\
      (forall h, In h (hits p) -> drum h = d -> gridStepOf h = i -> velocity h <= v)
  end.
Proof. apply fold_addToGrid. Qed.


(** ** The samples of the WAV export *)

Lemma toInt16_small (x : Q) :
  (-32768 <= Num.trunc x <= 32767)%Z -> toInt16 x = Num.trunc x.
Proof.
  intros R. unfold toInt16. cbv zeta.
  set (z := Num.trunc x) in *.
  destruct (Z_lt_le_dec z 0) as [N|P].
  - assert (E : (z mod 65536 = z + 65536)%Z).
    { symmetry. apply (Z.mod_unique_pos z 65536 (-1)); lia. }
    rewrite E. destruct (Z.geb_spec (z + 65536) 32768); lia.
  - rewrite Z.mod_small by lia. destruct (Z.geb_spec z 32768); lia.
Qed.

Lemma trunc_monotone (a b : Q) : a <= b -> (Num.trunc a <= Num.trunc b)%Z.
Proof.
  intros H. unfold Num.trunc.
  destruct (a <? 0) eqn:A, (b <? 0) eqn:B.
  - now apply Qceiling_resp_le.
  - apply ltb_true in A. apply ltb_false in B.
    transitivity 0%Z.
    + change 0%Z with (Qceiling 0). apply Qceiling_resp_le. lra.
    + change 0%Z with (Qfloor 0). now apply Qfloor_resp_le.
  - apply ltb_false in A. apply ltb_true in B. lra.
  - now apply Qfloor_resp_le.
Qed.

Lemma trunc_Z (z : Z) : Num.trunc (inject_Z z) = z.
Proof.
  unfold Num.trunc. destruct (_ <? _); [apply Qceiling_Z | apply Qfloor_Z].
Qed.

(** The scaled sample, before it is stored. *)
Lemma scaled_range (value : Q) :
  let sample := Num.max (-1) (Num.min 1 value) in
  let intSample := if sample <? 0 then sample * 32768 else sample * 32767 in
  -1 <= sample /\ sample <= 1 /\ sample == Qmax (-1) (Qmin 1 value) /\
  inject_Z (-32768) <= intSample /\ intSample <= inject_Z 32767 /\
  (sample < 0 -> intSample == sample * 32768) /\
  (0 <= sample -> intSample == sample * 32767).
Proof.
  cbv zeta.
  assert (S : Num.max (-1) (Num.min 1 value) == Qmax (-1) (Qmin 1 value)).
  { rewrite max_Qmax. apply Q.max_compat; [reflexivity | apply min_Qmin]. }
  set (s := Num.max (-1) (Num.min 1 value)) in *.
  assert (L : -1 <= s) by (rewrite S; apply Q.le_max_l).
  assert (U : s <= 1).
  { rewrite S. apply Q.max_lub; [lra | apply Q.le_min_l]. }
  assert (A : inject_Z (-32768) == -32768) by reflexivity.
  assert (B : inject_Z 32767 == 32767) by reflexivity.
  rewrite A, B.
  destruct (s <? 0) eqn:N.
  - apply ltb_true in N.
    split; [exact L|]. split; [exact U|]. split; [exact S|].
    split; [lra|]. split; [lra|]. split; [intros _; reflexivity | intros P; lra].
  - apply ltb_false in N.
    split; [exact L|]. split; [exact U|]. split; [exact S|].
    split; [lra|]. split; [lra|]. split; [intros P; lra | intros _; reflexivity].
Qed.

Lemma pcmSample_trunc (value : Q) :
  let sample := Num.max (-1) (Num.min 1 value) in
  let intSample := if sample <? 0 then sample * 32768 else sample * 32767 in
  pcmSample value = Num.trunc intSample /\
  (-32768 <= Num.trunc intSample <= 32767)%Z.
Proof.
  cbv zeta. destruct (scaled_range value) as (_ & _ & _ & L & U & _).
  cbv zeta in L, U.
  match type of L with
  | _ <= ?e => set (i := e) in *
  end.
  assert (R : (-32768 <= Num.trunc i <= 32767)%Z).
  { split.
    - rewrite <- (trunc_Z (-32768)). now apply trunc_monotone.
    - rewrite <- (trunc_Z 32767). now apply trunc_monotone. }
  split; [|exact R]. unfold pcmSample. cbv zeta. fold i. now apply toInt16_small.
Qed.

(** X30.  The 16-bit sample [audioBufferToWav] writes never wraps
    around: a louder sample is never written as a smaller number, every
    sample at or below -1 is written as -32768 and every sample at or
    above 1 as 32767. *)
Theorem pcmSample_monotone (x y : Q) :
  x <= y ->
  (-32768 <= pcmSample x <= pcmSample y)%Z /\ (pcmSample y <= 32767)%Z /\
  (x <= -1 -> pcmSample x = (-32768)%Z) /\
  (1 <= y -> pcmSample y = 32767%Z).
Proof.
  intros H.
  destruct (pcmSample_trunc x) as (Ex & Rx). destruct (pcmSample_trunc y) as (Ey & Ry).
  destruct (scaled_range x) as (Lx & Ux & Sx & _ & _ & Nx & Px).
  destruct (scaled_range y) as (Ly & Uy & Sy & _ & _ & Ny & Py).
  cbv zeta in *.
  set (sx := Num.max (-1) (Num.min 1 x)) in *.
  set (sy := Num.max (-1) (Num.min 1 y)) in *.
  set (ix := if sx <? 0 then sx * 32768 else sx * 32767) in *.
  set (iy := if sy <? 0 then sy * 32768 else sy * 32767) in *.
  assert (M : sx <= sy).
  { rewrite Sx, Sy. apply Q.max_le_compat_l, Q.min_le_compat_l, H. }
  assert (I : ix <= iy).
  { destruct (Qlt_le_dec sx 0) as [A|A], (Qlt_le_dec sy 0) as [B|B].
    - rewrite (Nx A), (Ny B). lra.
    - rewrite (Nx A), (Py B). lra.
    - lra.
    - rewrite (Px A), (Py B). lra. }
  rewrite Ex, Ey.
  split; [split; [lia | now apply trunc_monotone]|]. split; [lia|]. split.
  - intros X. assert (E : sx == -1).
    { rewrite Sx. apply Q.max_l. apply Q.min_le_iff. right. exact X. }
    assert (E' : ix == inject_Z (-32768)).
    { rewrite Nx by lra. rewrite E. reflexivity. }
    assert (T : Num.trunc ix = Num.trunc (inject_Z (-32768))).
    { apply Z.le_antisymm; apply trunc_monotone; rewrite E'; apply Qle_refl. }
    rewrite T. apply trunc_Z.
  - intros Y. assert (E : sy == 1).
    { rewrite Sy. rewrite Q.min_l by exact Y. apply Q.max_r. lra. }
    assert (E' : iy == inject_Z 32767).
    { rewrite Py by lra. rewrite E. reflexivity. }
    assert (T : Num.trunc iy = Num.trunc (inject_Z 32767)).
    { apply Z.le_antisymm; apply trunc_monotone; rewrite E'; apply Qle_refl. }
    rewrite T. apply trunc_Z.
Qed.

Lemma pcmSample_monotone_witness :
  - (1 # 2) <= 1 # 4 /\
  (-32768 <= pcmSample (- (1 # 2)) <= pcmSample (1 # 4))%Z.
Proof.
  assert (H : - (1 # 2) <= 1 # 4) by (vm_compute; discriminate).
  split; [exact H | exact (proj1 (pcmSample_monotone (- (1 # 2)) (1 # 4) H))].
Defined.
